(** * wemake-python-styleguide: complexity counters and class attribute rules

    A shallow embedding of
    [wemake_python_styleguide/visitors/ast/complexity/counts.py]
    over a model of the Python [ast] node types the visitors inspect, of
    the shadowed-class-attribute rule and of the rule engine as the
    natural-language specification describes them, together with the
    properties of the specification that concern them. *)

From Stdlib Require Import ZArith Lia.
From stdpp Require Import base list strings gmap pretty.

#[local] Set Warnings "-register-all,-clear-no-such-hyp".

Local Open Scope Z_scope.
Local Open Scope string_scope.
Local Open Scope list_scope.

(** ** The Python [ast] node types used by the visitors *)

Module ast.

Inductive boolop := And | Or.

Inductive cmpop :=
  Eq | NotEq | Lt | LtE | Gt | GtE | Is | IsNot | In | NotIn.

Inductive unaryop := Invert | Not | UAdd | USub.

Inductive constant :=
| CNone | CBool (b : bool) | CInt (n : Z) | CStr (s : string) | CEllipsis.

(** Expressions.  Field order is that of [_fields] of the Python class,
    which is the order [generic_visit] follows. *)
Inductive expr :=
| BoolOp (op : boolop) (values : list expr)
| UnaryOp (op : unaryop) (operand : expr)
| Compare (left : expr) (ops : list cmpop) (comparators : list expr)
| Call (func : expr) (args : list expr) (keywords : list (string * expr))
| Yield (value : option expr)
| Constant (value : constant)
| Attribute (value : expr) (attr : string)
| Subscript (value : expr) (slice : expr)
| Name (id : string)
| Tuple (elts : list expr).

(** Statements.  Python compares and hashes ast nodes by object identity;
    [nid] stands for the identity of the statement object. *)
Inductive stmt :=
| FunctionDef (nid : nat) (is_async : bool) (name : string)
    (args : list string) (body : list stmt) (decorator_list : list expr)
| ClassDef (nid : nat) (name : string) (bases : list expr)
    (body : list stmt) (decorator_list : list expr)
| Return (nid : nat) (value : option expr)
| Assign (nid : nat) (targets : list expr) (value : expr)
| AnnAssign (nid : nat) (target : expr) (annotation : expr)
    (value : option expr)
| For (nid : nat) (target : expr) (iter : expr)
    (body : list stmt) (orelse : list stmt)
| While (nid : nat) (test : expr) (body : list stmt) (orelse : list stmt)
| If (nid : nat) (test : expr) (body : list stmt) (orelse : list stmt)
| With (nid : nat) (items : list expr) (body : list stmt)
| Try (nid : nat) (star : bool) (body : list stmt)
    (handlers : list excepthandler)
    (orelse : list stmt) (finalbody : list stmt)
| Expr (nid : nat) (value : expr)
| Pass (nid : nat)
with excepthandler :=
| ExceptHandler (type : option expr) (name : option string)
    (body : list stmt).

(** Any node a visitor method can receive. *)
Inductive node :=
| NStmt (s : stmt)
| NExpr (e : expr)
| NHandler (h : excepthandler).

Definition nid_of (s : stmt) : nat :=
  match s with
  | FunctionDef n _ _ _ _ _ | ClassDef n _ _ _ _ | Return n _
  | Assign n _ _ | AnnAssign n _ _ _ | For n _ _ _ _ | While n _ _ _
  | If n _ _ _ | With n _ _ | Try n _ _ _ _ _ | Expr n _ | Pass n => n
  end.

(** [a is b] on statement objects. *)
Definition is_ (a b : stmt) : bool := Nat.eqb (nid_of a) (nid_of b).

Definition isinstance_If (s : stmt) : bool :=
  match s with If _ _ _ _ => true | _ => false end.

Definition isinstance_BoolOp (e : expr) : bool :=
  match e with BoolOp _ _ => true | _ => false end.

Definition isinstance_Eq (op : cmpop) : bool :=
  match op with Eq => true | _ => false end.

Definition isinstance_NotEq (op : cmpop) : bool :=
  match op with NotEq => true | _ => false end.

End ast.

(** ** Induction principles for the nested node types *)

Section expr_induction.
Context (P : ast.expr → Prop).
Context (HBoolOp : ∀ op values, Forall P values → P (ast.BoolOp op values)).
Context (HUnaryOp : ∀ op operand, P operand → P (ast.UnaryOp op operand)).
Context (HCompare : ∀ lhs ops comparators,
  P lhs → Forall P comparators → P (ast.Compare lhs ops comparators)).
Context (HCall : ∀ func args keywords,
  P func → Forall P args → Forall (λ kw, P (snd kw)) keywords →
  P (ast.Call func args keywords)).
Context (HYieldNone : P (ast.Yield None)).
Context (HYield : ∀ value, P value → P (ast.Yield (Some value))).
Context (HConstant : ∀ value, P (ast.Constant value)).
Context (HAttribute : ∀ value attr, P value → P (ast.Attribute value attr)).
Context (HSubscript : ∀ value slice,
  P value → P slice → P (ast.Subscript value slice)).
Context (HName : ∀ id, P (ast.Name id)).
Context (HTuple : ∀ elts, Forall P elts → P (ast.Tuple elts)).

Fixpoint expr_nested_ind (e : ast.expr) : P e :=
  let all := fix all (es : list ast.expr) : Forall P es :=
    match es with
    | [] => List.Forall_nil P
    | e :: es => List.Forall_cons P e es (expr_nested_ind e) (all es)
    end in
  match e with
  | ast.BoolOp op values => HBoolOp op values (all values)
  | ast.UnaryOp op operand => HUnaryOp op operand (expr_nested_ind operand)
  | ast.Compare lhs ops comparators =>
      HCompare lhs ops comparators (expr_nested_ind lhs) (all comparators)
  | ast.Call func args keywords =>
      HCall func args keywords (expr_nested_ind func) (all args)
        ((fix allk (ks : list (string * ast.expr))
            : Forall (λ kw, P (snd kw)) ks :=
            match ks with
            | [] => List.Forall_nil _
            | k :: ks =>
                List.Forall_cons (λ kw, P (snd kw))
                  k ks (expr_nested_ind (snd k)) (allk ks)
            end) keywords)
  | ast.Yield None => HYieldNone
  | ast.Yield (Some value) => HYield value (expr_nested_ind value)
  | ast.Constant value => HConstant value
  | ast.Attribute value attr => HAttribute value attr (expr_nested_ind value)
  | ast.Subscript value slice =>
      HSubscript value slice (expr_nested_ind value) (expr_nested_ind slice)
  | ast.Name id => HName id
  | ast.Tuple elts => HTuple elts (all elts)
  end.
End expr_induction.

Section stmt_induction.
Context (P : ast.stmt → Prop) (Q : ast.excepthandler → Prop).
Context (HFunctionDef : ∀ n a name args body ds,
  Forall P body → P (ast.FunctionDef n a name args body ds)).
Context (HClassDef : ∀ n name bases body ds,
  Forall P body → P (ast.ClassDef n name bases body ds)).
Context (HReturn : ∀ n value, P (ast.Return n value)).
Context (HAssign : ∀ n targets value, P (ast.Assign n targets value)).
Context (HAnnAssign : ∀ n target annotation value,
  P (ast.AnnAssign n target annotation value)).
Context (HFor : ∀ n target iter body orelse,
  Forall P body → Forall P orelse → P (ast.For n target iter body orelse)).
Context (HWhile : ∀ n test body orelse,
  Forall P body → Forall P orelse → P (ast.While n test body orelse)).
Context (HIf : ∀ n test body orelse,
  Forall P body → Forall P orelse → P (ast.If n test body orelse)).
Context (HWith : ∀ n items body, Forall P body → P (ast.With n items body)).
Context (HTry : ∀ n star body handlers orelse finalbody,
  Forall P body → Forall Q handlers → Forall P orelse →
  Forall P finalbody → P (ast.Try n star body handlers orelse finalbody)).
Context (HExpr : ∀ n value, P (ast.Expr n value)).
Context (HPass : ∀ n, P (ast.Pass n)).
Context (HExceptHandler : ∀ type name body,
  Forall P body → Q (ast.ExceptHandler type name body)).

Fixpoint stmt_nested_ind (s : ast.stmt) : P s :=
  let all := fix all (ss : list ast.stmt) : Forall P ss :=
    match ss with
    | [] => List.Forall_nil P
    | s :: ss => List.Forall_cons P s ss (stmt_nested_ind s) (all ss)
    end in
  match s with
  | ast.FunctionDef n a name args body ds =>
      HFunctionDef n a name args body ds (all body)
  | ast.ClassDef n name bases body ds =>
      HClassDef n name bases body ds (all body)
  | ast.Return n value => HReturn n value
  | ast.Assign n targets value => HAssign n targets value
  | ast.AnnAssign n target annotation value =>
      HAnnAssign n target annotation value
  | ast.For n target iter body orelse =>
      HFor n target iter body orelse (all body) (all orelse)
  | ast.While n test body orelse =>
      HWhile n test body orelse (all body) (all orelse)
  | ast.If n test body orelse =>
      HIf n test body orelse (all body) (all orelse)
  | ast.With n items body => HWith n items body (all body)
  | ast.Try n star body handlers orelse finalbody =>
      HTry n star body handlers orelse finalbody (all body)
        ((fix allh (hs : list ast.excepthandler) : Forall Q hs :=
            match hs with
            | [] => List.Forall_nil Q
            | h :: hs =>
                List.Forall_cons Q h hs (handler_nested_ind h) (allh hs)
            end) handlers)
        (all orelse) (all finalbody)
  | ast.Expr n value => HExpr n value
  | ast.Pass n => HPass n
  end
with handler_nested_ind (h : ast.excepthandler) : Q h :=
  match h with
  | ast.ExceptHandler type name body =>
      HExceptHandler type name body
        ((fix all (ss : list ast.stmt) : Forall P ss :=
            match ss with
            | [] => List.Forall_nil P
            | s :: ss => List.Forall_cons P s ss (stmt_nested_ind s) (all ss)
            end) body)
  end.
End stmt_induction.

(** ** Contexts *)

(** Modelled from the spec: [logic.nodes.get_context] is not among the
    sources of the repository at hand.  Section 4.1 of the specification
    describes it: the context of a node is its nearest enclosing module,
    class or function; only class and function bodies open a new context.
    The walker below threads the context downwards accordingly. *)
Inductive context := ctx_Module | ctx_ClassDef | ctx_FunctionDef.

Definition isinstance_Module (c : context) : bool :=
  match c with ctx_Module => true | _ => false end.

(** ** Violations and options *)

Inductive violation_class :=
| TooManyModuleMembersViolation
| TooManyDecoratorsViolation
| TooManyConditionsViolation
| TooLongCompareViolation
| TooManyElifsViolation
| TooManyExceptCasesViolation
| TooLongTryBodyViolation
| TooLongFinallyBodyViolation
| TooManyExceptExceptionsViolation
| ShadowedClassAttributeViolation.

Global Instance violation_class_eq_dec : EqDecision violation_class.
Proof. solve_decision. Defined.

(** [cls (node, text=..., baseline=...)] *)
Record Violation := mkViolation {
  v_class : violation_class;
  v_node : option ast.node;
  v_text : string;
  v_baseline : option Z;
}.

(** The configurable thresholds read by the visitors of [counts.py].
    Python integers are unbounded, and nothing validates them. *)
Record Options := mkOptions {
  max_decorators : Z;
  max_module_members : Z;
  max_try_body_length : Z;
  max_lines_in_finally : Z;
  max_except_exceptions : Z;
}.

(** [len(xs)] and [str(n)]. *)
Definition len {A} (xs : list A) : Z := Z.of_nat (length xs).
Definition str (n : Z) : string := pretty n.

(** ** The tree walker

    [ast.NodeVisitor.visit] looks up the method [visit_<ClassName>] and
    falls back on [generic_visit]; every visitor method of [counts.py] runs
    its checks and then calls [generic_visit] itself.  The walker therefore
    applies the visitor's dispatch function [on_node] to a node and then
    descends into the children, field by field. *)
Section visit_list.
Context {A S : Type} (visit : A → S → S).

(** [for item in value: self.visit(item)] *)
Fixpoint visit_list (xs : list A) (st : S) : S :=
  match xs with
  | [] => st
  | x :: xs => visit_list xs (visit x st)
  end.

Definition visit_opt (o : option A) (st : S) : S :=
  match o with Some a => visit a st | None => st end.
End visit_list.

Section walker.
Context {S : Type}.
Context (on_node : context → ast.node → S → S).

Fixpoint visit_expr (c : context) (e : ast.expr) (st : S) : S :=
  let st := on_node c (ast.NExpr e) st in
  match e with
  | ast.BoolOp _ values => visit_list (visit_expr c) values st
  | ast.UnaryOp _ operand => visit_expr c operand st
  | ast.Compare lhs _ comparators =>
      visit_list (visit_expr c) comparators (visit_expr c lhs st)
  | ast.Call func args keywords =>
      visit_list (λ kw, visit_expr c (snd kw)) keywords
        (visit_list (visit_expr c) args (visit_expr c func st))
  | ast.Yield value => visit_opt (visit_expr c) value st
  | ast.Constant _ => st
  | ast.Attribute value _ => visit_expr c value st
  | ast.Subscript value slice => visit_expr c slice (visit_expr c value st)
  | ast.Name _ => st
  | ast.Tuple elts => visit_list (visit_expr c) elts st
  end.

Fixpoint visit_stmt (c : context) (s : ast.stmt) (st : S) : S :=
  let st := on_node c (ast.NStmt s) st in
  match s with
  | ast.FunctionDef _ _ _ _ body decorator_list =>
      visit_list (visit_expr ctx_FunctionDef) decorator_list
        (visit_list (visit_stmt ctx_FunctionDef) body st)
  | ast.ClassDef _ _ bases body decorator_list =>
      visit_list (visit_expr ctx_ClassDef) decorator_list
        (visit_list (visit_stmt ctx_ClassDef) body
           (visit_list (visit_expr ctx_ClassDef) bases st))
  | ast.Return _ value => visit_opt (visit_expr c) value st
  | ast.Assign _ targets value =>
      visit_expr c value (visit_list (visit_expr c) targets st)
  | ast.AnnAssign _ target annotation value =>
      visit_opt (visit_expr c) value
        (visit_expr c annotation (visit_expr c target st))
  | ast.For _ target iter body orelse =>
      visit_list (visit_stmt c) orelse
        (visit_list (visit_stmt c) body
           (visit_expr c iter (visit_expr c target st)))
  | ast.While _ test body orelse =>
      visit_list (visit_stmt c) orelse
        (visit_list (visit_stmt c) body (visit_expr c test st))
  | ast.If _ test body orelse =>
      visit_list (visit_stmt c) orelse
        (visit_list (visit_stmt c) body (visit_expr c test st))
  | ast.With _ items body =>
      visit_list (visit_stmt c) body (visit_list (visit_expr c) items st)
  | ast.Try _ _ body handlers orelse finalbody =>
      visit_list (visit_stmt c) finalbody
        (visit_list (visit_stmt c) orelse
           (visit_list (visit_handler c) handlers
              (visit_list (visit_stmt c) body st)))
  | ast.Expr _ value => visit_expr c value st
  | ast.Pass _ => st
  end
with visit_handler (c : context) (h : ast.excepthandler) (st : S) : S :=
  let st := on_node c (ast.NHandler h) st in
  match h with
  | ast.ExceptHandler type _ body =>
      visit_list (visit_stmt c) body (visit_opt (visit_expr c) type st)
  end.

(** [visit(tree)] on the [ast.Module] node: none of the visitors has a
    [visit_Module], so the module's statements are visited in turn. *)
Definition visit_tree (tree : list ast.stmt) (st : S) : S :=
  visit_list (visit_stmt ctx_Module) tree st.

End walker.

(** One dispatch, on a node paired with its context, and one dispatch on a
    statement paired with its context. *)
Definition fire {S : Type} (on_node : context → ast.node → S → S)
    (st : S) (cn : context * ast.node) : S :=
  on_node (fst cn) (snd cn) st.

Definition fire_stmt {S : Type} (on_node : context → ast.node → S → S)
    (st : S) (cs : context * ast.stmt) : S :=
  on_node (fst cs) (ast.NStmt (snd cs)) st.

(** ** [ModuleMembersVisitor] *)

Module ModuleMembersVisitor.
Section visitor.

(** [logic.tree.decorators.has_overload_decorator] is not among the sources
    at hand: it is a parameter of the visitor. *)
Context (has_overload_decorator : ast.stmt → bool).
Context (options : Options).

Record self := mkSelf {
  _public_items_count : Z;
  violations : list Violation;
}.

Definition __init__ : self :=
  {| _public_items_count := 0; violations := [] |}.

Definition add_violation (v : Violation) (st : self) : self :=
  {| _public_items_count := _public_items_count st;
     violations := violations st ++ [v] |}.

Definition decorator_list (node : ast.stmt) : list ast.expr :=
  match node with
  | ast.FunctionDef _ _ _ _ _ ds | ast.ClassDef _ _ _ _ ds => ds
  | _ => []
  end.

(** [isinstance(node, FunctionNodes)] *)
Definition isinstance_FunctionNodes (node : ast.stmt) : bool :=
  match node with ast.FunctionDef _ _ _ _ _ _ => true | _ => false end.

Definition _check_members_count (c : context) (node : ast.stmt) (st : self)
    : self :=
  if negb (isinstance_Module c) then st
  else if isinstance_FunctionNodes node && has_overload_decorator node
  then st
  else {| _public_items_count := _public_items_count st + 1;
          violations := violations st |}.

Definition _check_decorators_count (node : ast.stmt) (st : self) : self :=
  let number_of_decorators := len (decorator_list node) in
  if number_of_decorators >? max_decorators options
  then add_violation
         (mkViolation TooManyDecoratorsViolation (Some (ast.NStmt node))
            (str number_of_decorators) (Some (max_decorators options))) st
  else st.

(** The body of [visit_module_members]; its final [generic_visit] is the
    walker's descent. *)
Definition visit_module_members (c : context) (node : ast.stmt) (st : self)
    : self :=
  _check_members_count c node (_check_decorators_count node st).

(** The [alias] decorator: [visit_ClassDef], [visit_AsyncFunctionDef] and
    [visit_FunctionDef] all are [visit_module_members]. *)
Definition visit (c : context) (n : ast.node) (st : self) : self :=
  match n with
  | ast.NStmt (ast.FunctionDef _ _ _ _ _ _ as node)
  | ast.NStmt (ast.ClassDef _ _ _ _ _ as node) =>
      visit_module_members c node st
  | _ => st
  end.

Definition _post_visit (st : self) : self :=
  if _public_items_count st >? max_module_members options
  then add_violation
         (mkViolation TooManyModuleMembersViolation None
            (str (_public_items_count st))
            (Some (max_module_members options))) st
  else st.

(** [visitor.run()]: visit the tree, then [_post_visit]. *)
Definition walk (tree : list ast.stmt) : self :=
  visit_tree visit tree __init__.

Definition run (tree : list ast.stmt) : list Violation :=
  violations (_post_visit (walk tree)).

End visitor.
End ModuleMembersVisitor.

(** ** [ConditionsVisitor] *)

Module ConditionsVisitor.
Section visitor.

(** [constants.MAX_CONDITIONS] and [constants.MAX_COMPARES]: the module
    [constants] is not among the sources at hand. *)
Context (MAX_CONDITIONS MAX_COMPARES : Z).

(** The visitor has no state of its own besides the violations list. *)
Definition self := list Violation.

Definition __init__ : self := [].

Definition add_violation (v : Violation) (st : self) : self := st ++ [v].

(** The loop body of [_count_conditions] is the function folded over
    [node.values].  The method is only ever called on [ast.BoolOp] nodes. *)
Fixpoint _count_conditions (node : ast.expr) : Z :=
  match node with
  | ast.BoolOp _ values =>
      fold_left
        (λ counter condition,
           if ast.isinstance_BoolOp condition
           then counter + _count_conditions condition
           else counter + 1)
        values 0
  | _ => 0
  end.

Definition _check_conditions (node : ast.expr) (st : self) : self :=
  let conditions_count := _count_conditions node in
  if conditions_count >? MAX_CONDITIONS
  then add_violation
         (mkViolation TooManyConditionsViolation (Some (ast.NExpr node))
            (str conditions_count) (Some MAX_CONDITIONS)) st
  else st.

Definition ops_of (node : ast.expr) : list ast.cmpop :=
  match node with ast.Compare _ ops _ => ops | _ => [] end.

Definition _check_compares (node : ast.expr) (st : self) : self :=
  let is_all_equals := forallb ast.isinstance_Eq (ops_of node) in
  let is_all_notequals := forallb ast.isinstance_NotEq (ops_of node) in
  let can_be_longer := is_all_notequals || is_all_equals in
  let threshold := MAX_COMPARES in
  let threshold := if can_be_longer then threshold + 1 else threshold in
  if len (ops_of node) >? threshold
  then add_violation
         (mkViolation TooLongCompareViolation (Some (ast.NExpr node))
            (str (len (ops_of node))) (Some threshold)) st
  else st.

(** [visit_BoolOp] and [visit_Compare]. *)
Definition visit (c : context) (n : ast.node) (st : self) : self :=
  match n with
  | ast.NExpr (ast.BoolOp _ _ as node) => _check_conditions node st
  | ast.NExpr (ast.Compare _ _ _ as node) => _check_compares node st
  | _ => st
  end.

Definition run (tree : list ast.stmt) : list Violation :=
  visit_tree visit tree __init__.

End visitor.
End ConditionsVisitor.

(** ** [ElifVisitor] *)

Module ElifVisitor.
Section visitor.

(** [constants.MAX_ELIFS] *)
Context (MAX_ELIFS : Z).

(** [_if_children] is a [defaultdict(list)] keyed by [ast.If] objects.  A
    Python dict iterates in insertion order and looks keys up by identity
    here: an association list whose keys are compared with [ast.is_]. *)
Record self := mkSelf {
  _if_children : list (ast.stmt * list ast.stmt);
  violations : list Violation;
}.

Definition __init__ : self := {| _if_children := []; violations := [] |}.

Definition add_violation (v : Violation) (st : self) : self :=
  {| _if_children := _if_children st; violations := violations st ++ [v] |}.

(** [d[key]] on a [defaultdict(list)]: a missing key is inserted, with an
    empty list, at the end. *)
Definition dd_touch (key : ast.stmt) (d : list (ast.stmt * list ast.stmt))
    : list (ast.stmt * list ast.stmt) :=
  if existsb (λ kv, ast.is_ (fst kv) key) d then d else d ++ [(key, [])].

(** [d[key].extend(items)]; [append] is [extend] with one item. *)
Definition dd_extend (key : ast.stmt) (items : list ast.stmt)
    (d : list (ast.stmt * list ast.stmt))
    : list (ast.stmt * list ast.stmt) :=
  map (λ kv, if ast.is_ (fst kv) key then (fst kv, snd kv ++ items) else kv)
    (dd_touch key d).

Definition orelse_of (node : ast.stmt) : list ast.stmt :=
  match node with ast.If _ _ _ orelse => orelse | _ => [] end.

(** [node in children] *)
Definition contains (children : list ast.stmt) (node : ast.stmt) : bool :=
  existsb (ast.is_ node) children.

Definition _get_root_if_node (node : ast.stmt)
    (d : list (ast.stmt * list ast.stmt)) : ast.stmt :=
  match find (λ kv, contains (snd kv) node) d with
  | Some (root, _) => root
  | None => node
  end.

Definition _update_if_child (root node : ast.stmt)
    (d : list (ast.stmt * list ast.stmt))
    : list (ast.stmt * list ast.stmt) :=
  let d := if negb (ast.is_ node root) then dd_extend root [node] d else d in
  dd_extend root (orelse_of node) d.

Definition _check_elifs (node : ast.stmt)
    (d : list (ast.stmt * list ast.stmt))
    : list (ast.stmt * list ast.stmt) :=
  let has_elif := forallb ast.isinstance_If (orelse_of node) in
  if has_elif
  then let root := _get_root_if_node node d in _update_if_child root node d
  else d.

(** [visit_If] *)
Definition visit (c : context) (n : ast.node) (st : self) : self :=
  match n with
  | ast.NStmt (ast.If _ _ _ _ as node) =>
      {| _if_children := _check_elifs node (_if_children st);
         violations := violations st |}
  | _ => st
  end.

(** [len(set(children))]: the number of distinct objects. *)
Definition real_children_length (children : list ast.stmt) : Z :=
  len (remove_dups (ast.nid_of <$> children)).

Definition _post_visit (st : self) : self :=
  fold_left
    (λ st kv,
       let real_children_length := real_children_length (snd kv) in
       if real_children_length >? MAX_ELIFS
       then add_violation
              (mkViolation TooManyElifsViolation (Some (ast.NStmt (fst kv)))
                 (str real_children_length) (Some MAX_ELIFS)) st
       else st)
    (_if_children st) st.

Definition walk (tree : list ast.stmt) : self :=
  visit_tree visit tree __init__.

Definition run (tree : list ast.stmt) : list Violation :=
  violations (_post_visit (walk tree)).

End visitor.
End ElifVisitor.

(** ** [TryExceptVisitor] *)

Module TryExceptVisitor.
Section visitor.

(** [constants.MAX_EXCEPT_CASES] *)
Context (MAX_EXCEPT_CASES : Z).
Context (options : Options).

Definition self := list Violation.

Definition __init__ : self := [].

Definition add_violation (v : Violation) (st : self) : self := st ++ [v].

Definition handlers_of (node : ast.stmt) : list ast.excepthandler :=
  match node with ast.Try _ _ _ handlers _ _ => handlers | _ => [] end.

Definition body_of (node : ast.stmt) : list ast.stmt :=
  match node with ast.Try _ _ body _ _ _ => body | _ => [] end.

Definition finalbody_of (node : ast.stmt) : list ast.stmt :=
  match node with ast.Try _ _ _ _ _ finalbody => finalbody | _ => [] end.

Definition _check_except_count (node : ast.stmt) (st : self) : self :=
  if len (handlers_of node) >? MAX_EXCEPT_CASES
  then add_violation
         (mkViolation TooManyExceptCasesViolation (Some (ast.NStmt node))
            (str (len (handlers_of node))) (Some MAX_EXCEPT_CASES)) st
  else st.

Definition _check_try_body_length (node : ast.stmt) (st : self) : self :=
  if len (body_of node) >? max_try_body_length options
  then add_violation
         (mkViolation TooLongTryBodyViolation (Some (ast.NStmt node))
            (str (len (body_of node)))
            (Some (max_try_body_length options))) st
  else st.

Definition _check_finally_body_length (node : ast.stmt) (st : self) : self :=
  if len (finalbody_of node) >? max_lines_in_finally options
  then add_violation
         (mkViolation TooLongFinallyBodyViolation (Some (ast.NStmt node))
            (str (len (finalbody_of node)))
            (Some (max_lines_in_finally options))) st
  else st.

(** The loop body of [_check_exceptions_count]. *)
Definition check_handler (st : self) (except_handler : ast.excepthandler)
    : self :=
  match except_handler with
  | ast.ExceptHandler exc_type _ _ =>
      match exc_type with
      | Some (ast.Tuple elts) =>
          if len elts >? max_except_exceptions options
          then add_violation
                 (mkViolation TooManyExceptExceptionsViolation
                    (Some (ast.NHandler except_handler))
                    (str (len elts)) (Some (max_except_exceptions options)))
                 st
          else st
      | _ => st
      end
  end.

Definition _check_exceptions_count (node : ast.stmt) (st : self) : self :=
  fold_left check_handler (handlers_of node) st.

(** The body of [visit_any_try]. *)
Definition visit_any_try (node : ast.stmt) (st : self) : self :=
  _check_exceptions_count node
    (_check_finally_body_length node
       (_check_try_body_length node (_check_except_count node st))).

(** [visit_Try] and [visit_TryStar] both are [visit_any_try]. *)
Definition visit (c : context) (n : ast.node) (st : self) : self :=
  match n with
  | ast.NStmt (ast.Try _ _ _ _ _ _ as node) => visit_any_try node st
  | _ => st
  end.

Definition run (tree : list ast.stmt) : list Violation :=
  visit_tree visit tree __init__.

End visitor.
End TryExceptVisitor.

(** The body of a handler. *)
Definition handler_body (h : ast.excepthandler) : list ast.stmt :=
  match h with ast.ExceptHandler _ _ body => body end.

(** ** [ClassAttributeVisitor]: shadowed class attributes

    The visitor [visitors/ast/classes/attributes.py] and the helpers it
    calls are not among the sources at hand; only its violation class
    ([violations/oop.py]) and its tests are.  The definitions of this
    module are modelled from the specification and follow the four phases
    of its section 4.4. *)

Module ClassAttributeVisitor.

Definition self := list Violation.

Definition __init__ : self := [].

Definition add_violation (v : Violation) (st : self) : self := st ++ [v].

(** Modelled from the spec: the class-level target of
    [ClassAttributeVisitor], phase 1.  A target that is a bare name declares
    that name; any other target is ignored. *)
Definition bare_name (target : ast.expr) : gset string :=
  match target with ast.Name id => {[ id ]} | _ => ∅ end.

(** Modelled from the spec: the recursion of phases 1 and 2 of
    [ClassAttributeVisitor].  It descends into nested control-flow blocks
    (conditionals, loops, scoped blocks, exception blocks) but not into
    nested function or class declarations, and collects what [leaf] finds
    at the other statements. *)
Fixpoint through_blocks (leaf : ast.stmt → gset string) (s : ast.stmt)
    : gset string :=
  match s with
  | ast.For _ _ _ body orelse | ast.While _ _ body orelse
  | ast.If _ _ body orelse =>
      ⋃ (through_blocks leaf <$> body) ∪ ⋃ (through_blocks leaf <$> orelse)
  | ast.With _ _ body => ⋃ (through_blocks leaf <$> body)
  | ast.Try _ _ body handlers orelse finalbody =>
      ⋃ (through_blocks leaf <$> body)
      ∪ ⋃ ((λ h, ⋃ (through_blocks leaf <$> handler_body h)) <$> handlers)
      ∪ ⋃ (through_blocks leaf <$> orelse)
      ∪ ⋃ (through_blocks leaf <$> finalbody)
  | _ => leaf s
  end.

(** Modelled from the spec: phase 1 of [ClassAttributeVisitor] at one
    statement.  A plain assignment, or an annotated declaration with a
    value, declares its bare-name targets with a value. *)
Definition declares_with_value (s : ast.stmt) : gset string :=
  match s with
  | ast.Assign _ targets _ => ⋃ (bare_name <$> targets)
  | ast.AnnAssign _ target _ (Some _) => bare_name target
  | _ => ∅
  end.

(** Modelled from the spec: phase 1 of [ClassAttributeVisitor] at one
    statement.  An annotated declaration without a value declares its
    bare-name target without a value. *)
Definition declares_bare (s : ast.stmt) : gset string :=
  match s with
  | ast.AnnAssign _ target _ None => bare_name target
  | _ => ∅
  end.

(** Modelled from the spec: phase 1 of [ClassAttributeVisitor], the sets
    [DeclaredWithValue] and [DeclaredBare] below one statement of the class
    body. *)
Definition declared_with_value : ast.stmt → gset string :=
  through_blocks declares_with_value.

Definition declared_bare : ast.stmt → gset string :=
  through_blocks declares_bare.

(** Modelled from the spec: the instance-level target of
    [ClassAttributeVisitor], phase 2.  An attribute access on the
    instance-reference parameter [this]. *)
Definition instance_attribute (this : string) (target : ast.expr)
    : gset string :=
  match target with
  | ast.Attribute (ast.Name id) attr =>
      if String.eqb id this then {[ attr ]} else ∅
  | _ => ∅
  end.

(** Modelled from the spec: phase 2 of [ClassAttributeVisitor] at one
    statement, the attributes it assigns on [this]. *)
Definition assigns_on (this : string) (s : ast.stmt) : gset string :=
  match s with
  | ast.Assign _ targets _ => ⋃ (instance_attribute this <$> targets)
  | ast.AnnAssign _ target _ (Some _) => instance_attribute this target
  | _ => ∅
  end.

(** Modelled from the spec: phase 2 of [ClassAttributeVisitor] for one
    statement of a method body. *)
Definition instance_assigned (this : string) : ast.stmt → gset string :=
  through_blocks (assigns_on this).

(** Modelled from the spec: phase 2 of [ClassAttributeVisitor] for one
    statement of the class body.  A method declared directly under the class
    contributes the attributes assigned on its first declared parameter. *)
Definition method_assigned (s : ast.stmt) : gset string :=
  match s with
  | ast.FunctionDef _ _ _ (this :: _) body _ =>
      ⋃ (instance_assigned this <$> body)
  | _ => ∅
  end.

Definition class_body (node : ast.stmt) : list ast.stmt :=
  match node with ast.ClassDef _ _ _ body _ => body | _ => [] end.

Definition class_decorators (node : ast.stmt) : list ast.expr :=
  match node with ast.ClassDef _ _ _ _ ds => ds | _ => [] end.

Definition DeclaredWithValue (node : ast.stmt) : gset string :=
  ⋃ (declared_with_value <$> class_body node).

Definition DeclaredBare (node : ast.stmt) : gset string :=
  ⋃ (declared_bare <$> class_body node).

Definition InstanceAssigned (node : ast.stmt) : gset string :=
  ⋃ (method_assigned <$> class_body node).

(** Modelled from the spec: phase 3 of [ClassAttributeVisitor].  The
    identifier a decorator resolves to, written bare or as the callee of a
    call; any other shape resolves to nothing. *)
Definition resolved_identifier (decorator : ast.expr) : option string :=
  match decorator with
  | ast.Name id => Some id
  | ast.Call (ast.Name id) _ _ => Some id
  | _ => None
  end.

(** Modelled from the spec: the auto-initializer marker, which the
    specification does not name; it is the decorator of the tests. *)
Definition auto_initializer_marker : string := "dataclass".

Definition is_exempting (decorator : ast.expr) : bool :=
  match resolved_identifier decorator with
  | Some id => String.eqb id auto_initializer_marker
  | None => false
  end.

Definition is_exempt (node : ast.stmt) : bool :=
  existsb is_exempting (class_decorators node).

(** Modelled from the spec: the violation of a shadowed attribute.  The
    specification leaves its anchor open; the class declaration is taken. *)
Definition shadow_violation (node : ast.stmt) (name : string) : Violation :=
  mkViolation ShadowedClassAttributeViolation (Some (ast.NStmt node))
    name None.

(** Modelled from the spec: phase 4 of [ClassAttributeVisitor].  One
    violation for every name of [DeclaredWithValue ∩ InstanceAssigned],
    unless the class is exempt. *)
Definition _check_attributes_shadowing (node : ast.stmt) (st : self)
    : self :=
  if is_exempt node then st
  else fold_left (λ st name, add_violation (shadow_violation node name) st)
         (elements (DeclaredWithValue node ∩ InstanceAssigned node)) st.

(** [visit_ClassDef] *)
Definition visit (c : context) (n : ast.node) (st : self) : self :=
  match n with
  | ast.NStmt (ast.ClassDef _ _ _ _ _ as node) =>
      _check_attributes_shadowing node st
  | _ => st
  end.

Definition run (tree : list ast.stmt) : list Violation :=
  visit_tree visit tree __init__.

End ClassAttributeVisitor.

(** ** The rule engine

    The walker and the rule registry ([visitors/base.py] and the checker
    that runs the visitors) are not among the sources at hand.  Sections 2,
    3 and 4.2 of the specification describe them: the engine instantiates
    every registered rule afresh for the tree, drives one pre-order
    traversal in which every rule's handler fires at every node, runs every
    rule's finalization hook once, and collects the violations rule by
    rule. *)

(** Modelled from the spec: the store of the engine.  A rule instance is a
    mutable object; the engine reaches it through a reference, and two
    references to one object see each other's updates.  The attributes of
    an instance are the state that the methods of its class read and write
    through [self]. *)
Definition loc := nat.

Inductive object :=
| ModuleMembersObject (self : ModuleMembersVisitor.self)
| ConditionsObject (self : ConditionsVisitor.self)
| ElifObject (self : ElifVisitor.self)
| TryExceptObject (self : TryExceptVisitor.self)
| ClassAttributeObject (self : ClassAttributeVisitor.self).

Abbreviation store := (gmap loc object).

(** Modelled from the spec: the rule classes that the registry holds. *)
Inductive Rule :=
| ModuleMembersRule
| ConditionsRule
| ElifRule
| TryExceptRule
| ClassAttributeRule.

Definition registry : list Rule :=
  [ModuleMembersRule; ConditionsRule; ElifRule; TryExceptRule;
   ClassAttributeRule].

Section engine.
Context (has_overload_decorator : ast.stmt → bool).
Context (MAX_CONDITIONS MAX_COMPARES MAX_ELIFS MAX_EXCEPT_CASES : Z).
Context (options : Options).

(** One rule run alone: [visitor.run()] followed by reading
    [visitor.violations]. *)
Definition run_rule (tree : list ast.stmt) (r : Rule) : list Violation :=
  match r with
  | ModuleMembersRule =>
      ModuleMembersVisitor.run has_overload_decorator options tree
  | ConditionsRule => ConditionsVisitor.run MAX_CONDITIONS MAX_COMPARES tree
  | ElifRule => ElifVisitor.run MAX_ELIFS tree
  | TryExceptRule => TryExceptVisitor.run MAX_EXCEPT_CASES options tree
  | ClassAttributeRule => ClassAttributeVisitor.run tree
  end.

(** The attributes that [__init__] gives a new instance. *)
Definition init (r : Rule) : object :=
  match r with
  | ModuleMembersRule => ModuleMembersObject ModuleMembersVisitor.__init__
  | ConditionsRule => ConditionsObject ConditionsVisitor.__init__
  | ElifRule => ElifObject ElifVisitor.__init__
  | TryExceptRule => TryExceptObject TryExceptVisitor.__init__
  | ClassAttributeRule => ClassAttributeObject ClassAttributeVisitor.__init__
  end.

(** Modelled from the spec: the construction of a rule instance.  The new
    object gets an address that no object of the store has. *)
Definition new (r : Rule) (σ : store) : loc * store :=
  let l := fresh (dom σ) in (l, <[l := init r]> σ).

(** The methods of an instance, by its class. *)
Definition visit_object (c : context) (n : ast.node) (o : object) : object :=
  match o with
  | ModuleMembersObject self =>
      ModuleMembersObject
        (ModuleMembersVisitor.visit has_overload_decorator options c n self)
  | ConditionsObject self =>
      ConditionsObject
        (ConditionsVisitor.visit MAX_CONDITIONS MAX_COMPARES c n self)
  | ElifObject self => ElifObject (ElifVisitor.visit c n self)
  | TryExceptObject self =>
      TryExceptObject (TryExceptVisitor.visit MAX_EXCEPT_CASES options c n self)
  | ClassAttributeObject self =>
      ClassAttributeObject (ClassAttributeVisitor.visit c n self)
  end.

Definition post_visit_object (o : object) : object :=
  match o with
  | ModuleMembersObject self =>
      ModuleMembersObject (ModuleMembersVisitor._post_visit options self)
  | ElifObject self => ElifObject (ElifVisitor._post_visit MAX_ELIFS self)
  | ConditionsObject _ | TryExceptObject _ | ClassAttributeObject _ => o
  end.

Definition violations_of (o : object) : list Violation :=
  match o with
  | ModuleMembersObject self => ModuleMembersVisitor.violations self
  | ElifObject self => ElifVisitor.violations self
  | ConditionsObject self | TryExceptObject self
  | ClassAttributeObject self => self
  end.

(** A method call through a reference updates the object in the store. *)
Definition visit_at (c : context) (n : ast.node) (σ : store) (l : loc)
    : store :=
  alter (visit_object c n) l σ.

Definition post_visit_at (σ : store) (l : loc) : store :=
  alter post_visit_object l σ.

(** Modelled from the spec: the engine instantiates every registered rule,
    in registry order. *)
Fixpoint instantiate (rules : list Rule) (σ : store) : list loc * store :=
  match rules with
  | [] => ([], σ)
  | r :: rules =>
      let (l, σ) := new r σ in
      let (ls, σ) := instantiate rules σ in
      (l :: ls, σ)
  end.

(** Modelled from the spec: the dispatch of the engine.  At a node, the
    handler of every instance fires, in registry order. *)
Definition dispatch (ls : list loc) (c : context) (n : ast.node) (σ : store)
    : store :=
  fold_left (visit_at c n) ls σ.

Definition finalize (ls : list loc) (σ : store) : store :=
  fold_left post_visit_at ls σ.

Definition results (ls : list loc) (σ : store) : list (list Violation) :=
  (λ l, from_option violations_of [] (σ !! l)) <$> ls.

(** Modelled from the spec: the engine, started on a store that may hold
    the objects of earlier runs.  It returns the result of every rule, in
    registry order, and the store it leaves. *)
Definition engine (rules : list Rule) (tree : list ast.stmt) (σ : store)
    : list (list Violation) * store :=
  let (ls, σ) := instantiate rules σ in
  let σ := finalize ls (visit_tree (dispatch ls) tree σ) in
  (results ls σ, σ).

(** Modelled from the spec: the violations handed to the reporter. *)
Definition engine_violations (rules : list Rule) (tree : list ast.stmt)
    (σ : store) : list Violation :=
  concat (fst (engine rules tree σ)).

End engine.

(** ** [ReturnLikeStatementTupleVisitor] *)

Module ReturnLikeStatementTupleVisitor.
Section visitor.

(** [constants.MAX_LEN_TUPLE_OUTPUT] *)
Context (MAX_LEN_TUPLE_OUTPUT : Z).

(** [complexity.TooLongOutputTupleViolation(node, text=..., baseline=...)] *)
Inductive violation :=
| TooLongOutputTupleViolation (node : ast.node) (text : string)
    (baseline : Z).

Definition self := list violation.

Definition __init__ : self := [].

Definition add_violation (v : violation) (st : self) : self := st ++ [v].

(** [node.value] of an [ast.Return] or [ast.Yield]. *)
Definition value_of (node : ast.node) : option ast.expr :=
  match node with
  | ast.NStmt (ast.Return _ value) => value
  | ast.NExpr (ast.Yield value) => value
  | _ => None
  end.

Definition _check_return_like_values (node : ast.node) (st : self) : self :=
  match value_of node with
  | Some (ast.Tuple elts) =>
      if len elts >? MAX_LEN_TUPLE_OUTPUT
      then add_violation
             (TooLongOutputTupleViolation node (str (len elts))
                MAX_LEN_TUPLE_OUTPUT) st
      else st
  | _ => st
  end.

(** [visit_Return] and [visit_Yield] both are [visit_return_like]. *)
Definition visit (c : context) (n : ast.node) (st : self) : self :=
  match n with
  | ast.NStmt (ast.Return _ _) | ast.NExpr (ast.Yield _) =>
      _check_return_like_values n st
  | _ => st
  end.

Definition run (tree : list ast.stmt) : list violation :=
  visit_tree visit tree __init__.

End visitor.
End ReturnLikeStatementTupleVisitor.

(** ** [TupleUnpackVisitor] *)

Module TupleUnpackVisitor.
Section visitor.

(** [self.options.max_tuple_unpack_length] *)
Context (max_tuple_unpack_length : Z).

(** [complexity.TooLongTupleUnpackViolation(node, text=..., baseline=...)] *)
Inductive violation :=
| TooLongTupleUnpackViolation (node : ast.node) (text : string)
    (baseline : Z).

(** [node.targets[0]] raises [IndexError] on an empty list, and the
    exception ends the run: [None] is the raised state. *)
Definition self := option (list violation).

Definition __init__ : self := Some [].

Definition targets_of (node : ast.stmt) : list ast.expr :=
  match node with ast.Assign _ targets _ => targets | _ => [] end.

Definition _check_tuple_unpack (node : ast.stmt) (violations : list violation)
    : self :=
  match targets_of node with
  | [] => None
  | target :: _ =>
      match target with
      | ast.Tuple elts =>
          if (len elts <=? max_tuple_unpack_length)%Z
          then Some violations
          else Some (violations
                     ++ [TooLongTupleUnpackViolation (ast.NStmt node)
                           (str (len elts)) max_tuple_unpack_length])
      | _ => Some violations
      end
  end.

(** [visit_Assign]; nothing runs once an exception is raised. *)
Definition visit (c : context) (n : ast.node) (st : self) : self :=
  match st with
  | None => None
  | Some violations =>
      match n with
      | ast.NStmt (ast.Assign _ _ _ as node) =>
          _check_tuple_unpack node violations
      | _ => Some violations
      end
  end.

Definition run (tree : list ast.stmt) : self :=
  visit_tree visit tree __init__.

End visitor.
End TupleUnpackVisitor.

(** ** The violation classes of [violations/oop.py] *)

Module oop.

Inductive violation_class :=
| BuiltinSubclassViolation
| ShadowedClassAttributeViolation
| StaticMethodViolation
| BadMagicMethodViolation
| WrongClassBodyContentViolation
| MethodWithoutArgumentsViolation
| WrongBaseClassViolation
| WrongSlotsViolation
| WrongSuperCallViolation
| DirectMagicAttributeAccessViolation
| AsyncMagicMethodViolation
| YieldMagicMethodViolation
| UselessOverwrittenMethodViolation
| WrongSuperCallAccessViolation
| WrongDescriptorDecoratorViolation
| UnpythonicGetterSetterViolation
| BuggySuperContextViolation
| LambdaAttributeAssignedViolation.

(** The class attribute [code]. *)
Definition code (k : violation_class) : Z :=
  match k with
  | BuiltinSubclassViolation => 600
  | ShadowedClassAttributeViolation => 601
  | StaticMethodViolation => 602
  | BadMagicMethodViolation => 603
  | WrongClassBodyContentViolation => 604
  | MethodWithoutArgumentsViolation => 605
  | WrongBaseClassViolation => 606
  | WrongSlotsViolation => 607
  | WrongSuperCallViolation => 608
  | DirectMagicAttributeAccessViolation => 609
  | AsyncMagicMethodViolation => 610
  | YieldMagicMethodViolation => 611
  | UselessOverwrittenMethodViolation => 612
  | WrongSuperCallAccessViolation => 613
  | WrongDescriptorDecoratorViolation => 614
  | UnpythonicGetterSetterViolation => 615
  | BuggySuperContextViolation => 616
  | LambdaAttributeAssignedViolation => 617
  end.

End oop.

(** * Views of a tree used to state the properties *)

(** ** The nodes of a tree in pre-order, each with its context *)

Fixpoint nodes_expr (c : context) (e : ast.expr)
    : list (context * ast.node) :=
  (c, ast.NExpr e) ::
  match e with
  | ast.BoolOp _ values => flat_map (nodes_expr c) values
  | ast.UnaryOp _ operand => nodes_expr c operand
  | ast.Compare lhs _ comparators =>
      nodes_expr c lhs ++ flat_map (nodes_expr c) comparators
  | ast.Call func args keywords =>
      nodes_expr c func ++ flat_map (nodes_expr c) args
      ++ flat_map (λ kw, nodes_expr c (snd kw)) keywords
  | ast.Yield (Some value) => nodes_expr c value
  | ast.Yield None => []
  | ast.Constant _ => []
  | ast.Attribute value _ => nodes_expr c value
  | ast.Subscript value slice => nodes_expr c value ++ nodes_expr c slice
  | ast.Name _ => []
  | ast.Tuple elts => flat_map (nodes_expr c) elts
  end.

Definition nodes_opt_expr (c : context) (o : option ast.expr)
    : list (context * ast.node) :=
  match o with Some e => nodes_expr c e | None => [] end.

Fixpoint nodes_stmt (c : context) (s : ast.stmt)
    : list (context * ast.node) :=
  (c, ast.NStmt s) ::
  match s with
  | ast.FunctionDef _ _ _ _ body decorator_list =>
      flat_map (nodes_stmt ctx_FunctionDef) body
      ++ flat_map (nodes_expr ctx_FunctionDef) decorator_list
  | ast.ClassDef _ _ bases body decorator_list =>
      flat_map (nodes_expr ctx_ClassDef) bases
      ++ flat_map (nodes_stmt ctx_ClassDef) body
      ++ flat_map (nodes_expr ctx_ClassDef) decorator_list
  | ast.Return _ value => nodes_opt_expr c value
  | ast.Assign _ targets value =>
      flat_map (nodes_expr c) targets ++ nodes_expr c value
  | ast.AnnAssign _ target annotation value =>
      nodes_expr c target ++ nodes_expr c annotation
      ++ nodes_opt_expr c value
  | ast.For _ target iter body orelse =>
      nodes_expr c target ++ nodes_expr c iter
      ++ flat_map (nodes_stmt c) body ++ flat_map (nodes_stmt c) orelse
  | ast.While _ test body orelse | ast.If _ test body orelse =>
      nodes_expr c test
      ++ flat_map (nodes_stmt c) body ++ flat_map (nodes_stmt c) orelse
  | ast.With _ items body =>
      flat_map (nodes_expr c) items ++ flat_map (nodes_stmt c) body
  | ast.Try _ _ body handlers orelse finalbody =>
      flat_map (nodes_stmt c) body ++ flat_map (nodes_handler c) handlers
      ++ flat_map (nodes_stmt c) orelse ++ flat_map (nodes_stmt c) finalbody
  | ast.Expr _ value => nodes_expr c value
  | ast.Pass _ => []
  end
with nodes_handler (c : context) (h : ast.excepthandler)
    : list (context * ast.node) :=
  (c, ast.NHandler h) ::
  match h with
  | ast.ExceptHandler type _ body =>
      nodes_opt_expr c type ++ flat_map (nodes_stmt c) body
  end.

Definition nodes (tree : list ast.stmt) : list (context * ast.node) :=
  flat_map (nodes_stmt ctx_Module) tree.

(** ** The statements of a tree in pre-order, each with its context *)

(** The statements directly below a statement, in the order they are
    visited. *)
Definition children (s : ast.stmt) : list ast.stmt :=
  match s with
  | ast.FunctionDef _ _ _ _ body _ | ast.ClassDef _ _ _ body _
  | ast.With _ _ body => body
  | ast.For _ _ _ body orelse | ast.While _ _ body orelse
  | ast.If _ _ body orelse => body ++ orelse
  | ast.Try _ _ body handlers orelse finalbody =>
      body ++ flat_map handler_body handlers ++ orelse ++ finalbody
  | _ => []
  end.

(** The context of the statements directly below a statement: class and
    function declarations open a new one. *)
Definition child_context (c : context) (s : ast.stmt) : context :=
  match s with
  | ast.FunctionDef _ _ _ _ _ _ => ctx_FunctionDef
  | ast.ClassDef _ _ _ _ _ => ctx_ClassDef
  | _ => c
  end.

Fixpoint scoped_stmt (c : context) (s : ast.stmt)
    : list (context * ast.stmt) :=
  (c, s) ::
  match s with
  | ast.FunctionDef _ _ _ _ body _ =>
      flat_map (scoped_stmt ctx_FunctionDef) body
  | ast.ClassDef _ _ _ body _ => flat_map (scoped_stmt ctx_ClassDef) body
  | ast.With _ _ body => flat_map (scoped_stmt c) body
  | ast.For _ _ _ body orelse | ast.While _ _ body orelse
  | ast.If _ _ body orelse =>
      flat_map (scoped_stmt c) body ++ flat_map (scoped_stmt c) orelse
  | ast.Try _ _ body handlers orelse finalbody =>
      flat_map (scoped_stmt c) body
      ++ flat_map (λ h, flat_map (scoped_stmt c) (handler_body h)) handlers
      ++ flat_map (scoped_stmt c) orelse
      ++ flat_map (scoped_stmt c) finalbody
  | _ => []
  end.

Definition scoped_stmts (tree : list ast.stmt) : list (context * ast.stmt) :=
  flat_map (scoped_stmt ctx_Module) tree.

(** All statements of a tree, in pre-order. *)
Definition stmts_of (tree : list ast.stmt) : list ast.stmt :=
  snd <$> scoped_stmts tree.

(** Distinct statement objects have distinct identities. *)
Definition unique_ids (tree : list ast.stmt) : Prop :=
  NoDup (ast.nid_of <$> stmts_of tree).

Definition isinstance_ClassDef (s : ast.stmt) : bool :=
  match s with ast.ClassDef _ _ _ _ _ => true | _ => false end.

Definition isinstance_Try (s : ast.stmt) : bool :=
  match s with ast.Try _ _ _ _ _ _ => true | _ => false end.

(** Class and function declarations. *)
Definition is_declaration (s : ast.stmt) : bool :=
  isinstance_ClassDef s || ModuleMembersVisitor.isinstance_FunctionNodes s.

Definition has_class (k : violation_class) (v : Violation) : bool :=
  bool_decide (v_class v = k).

(** The violation is anchored at the statement object [s]. *)
Definition anchored_at (s : ast.stmt) (v : Violation) : bool :=
  match v_node v with
  | Some (ast.NStmt s') => ast.is_ s' s
  | _ => false
  end.

(** ** Views of expressions *)

(** The operands of a boolean combination once the nested boolean
    combinations are flattened: an operand that is not itself a boolean
    combination is a leaf. *)
Fixpoint flatten (e : ast.expr) : list ast.expr :=
  match e with
  | ast.BoolOp _ values => flat_map flatten values
  | _ => [e]
  end.

(** The threshold that [_check_compares] computes for a comparison. *)
Definition compare_threshold (MAX_COMPARES : Z) (node : ast.expr) : Z :=
  if forallb ast.isinstance_NotEq (ConditionsVisitor.ops_of node)
     || forallb ast.isinstance_Eq (ConditionsVisitor.ops_of node)
  then MAX_COMPARES + 1 else MAX_COMPARES.

(** A chain that mixes operator kinds holds two different operators. *)
Definition mixed (ops : list ast.cmpop) : Prop :=
  ∃ op1 op2, op1 ∈ ops ∧ op2 ∈ ops ∧ op1 ≠ op2.

(** ** Views of declarations and handlers *)

(** All class and function declarations of a tree, whatever their
    context. *)
Definition declarations (tree : list ast.stmt) : list ast.stmt :=
  List.filter is_declaration (stmts_of tree).

(** A statement that counts as a module member: a class or function
    declaration whose context is the module, function declarations with the
    overload decorator apart. *)
Definition is_module_member (has_overload_decorator : ast.stmt → bool)
    (cs : context * ast.stmt) : bool :=
  isinstance_Module (fst cs) && is_declaration (snd cs)
  && negb (ModuleMembersVisitor.isinstance_FunctionNodes (snd cs)
           && has_overload_decorator (snd cs)).

Definition module_members (has_overload_decorator : ast.stmt → bool)
    (tree : list ast.stmt) : list ast.stmt :=
  snd <$> List.filter (is_module_member has_overload_decorator)
            (scoped_stmts tree).

Definition too_many_decorators (options : Options) (s : ast.stmt) : bool :=
  len (ModuleMembersVisitor.decorator_list s) >? max_decorators options.

Definition decorators_violation (options : Options) (s : ast.stmt)
    : Violation :=
  mkViolation TooManyDecoratorsViolation (Some (ast.NStmt s))
    (str (len (ModuleMembersVisitor.decorator_list s)))
    (Some (max_decorators options)).

Definition module_members_violation (options : Options) (count : Z)
    : Violation :=
  mkViolation TooManyModuleMembersViolation None (str count)
    (Some (max_module_members options)).

(** Every handler of every [try] statement of a tree. *)
Definition handlers_in (tree : list ast.stmt) : list ast.excepthandler :=
  flat_map TryExceptVisitor.handlers_of (stmts_of tree).

Definition handler_type (h : ast.excepthandler) : option ast.expr :=
  match h with ast.ExceptHandler type _ _ => type end.

(** The handler's type is literally a tuple, of more elements than the
    option allows. *)
Definition too_many_exceptions (options : Options) (h : ast.excepthandler)
    : bool :=
  match handler_type h with
  | Some (ast.Tuple elts) => len elts >? max_except_exceptions options
  | _ => false
  end.

Definition tuple_elts (o : option ast.expr) : list ast.expr :=
  match o with Some (ast.Tuple elts) => elts | _ => [] end.

Definition exceptions_violation (options : Options) (h : ast.excepthandler)
    : Violation :=
  mkViolation TooManyExceptExceptionsViolation (Some (ast.NHandler h))
    (str (len (tuple_elts (handler_type h))))
    (Some (max_except_exceptions options)).

(** What [visit_any_try] emits before it checks the handlers' types. *)
Definition try_shape_violations (MAX_EXCEPT_CASES : Z) (options : Options)
    (node : ast.stmt) : list Violation :=
  TryExceptVisitor._check_finally_body_length options node
    (TryExceptVisitor._check_try_body_length options node
       (TryExceptVisitor._check_except_count MAX_EXCEPT_CASES node [])).

(** What [TryExceptVisitor] emits at one statement. *)
Definition try_violations (MAX_EXCEPT_CASES : Z) (options : Options)
    (s : ast.stmt) : list Violation :=
  if isinstance_Try s
  then try_shape_violations MAX_EXCEPT_CASES options s
       ++ (exceptions_violation options
             <$> List.filter (too_many_exceptions options)
                   (TryExceptVisitor.handlers_of s))
  else [].

(** ** Views of classes *)

(** What [ClassAttributeVisitor] emits at one statement. *)
Definition class_violations (s : ast.stmt) : list Violation :=
  if isinstance_ClassDef s
  then ClassAttributeVisitor._check_attributes_shadowing s []
  else [].

(** The violation carries [name] as its text. *)
Definition names (name : string) (v : Violation) : bool :=
  String.eqb (v_text v) name.

(** The control-flow statements, into whose blocks the class-level and
    instance-level scans descend. *)
Definition is_block (s : ast.stmt) : bool :=
  match s with
  | ast.For _ _ _ _ _ | ast.While _ _ _ _ | ast.If _ _ _ _ | ast.With _ _ _
  | ast.Try _ _ _ _ _ _ => true
  | _ => false
  end.

(** [reaches s t]: the statement [t] is [s], or lies in [s] below
    control-flow statements only. *)
Inductive reaches : ast.stmt → ast.stmt → Prop :=
| reaches_here s : reaches s s
| reaches_block s s' t :
    is_block s = true → s' ∈ children s → reaches s' t → reaches s t.

(** The statement binds the bare name [name] with a value. *)
Definition binds_with_value (name : string) (t : ast.stmt) : Prop :=
  (∃ n targets value,
     t = ast.Assign n targets value ∧ ast.Name name ∈ targets)
  ∨ (∃ n annotation value,
       t = ast.AnnAssign n (ast.Name name) annotation (Some value)).

(** The statement annotates the bare name [name] without a value. *)
Definition annotates_bare (name : string) (t : ast.stmt) : Prop :=
  ∃ n annotation, t = ast.AnnAssign n (ast.Name name) annotation None.

(** The statement assigns the attribute [name] of the name [this]. *)
Definition assigns_attribute (this name : string) (t : ast.stmt) : Prop :=
  (∃ n targets value,
     t = ast.Assign n targets value
     ∧ ast.Attribute (ast.Name this) name ∈ targets)
  ∨ (∃ n annotation value,
       t = ast.AnnAssign n (ast.Attribute (ast.Name this) name) annotation
             (Some value)).

(** Some statement at the class level of [node] satisfies [P]. *)
Definition at_class_level (node : ast.stmt) (P : ast.stmt → Prop) : Prop :=
  ∃ s t, s ∈ ClassAttributeVisitor.class_body node ∧ reaches s t ∧ P t.

(** Some statement in the body of a method declared directly under [node]
    satisfies [P this], where [this] is the first parameter of the
    method. *)
Definition in_method (node : ast.stmt) (P : string → ast.stmt → Prop)
    : Prop :=
  ∃ n is_async name this args body decorator_list s t,
    ast.FunctionDef n is_async name (this :: args) body decorator_list
    ∈ ClassAttributeVisitor.class_body node
    ∧ s ∈ body ∧ reaches s t ∧ P this t.

(** The exempting decorator, written bare or called. *)
Definition is_marker (decorator : ast.expr) : Prop :=
  decorator = ast.Name ClassAttributeVisitor.auto_initializer_marker
  ∨ ∃ args keywords,
      decorator
      = ast.Call (ast.Name ClassAttributeVisitor.auto_initializer_marker)
          args keywords.

(** A decorator of another name, bare or called, or a subscript. *)
Definition is_unrelated (decorator : ast.expr) : Prop :=
  (∃ id, decorator = ast.Name id
         ∧ id ≠ ClassAttributeVisitor.auto_initializer_marker)
  ∨ (∃ id args keywords,
       decorator = ast.Call (ast.Name id) args keywords
       ∧ id ≠ ClassAttributeVisitor.auto_initializer_marker)
  ∨ (∃ value slice, decorator = ast.Subscript value slice).

(** ** Views of conditionals *)

(** The statements of the subtree of a statement, in pre-order. *)
Fixpoint subtree (s : ast.stmt) : list ast.stmt :=
  s ::
  match s with
  | ast.FunctionDef _ _ _ _ body _ | ast.ClassDef _ _ _ body _
  | ast.With _ _ body => flat_map subtree body
  | ast.For _ _ _ body orelse | ast.While _ _ body orelse
  | ast.If _ _ body orelse =>
      flat_map subtree body ++ flat_map subtree orelse
  | ast.Try _ _ body handlers orelse finalbody =>
      flat_map subtree body
      ++ flat_map (λ h, flat_map subtree (handler_body h)) handlers
      ++ flat_map subtree orelse
      ++ flat_map subtree finalbody
  | _ => []
  end.

(** A conditional whose alternative branch consists entirely of
    conditionals (an absent branch included, as [all] of nothing holds). *)
Definition elif_step (s : ast.stmt) : bool :=
  ast.isinstance_If s
  && forallb ast.isinstance_If (ElifVisitor.orelse_of s).

(** The conditionals of the cascade below a conditional: those of its
    alternative branch, and below each of them in turn, as long as the
    alternative branches consist entirely of conditionals. *)
Fixpoint elif_nodes (s : ast.stmt) : list ast.stmt :=
  match s with
  | ast.If _ _ _ orelse =>
      if forallb ast.isinstance_If orelse
      then flat_map (λ o, o :: elif_nodes o) orelse
      else []
  | _ => []
  end.

(** What the visit of a conditional that already belongs to a cascade, and
    of the conditionals below it, adds to the list of the root. *)
Fixpoint members (s : ast.stmt) : list ast.stmt :=
  match s with
  | ast.If _ _ _ orelse =>
      if forallb ast.isinstance_If orelse
      then s :: orelse ++ flat_map members orelse
      else []
  | _ => []
  end.

(** The entries that the visit of a subtree adds to [_if_children]:
    [rooted] tells whether the statement already belongs to a cascade. *)
Fixpoint chains (rooted : bool) (s : ast.stmt)
    : list (ast.stmt * list ast.stmt) :=
  match s with
  | ast.If _ _ body orelse =>
      if forallb ast.isinstance_If orelse
      then (if rooted then []
            else [(s, orelse ++ flat_map members orelse)])
           ++ flat_map (chains false) body ++ flat_map (chains true) orelse
      else flat_map (chains false) body ++ flat_map (chains false) orelse
  | ast.FunctionDef _ _ _ _ body _ | ast.ClassDef _ _ _ body _
  | ast.With _ _ body => flat_map (chains false) body
  | ast.For _ _ _ body orelse | ast.While _ _ body orelse =>
      flat_map (chains false) body ++ flat_map (chains false) orelse
  | ast.Try _ _ body handlers orelse finalbody =>
      flat_map (chains false) body
      ++ flat_map (λ h, flat_map (chains false) (handler_body h)) handlers
      ++ flat_map (chains false) orelse
      ++ flat_map (chains false) finalbody
  | _ => []
  end.

(** The outermost conditionals of the cascades of a tree: the conditionals
    with an all-conditional alternative branch that are not themselves in
    the alternative branch of such a conditional. *)
Definition cascades (tree : list ast.stmt) : list ast.stmt :=
  fst <$> flat_map (chains false) tree.

(** [elif_chain N s]: the conditional [s] is followed by [N] nested
    [elif]s, the last of which has an [else] block with a statement that is
    no conditional. *)
Inductive elif_chain : nat → ast.stmt → Prop :=
| elif_chain_else n test body orelse :
    forallb ast.isinstance_If orelse = false →
    elif_chain 0 (ast.If n test body orelse)
| elif_chain_elif N n test body next :
    elif_chain N next →
    elif_chain (S N) (ast.If n test body [next]).

(** [visit_If] on the dictionary alone. *)
Definition check_stmt (d : list (ast.stmt * list ast.stmt)) (s : ast.stmt)
    : list (ast.stmt * list ast.stmt) :=
  if ast.isinstance_If s then ElifVisitor._check_elifs s d else d.

(** The identities of a list of statements, of the keys of a dictionary
    and of the members of its lists. *)
Definition ids (l : list ast.stmt) : list nat := ast.nid_of <$> l.

Definition keys (d : list (ast.stmt * list ast.stmt)) : list nat :=
  ids (fst <$> d).

Definition member_ids (d : list (ast.stmt * list ast.stmt)) : list nat :=
  flat_map (λ kv, ids (snd kv)) d.

(** [d[root]], without the insertion of a missing key. *)
Definition children_of (root : ast.stmt)
    (d : list (ast.stmt * list ast.stmt)) : option (list ast.stmt) :=
  snd <$> find (λ kv, ast.is_ (fst kv) root) d.

(** The violation of a cascade of [count] members. *)
Definition elifs_violation (MAX_ELIFS : Z) (root : ast.stmt) (count : Z)
    : Violation :=
  mkViolation TooManyElifsViolation (Some (ast.NStmt root)) (str count)
    (Some MAX_ELIFS).

(** The identities a dictionary mentions. *)
Definition mentions (d : list (ast.stmt * list ast.stmt)) (x : nat) : Prop :=
  x ∈ keys d ∨ x ∈ member_ids d.

(** No statement of [l] is mentioned in the dictionary. *)
Definition fresh (l : list ast.stmt) (d : list (ast.stmt * list ast.stmt))
    : Prop :=
  ∀ x, x ∈ ids l → ¬ (mentions d x).

(** The statements strictly below the statements of a list. *)
Definition below (ss : list ast.stmt) : list ast.stmt :=
  flat_map (λ s, flat_map subtree (children s)) ss.

(** The statement [s] belongs to the cascade of [r], which is the entry
    [(r, l)] of the dictionary [d1 ++ (r, l) :: d2]. *)
Definition rooted_at (s : ast.stmt) (d1 : list (ast.stmt * list ast.stmt))
    (r : ast.stmt) (l : list ast.stmt) : Prop :=
  (ast.nid_of s ∈ ids l) ∧ (ast.nid_of s ∉ member_ids d1)
  ∧ ast.nid_of s ≠ ast.nid_of r.

(** What [_post_visit] emits for one entry of [_if_children]. *)
Definition entry_violations (MAX_ELIFS : Z)
    (kv : ast.stmt * list ast.stmt) : list Violation :=
  if ElifVisitor.real_children_length (snd kv) >? MAX_ELIFS
  then [elifs_violation MAX_ELIFS (fst kv)
          (ElifVisitor.real_children_length (snd kv))]
  else [].

(** The property established for every statement [s]: the visit of its
    subtree extends the dictionary by the entries of [chains], and, when
    [s] belongs to a cascade, the list of the root by [members]. *)
Definition sweeps (s : ast.stmt) : Prop :=
  NoDup (ids (subtree s)) →
  (∀ d, fresh (subtree s) d →
        fold_left check_stmt (subtree s) d = d ++ chains false s)
  ∧ (∀ d1 r l d2,
       fresh (below [s]) (d1 ++ (r, l) :: d2) → rooted_at s d1 r l →
       ast.nid_of r ∉ keys d1 → ast.nid_of r ∉ keys d2 →
       fold_left check_stmt (subtree s) (d1 ++ (r, l) :: d2)
       = d1 ++ (r, l ++ members s) :: d2 ++ chains true s).

(** ** Views used by the further properties of [counts.py] *)

(** The expression that a node is, if any. *)
Definition expr_of (n : ast.node) : list ast.expr :=
  match n with ast.NExpr e => [e] | _ => [] end.

(** The expressions of a tree, in the order the walker meets them. *)
Definition exprs_of (tree : list ast.stmt) : list ast.expr :=
  flat_map expr_of (snd <$> nodes tree).

(** A boolean combination of more flattened operands than the limit. *)
Definition too_many_conditions (MAX_CONDITIONS : Z) (e : ast.expr) : bool :=
  ast.isinstance_BoolOp e && (len (flatten e) >? MAX_CONDITIONS).

Definition conditions_violation (MAX_CONDITIONS : Z) (e : ast.expr)
    : Violation :=
  mkViolation TooManyConditionsViolation (Some (ast.NExpr e))
    (str (len (flatten e))) (Some MAX_CONDITIONS).

Definition isinstance_Compare (e : ast.expr) : bool :=
  match e with ast.Compare _ _ _ => true | _ => false end.

(** A comparison of more operators than its threshold. *)
Definition too_long_compare (MAX_COMPARES : Z) (e : ast.expr) : bool :=
  isinstance_Compare e
  && (len (ConditionsVisitor.ops_of e) >? compare_threshold MAX_COMPARES e).

Definition compare_violation (MAX_COMPARES : Z) (e : ast.expr) : Violation :=
  mkViolation TooLongCompareViolation (Some (ast.NExpr e))
    (str (len (ConditionsVisitor.ops_of e)))
    (Some (compare_threshold MAX_COMPARES e)).

(** The equality operators [==] and [!=]. *)
Definition is_equality (op : ast.cmpop) : bool :=
  ast.isinstance_Eq op || ast.isinstance_NotEq op.

(** The three violations of the shape of a [try] statement. *)
Definition except_cases_violation (MAX_EXCEPT_CASES : Z) (s : ast.stmt)
    : Violation :=
  mkViolation TooManyExceptCasesViolation (Some (ast.NStmt s))
    (str (len (TryExceptVisitor.handlers_of s))) (Some MAX_EXCEPT_CASES).

Definition try_body_violation (options : Options) (s : ast.stmt) : Violation :=
  mkViolation TooLongTryBodyViolation (Some (ast.NStmt s))
    (str (len (TryExceptVisitor.body_of s)))
    (Some (max_try_body_length options)).

Definition finally_body_violation (options : Options) (s : ast.stmt)
    : Violation :=
  mkViolation TooLongFinallyBodyViolation (Some (ast.NStmt s))
    (str (len (TryExceptVisitor.finalbody_of s)))
    (Some (max_lines_in_finally options)).

(** The [try] statements of a tree, in pre-order. *)
Definition tries (tree : list ast.stmt) : list ast.stmt :=
  List.filter isinstance_Try (stmts_of tree).

Definition isinstance_Assign (s : ast.stmt) : bool :=
  match s with ast.Assign _ _ _ => true | _ => false end.

(** The assignments of a tree, in pre-order. *)
Definition assignments (tree : list ast.stmt) : list ast.stmt :=
  List.filter isinstance_Assign (stmts_of tree).

(** The elements of the first target of an assignment, when that target is
    literally a tuple. *)
Definition first_target_elts (s : ast.stmt) : option (list ast.expr) :=
  match TupleUnpackVisitor.targets_of s with
  | ast.Tuple elts :: _ => Some elts
  | _ => None
  end.

Definition too_long_unpack (max_tuple_unpack_length : Z) (s : ast.stmt)
    : bool :=
  match first_target_elts s with
  | Some elts => len elts >? max_tuple_unpack_length
  | None => false
  end.

Definition unpack_violation (max_tuple_unpack_length : Z) (s : ast.stmt)
    : TupleUnpackVisitor.violation :=
  TupleUnpackVisitor.TooLongTupleUnpackViolation (ast.NStmt s)
    (str (len (default [] (first_target_elts s)))) max_tuple_unpack_length.

(** The elements of the value of a [return] or [yield], when that value is
    literally a tuple. *)
Definition output_elts (n : ast.node) : option (list ast.expr) :=
  match ReturnLikeStatementTupleVisitor.value_of n with
  | Some (ast.Tuple elts) => Some elts
  | _ => None
  end.

Definition too_long_output (MAX_LEN_TUPLE_OUTPUT : Z) (n : ast.node) : bool :=
  match output_elts n with
  | Some elts => len elts >? MAX_LEN_TUPLE_OUTPUT
  | None => false
  end.

Definition output_violation (MAX_LEN_TUPLE_OUTPUT : Z) (n : ast.node)
    : ReturnLikeStatementTupleVisitor.violation :=
  ReturnLikeStatementTupleVisitor.TooLongOutputTupleViolation n
    (str (len (default [] (output_elts n)))) MAX_LEN_TUPLE_OUTPUT.

(** What the run of [ElifVisitor] reports for a cascade: its members are
    the conditionals below the outermost one. *)
Definition too_many_elifs (MAX_ELIFS : Z) (root : ast.stmt) : bool :=
  len (elif_nodes root) >? MAX_ELIFS.

Definition cascade_violation (MAX_ELIFS : Z) (root : ast.stmt) : Violation :=
  elifs_violation MAX_ELIFS root (len (elif_nodes root)).

(** What [ConditionsVisitor] emits at one expression. *)
Definition conditions_violations (MAX_CONDITIONS MAX_COMPARES : Z)
    (e : ast.expr) : list Violation :=
  (if too_many_conditions MAX_CONDITIONS e
   then [conditions_violation MAX_CONDITIONS e] else [])
  ++ (if too_long_compare MAX_COMPARES e
      then [compare_violation MAX_COMPARES e] else []).

(** An assignment without any target. *)
Definition no_target (s : ast.stmt) : bool :=
  match s with ast.Assign _ [] _ => true | _ => false end.

(** * Sample trees *)

(** [try: pass / except (A, B, C, D): pass / except E: pass / except: pass] *)
Definition sample_long_handler : ast.excepthandler :=
  ast.ExceptHandler
    (Some (ast.Tuple [ast.Name "A"; ast.Name "B"; ast.Name "C"; ast.Name "D"]))
    None [ast.Pass 2].

Definition sample_try : list ast.stmt :=
  [ast.Try 0 false [ast.Pass 1]
     [sample_long_handler;
      ast.ExceptHandler (Some (ast.Name "E")) None [ast.Pass 3];
      ast.ExceptHandler None None [ast.Pass 4]]
     [] []].

(** [max_decorators], [max_module_members], [max_try_body_length],
    [max_lines_in_finally], [max_except_exceptions] *)
Definition sample_options : Options := mkOptions 5 7 1 2 3.

(** The templates of [test_shadow_attributes.py]; [f0] and [f1] stand for
    the placeholders [{0}] and [{1}]. *)
Definition zero : ast.expr := ast.Constant (ast.CInt 0).
Definition two : ast.expr := ast.Constant (ast.CInt 2).

Definition assign_self (n : nat) (f1 : string) : ast.stmt :=
  ast.Assign n [ast.Attribute (ast.Name "self") f1] two.

Definition method (name : string) (body : list ast.stmt) : ast.stmt :=
  ast.FunctionDef 2 false name ["self"] body [].

Definition class_with_attrs (body : list ast.stmt)
    (decorator_list : list ast.expr) : ast.stmt :=
  ast.ClassDef 0 "ClassWithAttrs" [] body decorator_list.

Definition class_attribute (f0 f1 : string) : ast.stmt :=
  class_with_attrs
    [ast.Assign 1 [ast.Name f0] zero; method "__init__" [assign_self 3 f1]]
    [].

Definition class_annotated_attribute (f0 f1 : string) : ast.stmt :=
  class_with_attrs
    [ast.AnnAssign 1 (ast.Name f0) (ast.Name "int") (Some zero);
     method "__init__" [assign_self 3 f1]] [].

Definition class_attribute_logic (f0 f1 : string) : ast.stmt :=
  class_with_attrs
    [ast.If 4 (ast.Name "some_flag") [ast.Assign 1 [ast.Name f0] zero] [];
     method "__init__" [assign_self 3 f1]] [].

Definition class_attribute_runtime (f0 f1 : string) : ast.stmt :=
  class_with_attrs
    [ast.Assign 1 [ast.Name f0] zero;
     method "constructor" [assign_self 3 f1]] [].

Definition class_with_decorator (decorator : ast.expr) (f0 f1 : string)
    : ast.stmt :=
  class_with_attrs
    [ast.AnnAssign 1 (ast.Name f0) (ast.Name "int") (Some zero);
     method "__post_init__" [assign_self 3 f1]] [decorator].

Definition class_with_unrelated_decorator1 : string → string → ast.stmt :=
  class_with_decorator (ast.Name "not_a_dataclass").

Definition class_with_unrelated_decorator2 : string → string → ast.stmt :=
  class_with_decorator (ast.Subscript (ast.Name "not_dataclasses") zero).

Definition class_with_dataclass_decorator1 : string → string → ast.stmt :=
  class_with_decorator (ast.Name "dataclass").

Definition class_with_dataclass_decorator2 : string → string → ast.stmt :=
  class_with_decorator
    (ast.Call (ast.Name "dataclass") []
       [("slots", ast.Constant (ast.CBool true))]).

Definition class_annotation (f0 f1 : string) : ast.stmt :=
  class_with_attrs
    [ast.AnnAssign 1 (ast.Name f0) (ast.Name "int") None;
     method "__init__" [assign_self 3 f1]] [].

Definition class_attribute_usage (f0 f1 : string) : ast.stmt :=
  class_with_attrs
    [ast.Assign 1 [ast.Name f0] zero;
     method "print_field"
       [ast.Expr 3
          (ast.Call (ast.Name "print")
             [ast.Attribute (ast.Name "self") f1] [])]] [].

Definition class_attribute_regular_assign (f0 f1 : string) : ast.stmt :=
  class_with_attrs
    [method "constructor"
       [ast.Assign 1 [ast.Name f0] zero; assign_self 3 f1]] [].

Definition class_attribute_with_other (f0 f1 : string) : ast.stmt :=
  class_with_attrs
    [ast.Assign 1 [ast.Name f0] zero;
     method "constructor"
       [ast.Assign 4 [ast.Attribute (ast.Name "other") f0] zero;
        assign_self 3 f1]] [].

Definition class_complex_attribute (f0 f1 : string) : ast.stmt :=
  class_with_attrs
    [ast.Assign 1 [ast.Attribute (ast.Name "prefix") f0] zero;
     method "__init__" [assign_self 3 f1]] [].

Definition class_complex_attribute_annotated (f0 f1 : string) : ast.stmt :=
  class_with_attrs
    [ast.AnnAssign 1 (ast.Attribute (ast.Name "prefix") f0) (ast.Name "int")
       (Some zero);
     method "__init__" [assign_self 3 f1]] [].

Definition regular_assigns (f0 f1 : string) : list ast.stmt :=
  [ast.Assign 0 [ast.Name f0] zero; ast.Assign 1 [ast.Name f1] two].

Definition sample_class_attribute_logic : ast.stmt :=
  class_attribute_logic "field" "field".

Definition sample_class_annotation : ast.stmt :=
  class_annotation "field" "field".

Definition sample_dataclass : ast.stmt :=
  class_with_dataclass_decorator2 "field" "field".

Definition sample_not_dataclass : ast.stmt :=
  class_with_unrelated_decorator2 "field" "field".

(** [if a: .. elif b: .. elif c: .. elif d: .. elif e: .. else: ..],
    inside a function, with a nested conditional in the first body. *)
Definition sample_cascade : ast.stmt :=
  ast.If 1 (ast.Name "a")
    [ast.If 10 (ast.Name "x") [ast.Pass 11] []]
    [ast.If 2 (ast.Name "b") [ast.Pass 20]
       [ast.If 3 (ast.Name "c") [ast.Pass 30]
          [ast.If 4 (ast.Name "d") [ast.Pass 40]
             [ast.If 5 (ast.Name "e") [ast.Pass 50] [ast.Pass 60]]]]].

Definition sample_module : list ast.stmt :=
  [ast.FunctionDef 0 false "function" [] [sample_cascade] []].

(** The engine with no overload decorators and with the limits 4, 2, 3
    and 3 for conditions, compares, elifs and except cases. *)
Definition sample_engine
    : list Rule → list ast.stmt → store → list (list Violation) * store :=
  engine (λ _, false) 4 2 3 3 sample_options.

Definition sample_run_rule : list ast.stmt → Rule → list Violation :=
  run_rule (λ _, false) 4 2 3 3 sample_options.

Definition sample_program : list ast.stmt :=
  sample_module ++ sample_try ++ [sample_class_attribute_logic].

(** [first, second = pair] and [a, b, c = d = triple], then [x = 1] inside
    a function. *)
Definition sample_long_unpack : ast.stmt :=
  ast.Assign 1
    [ast.Tuple [ast.Name "a"; ast.Name "b"; ast.Name "c"]; ast.Name "d"]
    (ast.Name "triple").

Definition sample_unpack : list ast.stmt :=
  [ast.Assign 0 [ast.Tuple [ast.Name "first"; ast.Name "second"]]
     (ast.Name "pair");
   sample_long_unpack;
   ast.FunctionDef 2 false "function" []
     [ast.Assign 3 [ast.Name "x"] (ast.Constant (ast.CInt 1))] []].

(** * Properties *)

(** ** Induction over nodes *)

(** Induction on the statements directly below a statement. *)
Lemma stmt_children_ind (P : ast.stmt → Prop) :
  (∀ s, Forall P (children s) → P s) → ∀ s, P s.
Proof.
  intros step.
  apply (stmt_nested_ind P (λ h, Forall P (handler_body h)));
    intros; try (apply step; simpl; repeat apply Forall_app_2; done).
  - apply step; simpl. repeat apply Forall_app_2; try done.
    match goal with
    | H : Forall (λ h, Forall P (handler_body h)) _ |- _ =>
        clear -H; induction H
    end;
      simpl; [constructor | by apply Forall_app_2].
  - done.
Qed.

(** ** The walker visits the nodes of the tree in pre-order *)

Section walker_facts.
Context {S : Type} (on_node : context → ast.node → S → S).

Lemma visit_list_fold {A} (visit : A → S → S)
    (enum : A → list (context * ast.node)) xs :
  Forall (λ x, ∀ st, visit x st = fold_left (fire on_node) (enum x) st) xs →
  ∀ st, visit_list visit xs st = fold_left (fire on_node) (flat_map enum xs) st.
Proof.
  induction 1 as [|x xs Hx _ IH]; intros st; simpl; [done|].
  by rewrite fold_left_app, <- Hx, IH.
Qed.

Lemma visit_expr_nodes c e st :
  visit_expr on_node c e st = fold_left (fire on_node) (nodes_expr c e) st.
Proof.
  revert st. induction e using expr_nested_ind; intros st; simpl;
    rewrite ?fold_left_app;
    repeat match goal with
    | H : ∀ st, visit_expr _ _ ?e st = _ |- _ => rewrite <- H; clear H
    | H : Forall _ ?es |- context [flat_map _ ?es] =>
        rewrite <- (visit_list_fold _ _ es) by exact H; clear H
    end; done.
Qed.

Lemma visit_exprs_nodes c es st :
  visit_list (visit_expr on_node c) es st
  = fold_left (fire on_node) (flat_map (nodes_expr c) es) st.
Proof.
  apply visit_list_fold, Forall_forall. intros. apply visit_expr_nodes.
Qed.

Lemma visit_opt_expr_nodes c o st :
  visit_opt (visit_expr on_node c) o st
  = fold_left (fire on_node) (nodes_opt_expr c o) st.
Proof. destruct o; simpl; [apply visit_expr_nodes | done]. Qed.

Lemma visit_stmt_nodes s :
  ∀ c st, visit_stmt on_node c s st
          = fold_left (fire on_node) (nodes_stmt c s) st.
Proof.
  induction s using stmt_nested_ind with
    (Q := λ h, ∀ c st,
       visit_handler on_node c h st
       = fold_left (fire on_node) (nodes_handler c h) st);
    intros c st; simpl;
    rewrite ?fold_left_app, <- ?visit_exprs_nodes, <- ?visit_opt_expr_nodes,
      <- ?visit_expr_nodes;
    repeat match goal with
    | H : Forall _ ?ss |- context [fold_left _ (flat_map (_ ?c') ?ss)] =>
        rewrite <- (visit_list_fold _ (_ c') ss)
          by (eapply Forall_impl; [exact H | simpl; auto]);
        clear H
    end;
    rewrite <- ?visit_exprs_nodes, <- ?visit_opt_expr_nodes,
      <- ?visit_expr_nodes; done.
Qed.

Theorem visit_tree_nodes tree st :
  visit_tree on_node tree st = fold_left (fire on_node) (nodes tree) st.
Proof.
  apply visit_list_fold, Forall_forall. intros. apply visit_stmt_nodes.
Qed.

End walker_facts.

(** ** Visitors that only have statement methods *)

Section statement_visitors.
Context {S : Type} (on_node : context → ast.node → S → S).
Context (on_expr : ∀ c e st, on_node c (ast.NExpr e) st = st).
Context (on_handler : ∀ c h st, on_node c (ast.NHandler h) st = st).

Lemma fold_flat_map_id {A B} (f : S → B → S) (enum : A → list B) xs :
  Forall (λ x, ∀ st, fold_left f (enum x) st = st) xs →
  ∀ st, fold_left f (flat_map enum xs) st = st.
Proof.
  induction 1 as [|x xs Hx _ IH]; intros st; simpl; [done|].
  by rewrite fold_left_app, Hx, IH.
Qed.

Lemma fold_flat_map_eq {A B C} (f : S → B → S) (g : S → C → S)
    (enum : A → list B) (enum' : A → list C) xs :
  Forall (λ x, ∀ st, fold_left f (enum x) st = fold_left g (enum' x) st) xs →
  ∀ st, fold_left f (flat_map enum xs) st = fold_left g (flat_map enum' xs) st.
Proof.
  induction 1 as [|x xs Hx _ IH]; intros st; simpl; [done|].
  by rewrite !fold_left_app, Hx, IH.
Qed.

Lemma fire_expr c e st : fire on_node st (c, ast.NExpr e) = st.
Proof using on_expr. apply on_expr. Qed.

Lemma fire_handler c h st : fire on_node st (c, ast.NHandler h) = st.
Proof using on_handler. apply on_handler. Qed.

Lemma fire_fire_stmt c s st :
  fire on_node st (c, ast.NStmt s) = fire_stmt on_node st (c, s).
Proof. done. Qed.

Lemma fold_nodes_expr c e st :
  fold_left (fire on_node) (nodes_expr c e) st = st.
Proof using on_expr.
  revert st. induction e using expr_nested_ind; intros st; simpl;
    rewrite fire_expr, ?fold_left_app;
    repeat match goal with
    | H : ∀ st, fold_left _ (nodes_expr _ ?e) st = _ |- _ =>
        rewrite H; clear H
    | H : Forall _ ?es |- context [flat_map _ ?es] =>
        rewrite (fold_flat_map_id _ _ es) by exact H; clear H
    end; done.
Qed.

Lemma fold_nodes_exprs c es st :
  fold_left (fire on_node) (flat_map (nodes_expr c) es) st = st.
Proof using on_expr.
  apply fold_flat_map_id, Forall_forall. intros. apply fold_nodes_expr.
Qed.

Lemma fold_nodes_opt_expr c o st :
  fold_left (fire on_node) (nodes_opt_expr c o) st = st.
Proof using on_expr. destruct o; simpl; [apply fold_nodes_expr | done]. Qed.

Lemma fold_nodes_stmt s :
  ∀ c st, fold_left (fire on_node) (nodes_stmt c s) st
          = fold_left (fire_stmt on_node) (scoped_stmt c s) st.
Proof using on_expr on_handler.
  induction s using stmt_nested_ind with
    (Q := λ h, ∀ c st,
       fold_left (fire on_node) (nodes_handler c h) st
       = fold_left (fire_stmt on_node)
           (flat_map (scoped_stmt c) (handler_body h)) st);
    intros c st; simpl;
    rewrite ?fire_handler, ?fire_fire_stmt, ?fold_left_app, ?fold_nodes_exprs,
      ?fold_nodes_opt_expr, ?fold_nodes_expr;
    repeat match goal with
    | H : Forall _ ?ss |- context [fold_left (fire _) (flat_map (_ ?c') ?ss)] =>
        rewrite (fold_flat_map_eq (fire on_node) (fire_stmt on_node) _ _ ss)
          by (eapply Forall_impl; [exact H | simpl; auto]);
        clear H
    end;
    try match goal with
    | H : Forall _ ?hs |- context [flat_map (nodes_handler ?c') ?hs] =>
        rewrite (fold_flat_map_eq (fire on_node) (fire_stmt on_node)
                   (nodes_handler c')
                   (λ h, flat_map (scoped_stmt c') (handler_body h)) hs)
          by (eapply Forall_impl; [exact H | simpl; auto])
    end;
    rewrite ?fold_nodes_exprs, ?fold_nodes_opt_expr, ?fold_nodes_expr; done.
Qed.

(** A visitor with statement methods only folds them over the statements of
    the tree, in pre-order. *)
Theorem visit_tree_stmts tree st :
  visit_tree on_node tree st
  = fold_left (fire_stmt on_node) (scoped_stmts tree) st.
Proof using on_expr on_handler.
  rewrite visit_tree_nodes. apply fold_flat_map_eq, Forall_forall.
  intros. apply fold_nodes_stmt.
Qed.

End statement_visitors.

(** ** [ConditionsVisitor]: comparison chains and boolean conditions *)

Lemma forallb_isinstance_Eq ops :
  forallb ast.isinstance_Eq ops = true ↔ Forall (λ op, op = ast.Eq) ops.
Proof.
  rewrite forallb_forall, Forall_forall. unfold ast.isinstance_Eq.
  split; intros H op Hop; apply list_elem_of_In in Hop;
    specialize (H op Hop); by destruct op.
Qed.

Lemma forallb_isinstance_NotEq ops :
  forallb ast.isinstance_NotEq ops = true ↔ Forall (λ op, op = ast.NotEq) ops.
Proof.
  rewrite forallb_forall, Forall_forall. unfold ast.isinstance_NotEq.
  split; intros H op Hop; apply list_elem_of_In in Hop;
    specialize (H op Hop); by destruct op.
Qed.

Lemma mixed_not_uniform ops op : mixed ops → ¬ Forall (λ op', op' = op) ops.
Proof.
  intros (op1 & op2 & H1 & H2 & Hne) Hall.
  rewrite Forall_forall in Hall. apply Hne.
  by rewrite (Hall _ H1), (Hall _ H2).
Qed.

Lemma check_compares_threshold MAX_COMPARES node st :
  ConditionsVisitor._check_compares MAX_COMPARES node st
  = if len (ConditionsVisitor.ops_of node)
       >? compare_threshold MAX_COMPARES node
    then st ++ [mkViolation TooLongCompareViolation (Some (ast.NExpr node))
                  (str (len (ConditionsVisitor.ops_of node)))
                  (Some (compare_threshold MAX_COMPARES node))]
    else st.
Proof. done. Qed.

Lemma compare_threshold_uniform MAX_COMPARES lhs ops comparators :
  Forall (λ op, op = ast.Eq) ops ∨ Forall (λ op, op = ast.NotEq) ops →
  compare_threshold MAX_COMPARES
    (ast.Compare lhs ops comparators) = MAX_COMPARES + 1.
Proof.
  unfold compare_threshold; simpl.
  intros [H|H].
  - apply forallb_isinstance_Eq in H. rewrite H. by rewrite orb_true_r.
  - apply forallb_isinstance_NotEq in H. by rewrite H.
Qed.

Lemma compare_threshold_mixed MAX_COMPARES lhs ops comparators :
  mixed ops →
  compare_threshold MAX_COMPARES
    (ast.Compare lhs ops comparators) = MAX_COMPARES.
Proof.
  intros Hmixed. unfold compare_threshold; simpl.
  destruct (forallb ast.isinstance_NotEq ops) eqn:Hne.
  { apply forallb_isinstance_NotEq in Hne.
    by apply mixed_not_uniform with (op := ast.NotEq) in Hmixed. }
  destruct (forallb ast.isinstance_Eq ops) eqn:Heq; [|done].
  apply forallb_isinstance_Eq in Heq.
  by apply mixed_not_uniform with (op := ast.Eq) in Hmixed.
Qed.

(** C5.  A chained comparison whose operators are all [==], or all [!=],
    is checked against [MAX_COMPARES + 1]; a chain that mixes operator
    kinds is checked against [MAX_COMPARES] itself.  A violation, anchored
    at the comparison and carrying the operator count, is emitted exactly
    when the operator count exceeds that threshold: the equality-only chain
    is allowed one more step than the mixed chain. *)
Theorem compare_threshold_equality_chain_one_longer
    (MAX_COMPARES : Z) (lhs lhs' : ast.expr) (ops ops' : list ast.cmpop)
    (comparators comparators' : list ast.expr) (st : list Violation) :
  Forall (λ op, op = ast.Eq) ops ∨ Forall (λ op, op = ast.NotEq) ops →
  mixed ops' →
  let uniform := ast.Compare lhs ops comparators in
  let mixture := ast.Compare lhs' ops' comparators' in
  compare_threshold MAX_COMPARES uniform = MAX_COMPARES + 1
  ∧ compare_threshold MAX_COMPARES mixture = MAX_COMPARES
  ∧ ConditionsVisitor._check_compares MAX_COMPARES uniform st
    = (if len ops >? MAX_COMPARES + 1
       then st ++ [mkViolation TooLongCompareViolation
                     (Some (ast.NExpr uniform)) (str (len ops))
                     (Some (MAX_COMPARES + 1))]
       else st)
  ∧ ConditionsVisitor._check_compares MAX_COMPARES mixture st
    = (if len ops' >? MAX_COMPARES
       then st ++ [mkViolation TooLongCompareViolation
                     (Some (ast.NExpr mixture)) (str (len ops'))
                     (Some MAX_COMPARES)]
       else st).
Proof.
  intros Huniform Hmixed uniform mixture.
  rewrite !check_compares_threshold.
  rewrite (compare_threshold_uniform _ lhs ops comparators Huniform).
  rewrite (compare_threshold_mixed _ lhs' ops' comparators' Hmixed).
  done.
Qed.

(** [a == b == c == d] against [a == b < c == d], with the limit at 2. *)
Lemma compare_threshold_equality_chain_one_longer_witness :
  ConditionsVisitor._check_compares 2
    (ast.Compare (ast.Name "a") [ast.Eq; ast.Eq; ast.Eq]
       [ast.Name "b"; ast.Name "c"; ast.Name "d"]) [] = []
  ∧ ConditionsVisitor._check_compares 2
      (ast.Compare (ast.Name "a") [ast.Eq; ast.Lt; ast.Eq]
         [ast.Name "b"; ast.Name "c"; ast.Name "d"]) []
    = [mkViolation TooLongCompareViolation
         (Some (ast.NExpr
            (ast.Compare (ast.Name "a") [ast.Eq; ast.Lt; ast.Eq]
               [ast.Name "b"; ast.Name "c"; ast.Name "d"])))
         "3" (Some 2)].
Proof.
  assert (Huniform : Forall (λ op, op = ast.Eq) [ast.Eq; ast.Eq; ast.Eq]
                     ∨ Forall (λ op, op = ast.NotEq) [ast.Eq; ast.Eq; ast.Eq]).
  { left. repeat constructor. }
  assert (Hmixed : mixed [ast.Eq; ast.Lt; ast.Eq]).
  { exists ast.Eq, ast.Lt. repeat split; [repeat constructor.. | done]. }
  destruct (compare_threshold_equality_chain_one_longer 2
              (ast.Name "a") (ast.Name "a") _ _
              [ast.Name "b"; ast.Name "c"; ast.Name "d"]
              [ast.Name "b"; ast.Name "c"; ast.Name "d"] [] Huniform Hmixed)
    as (_ & _ & H1 & H2).
  split; [exact H1 | exact H2].
Defined.

Lemma count_conditions_shift es (acc : Z) :
  fold_left
    (λ counter condition,
       if ast.isinstance_BoolOp condition
       then counter + ConditionsVisitor._count_conditions condition
       else counter + 1) es acc
  = acc + ConditionsVisitor._count_conditions (ast.BoolOp ast.And es).
Proof.
  simpl. revert acc. induction es as [|e es IH]; intros acc; simpl; [lia|].
  destruct (ast.isinstance_BoolOp e).
  - rewrite (IH (acc + _)), (IH (0 + _)). lia.
  - rewrite (IH (acc + 1)), (IH (0 + 1)). lia.
Qed.

Lemma flatten_leaf e : ast.isinstance_BoolOp e = false → flatten e = [e].
Proof. by destruct e. Qed.

Lemma count_conditions_flatten e :
  ast.isinstance_BoolOp e = true →
  ConditionsVisitor._count_conditions e = len (flatten e).
Proof.
  induction e using expr_nested_ind; try done. intros _. simpl.
  induction H as [|v values Hv _ IH]; [done|]. simpl.
  rewrite count_conditions_shift. simpl in IH |- *. rewrite IH.
  unfold len. rewrite length_app, Nat2Z.inj_add.
  destruct (ast.isinstance_BoolOp v) eqn:Hk.
  - rewrite Hv by done. unfold len. lia.
  - rewrite flatten_leaf by done. simpl. lia.
Qed.

Lemma flatten_leaves e :
  Forall (λ leaf, ast.isinstance_BoolOp leaf = false) (flatten e).
Proof.
  induction e using expr_nested_ind; simpl; try by repeat constructor.
  induction H as [|v values Hv _ IH]; simpl; [constructor|].
  by apply Forall_app_2.
Qed.

(** C6.  The count of a boolean combination is the number of its leaf
    operands once the nested boolean combinations are flattened into it.
    The recursion only enters operands that are boolean combinations
    themselves: an operand of any other node type counts as one and is not
    looked into.  The leaf operands of a nested combination count one each,
    also when the nested combination has the other operator.  A violation
    anchored at the combination and carrying the count is emitted exactly
    when the count exceeds [MAX_CONDITIONS]. *)
Theorem count_conditions_flattened_leaves
    (MAX_CONDITIONS : Z) (op op' : ast.boolop) (values nested : list ast.expr)
    (operand : ast.expr) (st : list Violation) :
  let node := ast.BoolOp op values in
  ConditionsVisitor._count_conditions node = len (flatten node)
  ∧ flatten node = flat_map flatten values
  ∧ Forall (λ leaf, ast.isinstance_BoolOp leaf = false) (flatten node)
  ∧ ConditionsVisitor._count_conditions
      (ast.BoolOp op (ast.BoolOp op' nested :: values))
    = len (flatten (ast.BoolOp op' nested)) + len (flatten node)
  ∧ ConditionsVisitor._count_conditions
      (ast.BoolOp op (ast.UnaryOp ast.Not operand :: values))
    = 1 + len (flatten node)
  ∧ ConditionsVisitor._check_conditions MAX_CONDITIONS node st
    = (if len (flatten node) >? MAX_CONDITIONS
       then st ++ [mkViolation TooManyConditionsViolation
                     (Some (ast.NExpr node)) (str (len (flatten node)))
                     (Some MAX_CONDITIONS)]
       else st).
Proof.
  intros node. split_and!.
  - by apply count_conditions_flatten.
  - done.
  - apply flatten_leaves.
  - rewrite count_conditions_flatten by done. unfold node, len.
    cbn [flatten flat_map]. rewrite length_app. lia.
  - rewrite count_conditions_flatten by done. unfold node, len.
    cbn [flatten flat_map]. rewrite length_app. simpl. lia.
  - unfold ConditionsVisitor._check_conditions.
    by rewrite (count_conditions_flatten node).
Qed.

(** [a and (b or c) and not (d or e)] has four conditions: the operands of
    the nested [or] count one each, the negation counts as one. *)
Example count_conditions_mixed_operators :
  ConditionsVisitor._count_conditions
    (ast.BoolOp ast.And
       [ast.Name "a";
        ast.BoolOp ast.Or [ast.Name "b"; ast.Name "c"];
        ast.UnaryOp ast.Not
          (ast.BoolOp ast.Or [ast.Name "d"; ast.Name "e"])]) = 4.
Proof. reflexivity. Qed.

(** ** Visitors that only append violations *)

Lemma fold_left_append {A B} (f : list A → B → list A) (emit : B → list A) l :
  (∀ st x, f st x = st ++ emit x) →
  ∀ st, fold_left f l st = st ++ flat_map emit l.
Proof.
  intros Hf. induction l as [|x l IH]; intros st; simpl.
  - by rewrite app_nil_r.
  - by rewrite IH, Hf, <- app_assoc.
Qed.

Lemma filter_flat_map {A B} (p : B → bool) (f : A → list B) l :
  List.filter p (flat_map f l) = flat_map (λ x, List.filter p (f x)) l.
Proof.
  induction l as [|x l IH]; simpl; [done|]. by rewrite List.filter_app, IH.
Qed.

Lemma flat_map_singleton_if {A B} (p : A → bool) (f : A → B) l :
  flat_map (λ x, if p x then [f x] else []) l = f <$> List.filter p l.
Proof.
  induction l as [|x l IH]; simpl; [done|].
  rewrite IH. by destruct (p x).
Qed.


Lemma filter_none {A} (p : A → bool) (l : list A) :
  (∀ x, x ∈ l → p x = false) → List.filter p l = [].
Proof.
  induction l as [|x l IH]; intros H; simpl; [done|].
  rewrite (H x) by left. apply IH. intros y Hy. apply H. by right.
Qed.

Lemma flat_map_fmap {A B C} (f : A → B) (g : B → list C) l :
  flat_map g (f <$> l) = flat_map (λ x, g (f x)) l.
Proof. induction l as [|x l IH]; csimpl; [done|]. by rewrite IH. Qed.

Lemma filter_andb {A} (p q : A → bool) l :
  List.filter (λ x, p x && q x) l = List.filter q (List.filter p l).
Proof.
  induction l as [|x l IH]; [done|]. simpl.
  destruct (p x); simpl; [|done]. destruct (q x); by rewrite IH.
Qed.

Lemma flat_map_ext_eq {A B} (f g : A → list B) l :
  (∀ x, f x = g x) → flat_map f l = flat_map g l.
Proof.
  intros H. induction l as [|x l IH]; simpl; [done|]. by rewrite H, IH.
Qed.

(** ** [ModuleMembersVisitor]: module members and decorators *)

Section module_members.
Context (has_overload_decorator : ast.stmt → bool) (options : Options).

Local Abbreviation visit :=
  (ModuleMembersVisitor.visit has_overload_decorator options).
Local Abbreviation walk :=
  (ModuleMembersVisitor.walk has_overload_decorator options).
Local Abbreviation run :=
  (ModuleMembersVisitor.run has_overload_decorator options).

Lemma module_members_step_violations c s st :
  ModuleMembersVisitor.violations (fire_stmt visit st (c, s))
  = ModuleMembersVisitor.violations st
    ++ (if is_declaration s && too_many_decorators options s
        then [decorators_violation options s] else []).
Proof.
  unfold fire_stmt, too_many_decorators, decorators_violation.
  destruct s; simpl; rewrite ?app_nil_r; try done;
    unfold ModuleMembersVisitor.visit_module_members,
      ModuleMembersVisitor._check_members_count,
      ModuleMembersVisitor._check_decorators_count; simpl;
    repeat (case_match; simpl; rewrite ?app_nil_r; try done).
Qed.

Lemma module_members_step_count c s st :
  ModuleMembersVisitor._public_items_count (fire_stmt visit st (c, s))
  = ModuleMembersVisitor._public_items_count st
    + (if is_module_member has_overload_decorator (c, s) then 1 else 0).
Proof.
  unfold fire_stmt, is_module_member.
  destruct s; simpl; rewrite ?andb_false_r, ?Z.add_0_r; try done;
    unfold ModuleMembersVisitor.visit_module_members,
      ModuleMembersVisitor._check_members_count,
      ModuleMembersVisitor._check_decorators_count; simpl;
    destruct c; simpl; rewrite ?Z.add_0_r;
    repeat (case_match; simpl; rewrite ?Z.add_0_r; try done).
Qed.

Lemma module_members_fold_violations l st :
  ModuleMembersVisitor.violations (fold_left (fire_stmt visit) l st)
  = ModuleMembersVisitor.violations st
    ++ (decorators_violation options
          <$> List.filter (too_many_decorators options)
                (List.filter is_declaration (snd <$> l))).
Proof.
  revert st. induction l as [|[c s] l IH]; intros st; csimpl.
  - by rewrite app_nil_r.
  - rewrite IH, module_members_step_violations, <- app_assoc. f_equal.
    destruct (is_declaration s); simpl; [|done].
    by destruct (too_many_decorators options s).
Qed.

Lemma module_members_fold_count l st :
  ModuleMembersVisitor._public_items_count (fold_left (fire_stmt visit) l st)
  = ModuleMembersVisitor._public_items_count st
    + len (List.filter (is_module_member has_overload_decorator) l).
Proof.
  revert st. induction l as [|[c s] l IH]; intros st; simpl.
  - unfold len. simpl. lia.
  - rewrite IH, module_members_step_count.
    destruct (is_module_member has_overload_decorator (c, s));
      unfold len; simpl; lia.
Qed.

Lemma module_members_walk tree :
  walk tree = fold_left (fire_stmt visit) (scoped_stmts tree)
                ModuleMembersVisitor.__init__.
Proof. unfold ModuleMembersVisitor.walk. by apply visit_tree_stmts. Qed.

Lemma module_members_walk_count tree :
  ModuleMembersVisitor._public_items_count (walk tree)
  = len (module_members has_overload_decorator tree).
Proof.
  rewrite module_members_walk, module_members_fold_count. simpl.
  unfold module_members, len. by rewrite length_fmap.
Qed.

Lemma module_members_walk_violations tree :
  ModuleMembersVisitor.violations (walk tree)
  = decorators_violation options
      <$> List.filter (too_many_decorators options) (declarations tree).
Proof. by rewrite module_members_walk, module_members_fold_violations. Qed.

Lemma module_members_run tree :
  run tree
  = ModuleMembersVisitor.violations (walk tree)
    ++ (if len (module_members has_overload_decorator tree)
           >? max_module_members options
        then [module_members_violation options
                (len (module_members has_overload_decorator tree))]
        else []).
Proof.
  unfold ModuleMembersVisitor.run, ModuleMembersVisitor._post_visit.
  rewrite module_members_walk_count.
  case_match; simpl; [done | by rewrite app_nil_r].
Qed.

End module_members.

(** C7.  The counter of the module-members rule ends as the number of class
    and function declarations whose context is the module, function
    declarations with the overload decorator apart.  No module-members
    violation is emitted during the traversal; [_post_visit] appends exactly
    one, carrying the count, when the count exceeds [max_module_members],
    and none otherwise. *)
Theorem module_members_counted_and_checked_once
    (has_overload_decorator : ast.stmt → bool) (options : Options)
    (tree : list ast.stmt) :
  let final := ModuleMembersVisitor.walk has_overload_decorator options tree in
  let count := len (module_members has_overload_decorator tree) in
  ModuleMembersVisitor._public_items_count final = count
  ∧ Forall (λ v, v_class v ≠ TooManyModuleMembersViolation)
      (ModuleMembersVisitor.violations final)
  ∧ ModuleMembersVisitor.run has_overload_decorator options tree
    = ModuleMembersVisitor.violations final
      ++ (if count >? max_module_members options
          then [module_members_violation options count] else []).
Proof.
  intros final count. split_and!.
  - apply module_members_walk_count.
  - unfold final. rewrite module_members_walk_violations.
    apply Forall_fmap, Forall_forall. by intros.
  - apply module_members_run.
Qed.

(** C10.  The decorator check fires at every class and function declaration
    of the tree, whatever its context: the violations of the traversal are,
    in pre-order, one for each declaration with more decorators than
    [max_decorators], anchored at the declaration and carrying the number of
    its decorators.  The member counter, by contrast, is bounded by the
    declarations whose context is the module. *)
Theorem decorators_checked_in_every_context
    (has_overload_decorator : ast.stmt → bool) (options : Options)
    (tree : list ast.stmt) :
  List.filter (has_class TooManyDecoratorsViolation)
    (ModuleMembersVisitor.run has_overload_decorator options tree)
  = decorators_violation options
      <$> List.filter (too_many_decorators options) (declarations tree)
  ∧ ModuleMembersVisitor._public_items_count
      (ModuleMembersVisitor.walk has_overload_decorator options tree)
    = len (List.filter
             (λ cs, negb (ModuleMembersVisitor.isinstance_FunctionNodes (snd cs)
                          && has_overload_decorator (snd cs)))
             (List.filter (λ cs, is_declaration (snd cs))
                (List.filter (λ cs, isinstance_Module (fst cs))
                   (scoped_stmts tree)))).
Proof.
  split.
  - rewrite module_members_run, module_members_walk_violations.
    rewrite List.filter_app.
    match goal with
    | |- _ ++ ?tail = _ => replace tail with (@nil Violation) by (by case_match)
    end.
    rewrite app_nil_r. apply forallb_filter_id, forallb_forall.
    intros v Hv. apply list_elem_of_In, list_elem_of_fmap in Hv.
    by destruct Hv as (s & -> & _).
  - rewrite module_members_walk_count. unfold module_members, len.
    rewrite length_fmap. do 2 f_equal.
    induction (scoped_stmts tree) as [|[c s] l IH]; simpl; [done|].
    unfold is_module_member at 1. simpl.
    destruct (isinstance_Module c); simpl; [|done].
    destruct (is_declaration s); simpl; [|done].
    case_match; simpl; by rewrite IH.
Qed.

(** A method with two decorators is flagged although it is no module
    member: the count stays at one, for the class. *)
Example decorators_checked_on_method :
  let method :=
    ast.FunctionDef 1 false "method" ["self"] [ast.Pass 2]
      [ast.Name "first"; ast.Name "second"] in
  let tree := [ast.ClassDef 0 "Some" [] [method] []] in
  let options := mkOptions 1 7 1 2 3 in
  ModuleMembersVisitor.run (λ _, false) options tree
  = [mkViolation TooManyDecoratorsViolation (Some (ast.NStmt method))
       "2" (Some 1)]
  ∧ ModuleMembersVisitor._public_items_count
      (ModuleMembersVisitor.walk (λ _, false) options tree) = 1.
Proof. by vm_compute. Qed.

(** ** [TryExceptVisitor]: the exceptions of a handler *)

Section try_except.
Context (MAX_EXCEPT_CASES : Z) (options : Options).

Local Abbreviation visit :=
  (TryExceptVisitor.visit MAX_EXCEPT_CASES options).
Local Abbreviation try_shape_violations :=
  (try_shape_violations MAX_EXCEPT_CASES options).
Local Abbreviation try_violations :=
  (try_violations MAX_EXCEPT_CASES options).

Lemma check_handler_append st h :
  TryExceptVisitor.check_handler options st h
  = st ++ (if too_many_exceptions options h
           then [exceptions_violation options h] else []).
Proof.
  destruct h as [[[]|] name body]; simpl; rewrite ?app_nil_r; try done.
  unfold too_many_exceptions, exceptions_violation; simpl.
  case_match; [done | by rewrite app_nil_r].
Qed.

Lemma check_exceptions_count_append node st :
  TryExceptVisitor._check_exceptions_count options node st
  = st ++ (exceptions_violation options
             <$> List.filter (too_many_exceptions options)
                   (TryExceptVisitor.handlers_of node)).
Proof.
  unfold TryExceptVisitor._check_exceptions_count.
  rewrite (fold_left_append _ _ _ check_handler_append).
  by rewrite flat_map_singleton_if.
Qed.

Lemma try_shape_violations_class node :
  Forall (λ v, v_class v ≠ TooManyExceptExceptionsViolation)
    (try_shape_violations node).
Proof.
  unfold try_shape_violations, TryExceptVisitor._check_finally_body_length,
    TryExceptVisitor._check_try_body_length,
    TryExceptVisitor._check_except_count, TryExceptVisitor.add_violation.
  repeat case_match; simpl; repeat constructor; done.
Qed.

Lemma visit_any_try_append node st :
  TryExceptVisitor.visit_any_try MAX_EXCEPT_CASES options node st
  = st ++ try_shape_violations node
       ++ (exceptions_violation options
             <$> List.filter (too_many_exceptions options)
                   (TryExceptVisitor.handlers_of node)).
Proof.
  unfold TryExceptVisitor.visit_any_try.
  rewrite check_exceptions_count_append, app_assoc. f_equal.
  unfold try_shape_violations, TryExceptVisitor._check_finally_body_length,
    TryExceptVisitor._check_try_body_length,
    TryExceptVisitor._check_except_count, TryExceptVisitor.add_violation.
  repeat case_match; simpl; rewrite <- ?app_assoc, ?app_nil_r; done.
Qed.

Lemma try_except_step st cs :
  fire_stmt visit st cs = st ++ try_violations (snd cs).
Proof.
  destruct cs as [c s]. unfold fire_stmt, try_violations.
  destruct s; simpl; rewrite ?app_nil_r; try done.
  apply visit_any_try_append.
Qed.

Lemma try_except_run tree :
  TryExceptVisitor.run MAX_EXCEPT_CASES options tree
  = flat_map try_violations (stmts_of tree).
Proof.
  unfold TryExceptVisitor.run.
  rewrite (visit_tree_stmts visit) by done.
  rewrite (fold_left_append _ _ _ try_except_step). simpl.
  unfold stmts_of. by rewrite flat_map_fmap.
Qed.

Lemma try_except_run_exceptions tree :
  List.filter (has_class TooManyExceptExceptionsViolation)
    (TryExceptVisitor.run MAX_EXCEPT_CASES options tree)
  = exceptions_violation options
      <$> List.filter (too_many_exceptions options) (handlers_in tree).
Proof.
  rewrite try_except_run, filter_flat_map. unfold handlers_in.
  induction (stmts_of tree) as [|s l IH]; [done|]. simpl.
  rewrite List.filter_app, fmap_app, <- IH. f_equal.
  unfold try_violations. destruct (isinstance_Try s) eqn:Htry.
  - rewrite List.filter_app.
    rewrite filter_none; simpl.
    + apply forallb_filter_id, forallb_forall.
      intros v Hv. apply list_elem_of_In, list_elem_of_fmap in Hv.
      by destruct Hv as (h & -> & _).
    + intros v Hv.
      pose proof (try_shape_violations_class s) as Hclass.
      rewrite Forall_forall in Hclass. specialize (Hclass v Hv).
      unfold has_class. by apply bool_decide_eq_false.
  - by destruct s.
Qed.

End try_except.

Lemma too_many_exceptions_tuple options h :
  too_many_exceptions options h = true
  ↔ ∃ elts, handler_type h = Some (ast.Tuple elts)
            ∧ max_except_exceptions options < len elts.
Proof.
  unfold too_many_exceptions. split.
  - repeat case_match; try done. intros Hgt. eexists. split; [done|]. lia.
  - intros (elts & -> & Hlt). lia.
Qed.

(** C8.  For every handler of every [try] statement of the tree: the
    visitor emits a too-many-exceptions violation anchored at the handler
    exactly when the handler's type is literally a tuple with more elements
    than [max_except_exceptions], and the violation carries the number of
    elements.  A handler without a type, or with a type of any other shape,
    yields none; the check is a total function of the tree. *)
Theorem except_exceptions_flagged_iff_long_tuple
    (MAX_EXCEPT_CASES : Z) (options : Options) (tree : list ast.stmt)
    (h : ast.excepthandler) :
  h ∈ handlers_in tree →
  let emitted := TryExceptVisitor.run MAX_EXCEPT_CASES options tree in
  List.filter (has_class TooManyExceptExceptionsViolation) emitted
  = exceptions_violation options
      <$> List.filter (too_many_exceptions options) (handlers_in tree)
  ∧ ((∃ v, v ∈ emitted ∧ v_class v = TooManyExceptExceptionsViolation
           ∧ v_node v = Some (ast.NHandler h))
     ↔ ∃ elts, handler_type h = Some (ast.Tuple elts)
               ∧ max_except_exceptions options < len elts)
  ∧ (∀ v, v ∈ emitted → v_class v = TooManyExceptExceptionsViolation →
          v_node v = Some (ast.NHandler h) →
          ∃ elts, handler_type h = Some (ast.Tuple elts)
                  ∧ v_text v = str (len elts)
                  ∧ v_baseline v = Some (max_except_exceptions options)).
Proof.
  intros Hh emitted.
  pose proof (try_except_run_exceptions MAX_EXCEPT_CASES options tree) as Hrun.
  fold emitted in Hrun.
  assert (Hin : ∀ v, (v ∈ emitted
                      ∧ v_class v = TooManyExceptExceptionsViolation)
                     ↔ ∃ h', h' ∈ handlers_in tree
                             ∧ too_many_exceptions options h' = true
                             ∧ v = exceptions_violation options h').
  { intros v.
    transitivity
      (v ∈ List.filter (has_class TooManyExceptExceptionsViolation) emitted).
    - rewrite !list_elem_of_In, List.filter_In. unfold has_class.
      by rewrite bool_decide_eq_true.
    - rewrite Hrun, list_elem_of_fmap. split.
      + intros (h' & -> & Hh'). exists h'.
        apply list_elem_of_In, List.filter_In in Hh' as [Hh' Htoo].
        by rewrite list_elem_of_In.
      + intros (h' & Hh' & Htoo & ->). exists h'. split; [done|].
        apply list_elem_of_In, List.filter_In. by rewrite <- list_elem_of_In. }
  split_and!.
  - exact Hrun.
  - rewrite <- too_many_exceptions_tuple. split.
    + intros (v & Hv & Hclass & Hnode).
      destruct (proj1 (Hin v) (conj Hv Hclass)) as (h' & _ & Htoo & ->).
      simpl in Hnode. by simplify_eq.
    + intros Htoo. exists (exceptions_violation options h).
      destruct (proj2 (Hin (exceptions_violation options h))) as [Hv Hclass];
        [by exists h | done].
  - intros v Hv Hclass Hnode.
    destruct (proj1 (Hin v) (conj Hv Hclass)) as (h' & _ & Htoo & ->).
    simpl in Hnode. simplify_eq.
    apply too_many_exceptions_tuple in Htoo as (elts & Htype & _).
    exists elts. unfold exceptions_violation. by rewrite Htype.
Qed.

Lemma except_exceptions_flagged_iff_long_tuple_witness :
  List.filter (has_class TooManyExceptExceptionsViolation)
    (TryExceptVisitor.run 3 sample_options sample_try)
  = [mkViolation TooManyExceptExceptionsViolation
       (Some (ast.NHandler sample_long_handler)) "4" (Some 3)].
Proof.
  assert (Hh : sample_long_handler ∈ handlers_in sample_try) by left.
  destruct (except_exceptions_flagged_iff_long_tuple 3 sample_options
              sample_try sample_long_handler Hh) as [Hrun _].
  rewrite Hrun. reflexivity.
Defined.

(** ** [ClassAttributeVisitor]: shadowed class attributes *)

Lemma check_attributes_shadowing_append node st :
  ClassAttributeVisitor._check_attributes_shadowing node st
  = st ++ (if ClassAttributeVisitor.is_exempt node then []
           else ClassAttributeVisitor.shadow_violation node
                  <$> elements (ClassAttributeVisitor.DeclaredWithValue node
                                ∩ ClassAttributeVisitor.InstanceAssigned node)).
Proof.
  unfold ClassAttributeVisitor._check_attributes_shadowing.
  destruct (ClassAttributeVisitor.is_exempt node); [by rewrite app_nil_r|].
  rewrite (fold_left_append _
             (λ name, [ClassAttributeVisitor.shadow_violation node name]))
    by done.
  by f_equal.
Qed.

Lemma class_attribute_step st cs :
  fire_stmt ClassAttributeVisitor.visit st cs
  = st ++ class_violations (snd cs).
Proof.
  destruct cs as [c s]. unfold fire_stmt, class_violations.
  destruct s; simpl; rewrite ?app_nil_r; try done.
  by rewrite check_attributes_shadowing_append,
    (check_attributes_shadowing_append _ []).
Qed.

(** The visitor runs the check on every class of the tree, in pre-order. *)
Lemma class_attribute_run tree :
  ClassAttributeVisitor.run tree = flat_map class_violations (stmts_of tree).
Proof.
  unfold ClassAttributeVisitor.run.
  rewrite (visit_tree_stmts ClassAttributeVisitor.visit) by done.
  rewrite (fold_left_append _ _ _ class_attribute_step). simpl.
  unfold stmts_of. by rewrite flat_map_fmap.
Qed.

Lemma class_violations_in_run tree node v :
  node ∈ stmts_of tree → v ∈ class_violations node →
  v ∈ ClassAttributeVisitor.run tree.
Proof.
  rewrite class_attribute_run, !list_elem_of_In, in_flat_map.
  intros Hnode Hv. by exists node.
Qed.

Lemma elem_of_union_list_fmap {A} (f : A → gset string) l name :
  name ∈ ⋃ (f <$> l) ↔ ∃ x, x ∈ l ∧ name ∈ f x.
Proof.
  rewrite elem_of_union_list. split.
  - intros (X & (x & -> & Hx)%list_elem_of_fmap & Hname). by exists x.
  - intros (x & Hx & Hname). exists (f x).
    split; [by apply list_elem_of_fmap_2 | done].
Qed.

Lemma union_list_flat_map {A} (f : ast.stmt → gset string)
    (g : A → list ast.stmt) l :
  ⋃ ((λ x, ⋃ (f <$> g x)) <$> l) = ⋃ (f <$> flat_map g l).
Proof.
  induction l as [|x l IH]; csimpl; [done|].
  by rewrite fmap_app, union_list_app_L, IH.
Qed.

Lemma through_blocks_block leaf s :
  is_block s = true →
  ClassAttributeVisitor.through_blocks leaf s
  = ⋃ (ClassAttributeVisitor.through_blocks leaf <$> children s).
Proof.
  destruct s; try done; intros _; simpl;
    by rewrite ?fmap_app, ?union_list_app_L, ?union_list_flat_map,
      ?(assoc_L (∪)).
Qed.

Lemma through_blocks_leaf leaf s :
  is_block s = false → ClassAttributeVisitor.through_blocks leaf s = leaf s.
Proof. by destruct s. Qed.

(** The recursion through the control-flow blocks collects what [leaf]
    finds at the statements reached. *)
Lemma through_blocks_reaches leaf s name :
  name ∈ ClassAttributeVisitor.through_blocks leaf s
  ↔ ∃ t, reaches s t ∧ is_block t = false ∧ name ∈ leaf t.
Proof.
  split.
  - induction s as [s IH] using stmt_children_ind.
    destruct (is_block s) eqn:Hblock.
    + rewrite through_blocks_block, elem_of_union_list_fmap by done.
      intros (s' & Hs' & Hname). rewrite Forall_forall in IH.
      destruct (IH s' Hs' Hname) as (t & Hreach & Ht).
      exists t. split; [by apply (reaches_block s s') | done].
    + rewrite through_blocks_leaf by done. intros Hname.
      exists s. split; [apply reaches_here | done].
  - intros (t & Hreach & Hleaf & Hname).
    induction Hreach as [t|s s' t Hblock Hs' _ IH].
    + by rewrite through_blocks_leaf.
    + rewrite through_blocks_block, elem_of_union_list_fmap by done.
      exists s'. auto.
Qed.

Lemma bare_name_spec target name :
  name ∈ ClassAttributeVisitor.bare_name target ↔ target = ast.Name name.
Proof.
  destruct target; simpl; rewrite ?elem_of_singleton, ?elem_of_empty;
    naive_solver.
Qed.

Lemma instance_attribute_spec this target name :
  name ∈ ClassAttributeVisitor.instance_attribute this target
  ↔ target = ast.Attribute (ast.Name this) name.
Proof.
  destruct target as [| | | | | |value attr| | |];
    try (simpl; rewrite elem_of_empty; naive_solver).
  destruct value; try (simpl; rewrite elem_of_empty; naive_solver).
  simpl. destruct (String.eqb_spec id this) as [->|Hne].
  - rewrite elem_of_singleton. naive_solver.
  - rewrite elem_of_empty. naive_solver.
Qed.

Lemma declares_with_value_spec t name :
  name ∈ ClassAttributeVisitor.declares_with_value t
  ↔ binds_with_value name t.
Proof.
  unfold binds_with_value. destruct t; simpl;
    try (rewrite elem_of_empty; naive_solver).
  - rewrite elem_of_union_list_fmap. setoid_rewrite bare_name_spec.
    naive_solver.
  - destruct value; [rewrite bare_name_spec|rewrite elem_of_empty];
      naive_solver.
Qed.

Lemma declares_bare_spec t name :
  name ∈ ClassAttributeVisitor.declares_bare t ↔ annotates_bare name t.
Proof.
  unfold annotates_bare. destruct t; simpl;
    try (rewrite elem_of_empty; naive_solver).
  destruct value; [rewrite elem_of_empty|rewrite bare_name_spec];
    naive_solver.
Qed.

Lemma assigns_on_spec this t name :
  name ∈ ClassAttributeVisitor.assigns_on this t
  ↔ assigns_attribute this name t.
Proof.
  unfold assigns_attribute. destruct t; simpl;
    try (rewrite elem_of_empty; naive_solver).
  - rewrite elem_of_union_list_fmap. setoid_rewrite instance_attribute_spec.
    naive_solver.
  - destruct value; [rewrite instance_attribute_spec|rewrite elem_of_empty];
      naive_solver.
Qed.

Lemma scan_spec leaf (P : ast.stmt → Prop) body name :
  (∀ t, name ∈ leaf t ↔ P t) →
  (∀ t, P t → is_block t = false) →
  name ∈ ⋃ (ClassAttributeVisitor.through_blocks leaf <$> body)
  ↔ ∃ s t, s ∈ body ∧ reaches s t ∧ P t.
Proof.
  intros Hleaf Hblock. rewrite elem_of_union_list_fmap.
  setoid_rewrite through_blocks_reaches. setoid_rewrite Hleaf.
  naive_solver.
Qed.

Lemma DeclaredWithValue_spec node name :
  name ∈ ClassAttributeVisitor.DeclaredWithValue node
  ↔ at_class_level node (binds_with_value name).
Proof.
  apply scan_spec; [intros; apply declares_with_value_spec|].
  by intros t [(? & ? & ? & -> & _)|(? & ? & ? & ->)].
Qed.

Lemma DeclaredBare_spec node name :
  name ∈ ClassAttributeVisitor.DeclaredBare node
  ↔ at_class_level node (annotates_bare name).
Proof.
  apply scan_spec; [intros; apply declares_bare_spec|].
  by intros t (? & ? & ->).
Qed.

Lemma InstanceAssigned_spec node name :
  name ∈ ClassAttributeVisitor.InstanceAssigned node
  ↔ in_method node (λ this, assigns_attribute this name).
Proof.
  unfold ClassAttributeVisitor.InstanceAssigned, in_method.
  rewrite elem_of_union_list_fmap. split.
  - intros (m & Hm & Hname).
    destruct m as [n is_async mname [|this args] body ds| | | | | | | | | | |];
      try (by apply elem_of_empty in Hname).
    simpl in Hname.
    apply (scan_spec _ (assigns_attribute this name)) in Hname
      as (s & t & Hs & Hreach & Ht).
    + by exists n, is_async, mname, this, args, body, ds, s, t.
    + intros; apply assigns_on_spec.
    + by intros t [(? & ? & ? & -> & _)|(? & ? & ? & ->)].
  - intros (n & is_async & mname & this & args & body & ds & s & t
            & Hm & Hs & Hreach & Ht).
    eexists. split; [exact Hm|]. simpl.
    apply (scan_spec _ (assigns_attribute this name)).
    + intros; apply assigns_on_spec.
    + by intros t' [(? & ? & ? & -> & _)|(? & ? & ? & ->)].
    + by exists s, t.
Qed.

Lemma is_exempting_spec decorator :
  ClassAttributeVisitor.is_exempting decorator = true ↔ is_marker decorator.
Proof.
  unfold ClassAttributeVisitor.is_exempting, is_marker.
  destruct decorator as [| | |func args keywords| | | | |id|]; simpl;
    try naive_solver.
  - destruct func; simpl; try naive_solver.
    rewrite String.eqb_eq. naive_solver.
  - rewrite String.eqb_eq. naive_solver.
Qed.

Lemma is_exempt_spec node :
  ClassAttributeVisitor.is_exempt node = true
  ↔ ∃ decorator,
      decorator ∈ ClassAttributeVisitor.class_decorators node
      ∧ is_marker decorator.
Proof.
  unfold ClassAttributeVisitor.is_exempt. rewrite existsb_exists.
  setoid_rewrite is_exempting_spec. by setoid_rewrite list_elem_of_In.
Qed.

Lemma filter_names_fmap (f : string → Violation) l name :
  (∀ x, v_text (f x) = x) → NoDup l → name ∈ l →
  List.filter (names name) (f <$> l) = [f name].
Proof.
  intros Htext Hnodup Hin. unfold names.
  induction Hnodup as [|x l Hx Hnodup IH]; [by apply elem_of_nil in Hin|].
  csimpl. rewrite Htext.
  apply elem_of_cons in Hin as [<-|Hin].
  - rewrite String.eqb_refl. f_equal. apply filter_none.
    intros v (y & -> & Hy)%list_elem_of_fmap. rewrite Htext.
    apply String.eqb_neq. by intros ->.
  - rewrite (proj2 (String.eqb_neq x name)) by (by intros ->). by apply IH.
Qed.

Lemma filter_names_fmap_none (f : string → Violation) l name :
  (∀ x, v_text (f x) = x) → name ∉ l →
  List.filter (names name) (f <$> l) = [].
Proof.
  intros Htext Hin. apply filter_none.
  intros v (y & -> & Hy)%list_elem_of_fmap. unfold names. rewrite Htext.
  apply String.eqb_neq. by intros ->.
Qed.

(** Every violation of the check of a class is anchored at that class. *)
Lemma class_violations_anchor s v :
  v ∈ class_violations s → v_node v = Some (ast.NStmt s).
Proof.
  unfold class_violations. destruct (isinstance_ClassDef s);
    [|by intros ?%elem_of_nil].
  rewrite check_attributes_shadowing_append. simpl.
  destruct (ClassAttributeVisitor.is_exempt s); [by intros ?%elem_of_nil|].
  by intros (name & -> & _)%list_elem_of_fmap.
Qed.

(** Among the items of pairwise distinct keys, only the item [x] yields
    elements that a filter keeps, when the filter keeps only elements
    yielded by items of the key of [x]. *)
Lemma filter_flat_map_unique {A B} (key : A → nat) (p : B → bool)
    (g : A → list B) l x :
  NoDup (key <$> l) → x ∈ l →
  (∀ y v, v ∈ g y → p v = true → key y = key x) →
  List.filter p (flat_map g l) = List.filter p (g x).
Proof.
  intros Hnodup Hx Hp.
  assert (Hnone : ∀ y, key y ≠ key x → List.filter p (g y) = []).
  { intros y Hne. apply filter_none. intros v Hv.
    apply not_true_is_false. intros Hpv. by apply Hne, (Hp y v). }
  induction l as [|y l IH]; [by apply elem_of_nil in Hx|].
  csimpl in Hnodup. apply NoDup_cons in Hnodup as [Hy Hnodup]. simpl.
  rewrite List.filter_app. apply elem_of_cons in Hx as [->|Hx].
  - rewrite (filter_none p (flat_map g l)); [by rewrite app_nil_r|].
    intros v Hv. apply list_elem_of_In, in_flat_map in Hv as (z & Hz & Hv).
    apply list_elem_of_In in Hz, Hv. apply not_true_is_false. intros Hpv.
    apply Hy. rewrite <- (Hp z v Hv Hpv). by apply list_elem_of_fmap_2.
  - rewrite Hnone, IH; [done..|]. intros Heq. apply Hy. rewrite Heq.
    by apply list_elem_of_fmap_2.
Qed.

(** C1.  For a class declaration of a tree of distinct statement objects:
    if a name is bound with a value by a plain assignment or an annotated
    declaration at the class level, and the same name is assigned as an
    attribute of the first parameter in the body of a method declared
    directly under the class, and no decorator of the class is the
    auto-initializer marker, then the run of the rule over the tree
    produces exactly one violation for the name at the class; it is a
    shadowed-class-attribute violation with the name as its text.  The
    check of the class alone emits exactly that violation for the name. *)
Theorem shadowed_attribute_flagged_once
    (tree : list ast.stmt) (node : ast.stmt) (name : string) :
  unique_ids tree →
  node ∈ stmts_of tree →
  isinstance_ClassDef node = true →
  at_class_level node (binds_with_value name) →
  in_method node (λ this, assigns_attribute this name) →
  (∀ decorator, decorator ∈ ClassAttributeVisitor.class_decorators node →
                ¬ is_marker decorator) →
  let violation :=
    mkViolation ShadowedClassAttributeViolation (Some (ast.NStmt node))
      name None in
  List.filter (λ v, names name v && anchored_at node v)
    (ClassAttributeVisitor.run tree)
  = [violation]
  ∧ List.filter (names name)
      (ClassAttributeVisitor._check_attributes_shadowing node [])
    = [violation]
  ∧ violation ∈ ClassAttributeVisitor.run tree.
Proof.
  intros Hunique Hnode Hclass Hdeclared%DeclaredWithValue_spec
    Hassigned%InstanceAssigned_spec Hmarker violation.
  assert (Hexempt : ClassAttributeVisitor.is_exempt node = false).
  { apply not_true_is_false. intros (d & Hd & Hd')%is_exempt_spec.
    by apply (Hmarker d). }
  assert (Hone : List.filter (names name)
                   (ClassAttributeVisitor._check_attributes_shadowing node [])
                 = [violation]).
  { rewrite check_attributes_shadowing_append, Hexempt. simpl.
    apply (filter_names_fmap (ClassAttributeVisitor.shadow_violation node));
      [done | apply NoDup_elements |].
    by apply elem_of_elements, elem_of_intersection. }
  split_and!; [|done|].
  - rewrite class_attribute_run.
    rewrite (filter_flat_map_unique ast.nid_of _ class_violations
               (stmts_of tree) node Hunique Hnode).
    + rewrite (filter_andb (names name) (anchored_at node)).
      unfold class_violations. rewrite Hclass, Hone.
      simpl. unfold anchored_at, ast.is_. simpl. by rewrite Nat.eqb_refl.
    + intros s v Hv [_ Hanchor]%andb_true_iff. unfold anchored_at in Hanchor.
      rewrite (class_violations_anchor s v Hv) in Hanchor.
      by apply Nat.eqb_eq.
  - apply (class_violations_in_run tree node); [done|].
    unfold class_violations. rewrite Hclass.
    assert (Hin : violation ∈ [violation]) by left.
    rewrite <- Hone in Hin.
    by apply list_elem_of_In, List.filter_In in Hin as [Hin%list_elem_of_In _].
Qed.

(** [class_attribute_logic] of the tests: one violation, for [field]. *)
Lemma shadowed_attribute_flagged_once_witness :
  List.filter
    (λ v, names "field" v && anchored_at sample_class_attribute_logic v)
    (ClassAttributeVisitor.run [sample_class_attribute_logic])
  = [mkViolation ShadowedClassAttributeViolation
       (Some (ast.NStmt sample_class_attribute_logic)) "field" None].
Proof.
  refine (proj1 (shadowed_attribute_flagged_once
                   [sample_class_attribute_logic]
                   sample_class_attribute_logic "field" _ _ _ _ _ _)).
  - apply (bool_decide_unpack _). by vm_compute.
  - left.
  - reflexivity.
  - eexists _, _. split_and!.
    + left.
    + eapply reaches_block; [reflexivity | left | apply reaches_here].
    + left. eexists _, _, _. split; [reflexivity | left].
  - eexists _, _, _, _, _, _, _, _, _. split_and!.
    + right. left.
    + left.
    + apply reaches_here.
    + left. eexists _, _, _. split; [reflexivity | left].
  - intros decorator Hdecorator. by apply elem_of_nil in Hdecorator.
Defined.

Lemma is_marker_exempting decorator :
  is_marker decorator → ClassAttributeVisitor.is_exempting decorator = true.
Proof. by intros [->|(args & keywords & ->)]. Qed.

Lemma is_unrelated_not_exempting decorator :
  is_unrelated decorator →
  ClassAttributeVisitor.is_exempting decorator = false.
Proof.
  unfold ClassAttributeVisitor.is_exempting.
  intros [(id & -> & Hid)|[(id & args & keywords & -> & Hid)
                           |(value & slice & ->)]]; simpl;
    [by apply String.eqb_neq..|done].
Qed.

(** C2.  A class one of whose decorators is the auto-initializer marker,
    written bare or as the callee of a call, gets no violation, whatever
    its names.  A class whose decorators all have another name, or are
    subscripts, gets the same violations as without them: one for every
    name that is both declared with a value and assigned on the
    instance. *)
Theorem exempt_only_by_marker
    (exempted other : ast.stmt) (decorator : ast.expr)
    (st : list Violation) :
  decorator ∈ ClassAttributeVisitor.class_decorators exempted →
  is_marker decorator →
  Forall is_unrelated (ClassAttributeVisitor.class_decorators other) →
  ClassAttributeVisitor._check_attributes_shadowing exempted st = st
  ∧ ClassAttributeVisitor._check_attributes_shadowing other st
    = st ++ (ClassAttributeVisitor.shadow_violation other
               <$> elements (ClassAttributeVisitor.DeclaredWithValue other
                             ∩ ClassAttributeVisitor.InstanceAssigned other)).
Proof.
  intros Hin Hmarker Hother. rewrite !check_attributes_shadowing_append.
  split.
  - replace (ClassAttributeVisitor.is_exempt exempted) with true;
      [by rewrite app_nil_r|].
    symmetry. apply existsb_exists. exists decorator.
    split; [by apply list_elem_of_In | by apply is_marker_exempting].
  - replace (ClassAttributeVisitor.is_exempt other) with false; [done|].
    symmetry. apply not_true_is_false.
    intros (d & Hd & Hexempting)%existsb_exists.
    rewrite Forall_forall in Hother.
    apply list_elem_of_In, Hother, is_unrelated_not_exempting in Hd.
    congruence.
Qed.

(** [@dataclass(slots=True)] against [@not_dataclasses[0]]. *)
Lemma exempt_only_by_marker_witness :
  ClassAttributeVisitor._check_attributes_shadowing sample_dataclass [] = []
  ∧ ClassAttributeVisitor._check_attributes_shadowing sample_not_dataclass []
    = [mkViolation ShadowedClassAttributeViolation
         (Some (ast.NStmt sample_not_dataclass)) "field" None].
Proof.
  assert (Hin : ast.Call (ast.Name "dataclass") []
                  [("slots", ast.Constant (ast.CBool true))]
                ∈ ClassAttributeVisitor.class_decorators sample_dataclass)
    by left.
  assert (Hmarker : is_marker
                      (ast.Call (ast.Name "dataclass") []
                         [("slots", ast.Constant (ast.CBool true))])).
  { right. by eexists _, _. }
  assert (Hother : Forall is_unrelated
                     (ClassAttributeVisitor.class_decorators
                        sample_not_dataclass)).
  { apply List.Forall_cons; [|apply List.Forall_nil].
    right; right. by eexists _, _. }
  destruct (exempt_only_by_marker sample_dataclass sample_not_dataclass _ []
              Hin Hmarker Hother) as [Hexempted Hflagged].
  split; [exact Hexempted|].
  rewrite Hflagged. by vm_compute.
Defined.

(** C3.  A name that the class level binds only by an annotated
    declaration without a value gets no violation, also when a method
    assigns it on the instance: the check of the class adds no violation
    for that name. *)
Theorem bare_annotation_never_flagged
    (node : ast.stmt) (name : string) (st : list Violation) :
  at_class_level node (annotates_bare name) →
  ¬ at_class_level node (binds_with_value name) →
  List.filter (names name)
    (ClassAttributeVisitor._check_attributes_shadowing node st)
  = List.filter (names name) st.
Proof.
  intros _ Hvalue. rewrite <- DeclaredWithValue_spec in Hvalue.
  rewrite check_attributes_shadowing_append, List.filter_app.
  rewrite <- (app_nil_r (List.filter (names name) st)) at 2. f_equal.
  destruct (ClassAttributeVisitor.is_exempt node); [done|].
  apply filter_names_fmap_none; [done|].
  rewrite elem_of_elements, elem_of_intersection. tauto.
Qed.

(** [class_annotation] of the tests: [field: int] at class level and
    [self.field = 2] in [__init__]. *)
Lemma bare_annotation_never_flagged_witness :
  in_method sample_class_annotation (λ this, assigns_attribute this "field")
  ∧ List.filter (names "field")
      (ClassAttributeVisitor._check_attributes_shadowing
         sample_class_annotation []) = [].
Proof.
  split.
  - eexists _, _, _, _, _, _, _, _, _. split_and!.
    + right. left.
    + left.
    + apply reaches_here.
    + left. eexists _, _, _. split; [reflexivity | left].
  - apply (bare_annotation_never_flagged sample_class_annotation "field" []).
    + eexists _, _. split_and!; [left | apply reaches_here |].
      by eexists _, _.
    + intros Hvalue%DeclaredWithValue_spec. revert Hvalue. by vm_compute.
Defined.

(** ** The engine: every rule runs as if alone *)

Section engine_facts.
Context (has_overload_decorator : ast.stmt → bool).
Context (MAX_CONDITIONS MAX_COMPARES MAX_ELIFS MAX_EXCEPT_CASES : Z).
Context (options : Options).

Local Abbreviation visit_object :=
  (visit_object has_overload_decorator MAX_CONDITIONS MAX_COMPARES
     MAX_EXCEPT_CASES options).
Local Abbreviation post_visit_object :=
  (post_visit_object MAX_ELIFS options).
Local Abbreviation dispatch :=
  (dispatch has_overload_decorator MAX_CONDITIONS MAX_COMPARES
     MAX_EXCEPT_CASES options).
Local Abbreviation finalize := (finalize MAX_ELIFS options).
Local Abbreviation run_rule :=
  (run_rule has_overload_decorator MAX_CONDITIONS MAX_COMPARES MAX_ELIFS
     MAX_EXCEPT_CASES options).
Local Abbreviation engine :=
  (engine has_overload_decorator MAX_CONDITIONS MAX_COMPARES MAX_ELIFS
     MAX_EXCEPT_CASES options).
Local Abbreviation engine_violations :=
  (engine_violations has_overload_decorator MAX_CONDITIONS MAX_COMPARES
     MAX_ELIFS MAX_EXCEPT_CASES options).

(** The instances of a registry get pairwise distinct addresses, none of
    which is the address of an object the store already holds; each starts
    with the attributes of its class's [__init__], and the objects the
    store already holds are left as they are. *)
Lemma instantiate_fresh rules :
  ∀ σ ls σ', instantiate rules σ = (ls, σ') →
    NoDup ls
    ∧ (∀ l, l ∈ ls → l ∉ dom σ)
    ∧ Forall2 (λ l r, σ' !! l = Some (init r)) ls rules
    ∧ (∀ l, l ∉ ls → σ' !! l = σ !! l).
Proof.
  induction rules as [|r rules IH]; intros σ ls σ'; simpl.
  - intros [= <- <-]. split_and!; [constructor | | constructor | done].
    intros l Hl. by apply elem_of_nil in Hl.
  - unfold new. set (l0 := stdpp.base.fresh (dom σ)).
    destruct (instantiate rules (<[l0 := init r]> σ))
      as [ls0 σ0] eqn:Hrest. intros [= <- <-].
    destruct (IH _ _ _ Hrest) as (Hnodup & Hfresh & Hinit & Hframe).
    pose proof (is_fresh (dom σ)) as Hnew. fold l0 in Hnew.
    assert (Hl : l0 ∉ ls0).
    { intros Hin. apply (Hfresh _ Hin). set_solver. }
    split_and!.
    + by constructor.
    + intros l [->|Hin]%elem_of_cons; [done|].
      specialize (Hfresh l Hin). set_solver.
    + constructor; [|done]. rewrite Hframe by done.
      by rewrite lookup_insert_eq.
    + intros l [Hne Hin]%not_elem_of_cons. rewrite Hframe by done.
      by rewrite lookup_insert_ne.
Qed.

(** A method called once through each of pairwise distinct references
    updates exactly the objects referred to, each once. *)
Lemma alter_each_lookup (f : object → object) ls :
  NoDup ls →
  ∀ (σ : store) l,
    fold_left (λ σ l, alter f l σ) ls σ !! l
    = if decide (l ∈ ls) then f <$> σ !! l else σ !! l.
Proof.
  induction 1 as [|a ls Ha _ IH]; intros σ l; simpl; [done|]. rewrite IH.
  destruct (decide (l = a)) as [->|Hne].
  - rewrite decide_False, decide_True by (done || left).
    by rewrite lookup_alter_eq.
  - rewrite lookup_alter_ne by done.
    destruct (decide (l ∈ ls)) as [Hin|Hin].
    + by rewrite decide_True by (by right).
    + rewrite decide_False; [done|]. by intros [?|?]%elem_of_cons.
Qed.

(** Over a whole traversal, the object behind a reference of the engine
    evolves as if its handlers alone had fired, and every other object of
    the store keeps its attributes. *)
Lemma traverse_lookup ls ns :
  NoDup ls →
  ∀ (σ : store) l,
    fold_left (fire (dispatch ls)) ns σ !! l
    = if decide (l ∈ ls)
      then (λ o, fold_left (fire visit_object) ns o) <$> σ !! l
      else σ !! l.
Proof.
  intros Hnodup. induction ns as [|[c n] ns IH]; intros σ l; simpl.
  - case_decide; [|done]. by destruct (σ !! l).
  - rewrite IH.
    assert (Hstep : fire (dispatch ls) σ (c, n) !! l
                    = if decide (l ∈ ls) then visit_object c n <$> σ !! l
                      else σ !! l)
      by apply (alter_each_lookup (visit_object c n) ls Hnodup).
    rewrite Hstep. case_decide; [|done]. by destruct (σ !! l).
Qed.

Ltac fold_object :=
  let ns := fresh "ns" in
  let cn := fresh "cn" in
  let IH := fresh "IH" in
  let self := fresh "self" in
  intros ns; induction ns as [|cn ns IH]; intros self; simpl; [done|];
  apply IH.

Lemma fold_ModuleMembersObject :
  ∀ ns self,
    fold_left (fire visit_object) ns (ModuleMembersObject self)
    = ModuleMembersObject
        (fold_left
           (fire (ModuleMembersVisitor.visit has_overload_decorator options))
           ns self).
Proof. fold_object. Qed.

Lemma fold_ConditionsObject :
  ∀ ns self,
    fold_left (fire visit_object) ns (ConditionsObject self)
    = ConditionsObject
        (fold_left
           (fire (ConditionsVisitor.visit MAX_CONDITIONS MAX_COMPARES))
           ns self).
Proof. fold_object. Qed.

Lemma fold_ElifObject :
  ∀ ns self,
    fold_left (fire visit_object) ns (ElifObject self)
    = ElifObject (fold_left (fire ElifVisitor.visit) ns self).
Proof. fold_object. Qed.

Lemma fold_TryExceptObject :
  ∀ ns self,
    fold_left (fire visit_object) ns (TryExceptObject self)
    = TryExceptObject
        (fold_left (fire (TryExceptVisitor.visit MAX_EXCEPT_CASES options))
           ns self).
Proof. fold_object. Qed.

Lemma fold_ClassAttributeObject :
  ∀ ns self,
    fold_left (fire visit_object) ns (ClassAttributeObject self)
    = ClassAttributeObject
        (fold_left (fire ClassAttributeVisitor.visit) ns self).
Proof. fold_object. Qed.

(** The handlers and the finalization hook of one instance, applied to the
    attributes of [__init__], give the run of its class. *)
Lemma object_run_rule tree r :
  violations_of
    (post_visit_object (fold_left (fire visit_object) (nodes tree) (init r)))
  = run_rule tree r.
Proof.
  destruct r; simpl.
  - rewrite fold_ModuleMembersObject. simpl.
    unfold ModuleMembersVisitor.run, ModuleMembersVisitor.walk.
    by rewrite visit_tree_nodes.
  - rewrite fold_ConditionsObject. simpl.
    unfold ConditionsVisitor.run. by rewrite visit_tree_nodes.
  - rewrite fold_ElifObject. simpl.
    unfold ElifVisitor.run, ElifVisitor.walk. by rewrite visit_tree_nodes.
  - rewrite fold_TryExceptObject. simpl.
    unfold TryExceptVisitor.run. by rewrite visit_tree_nodes.
  - rewrite fold_ClassAttributeObject. simpl.
    unfold ClassAttributeVisitor.run. by rewrite visit_tree_nodes.
Qed.

Lemma Forall2_fmap_eq {A B C} (R : A → B → Prop) (g : A → C) (h : B → C)
    la lb :
  Forall2 R la lb →
  (∀ a b, a ∈ la → R a b → g a = h b) →
  g <$> la = h <$> lb.
Proof.
  induction 1 as [|a b la lb Hab _ IH]; intros Hgh; csimpl; [done|].
  f_equal.
  - apply Hgh; [left | done].
  - apply IH. intros a' b' Ha'. apply Hgh. by right.
Qed.

(** The object of an instance once the engine is done, and the objects the
    engine did not create. *)
Lemma engine_store rules tree σ ls σ0 :
  instantiate rules σ = (ls, σ0) →
  ∀ l, finalize ls (visit_tree (dispatch ls) tree σ0) !! l
       = if decide (l ∈ ls)
         then (λ o, post_visit_object
                      (fold_left (fire visit_object) (nodes tree) o))
                <$> σ0 !! l
         else σ !! l.
Proof.
  intros Hinst l.
  destruct (instantiate_fresh rules σ ls σ0 Hinst)
    as (Hnodup & _ & _ & Hframe).
  unfold finalize, post_visit_at.
  rewrite (alter_each_lookup post_visit_object ls Hnodup).
  rewrite visit_tree_nodes, (traverse_lookup ls _ Hnodup).
  case_decide; [|by apply Hframe]. by destruct (σ0 !! l).
Qed.

(** In the shared traversal, on any store, the result of every rule is the
    result of running that rule alone. *)
Lemma engine_run_rule rules tree σ :
  fst (engine rules tree σ) = run_rule tree <$> rules.
Proof.
  unfold engine.
  destruct (instantiate rules σ) as [ls σ0] eqn:Hinst. simpl.
  destruct (instantiate_fresh rules σ ls σ0 Hinst) as (_ & _ & Hinit & _).
  unfold results. apply (Forall2_fmap_eq _ _ _ _ _ Hinit).
  intros l r Hl Hr. rewrite (engine_store rules tree σ ls σ0 Hinst).
  rewrite decide_True, Hr by done. simpl. apply object_run_rule.
Qed.

(** The engine leaves the objects it did not create as they are. *)
Lemma engine_frame rules tree σ l :
  l ∈ dom σ → snd (engine rules tree σ) !! l = σ !! l.
Proof.
  intros Hl. unfold engine.
  destruct (instantiate rules σ) as [ls σ0] eqn:Hinst. simpl.
  destruct (instantiate_fresh rules σ ls σ0 Hinst) as (_ & Hfresh & _ & _).
  rewrite (engine_store rules tree σ ls σ0 Hinst).
  rewrite decide_False; [done|]. intros Hin. by apply (Hfresh l Hin).
Qed.

Lemma concat_fmap_Permutation {A B} (f : A → list B) l l' :
  Permutation l l' → Permutation (concat (f <$> l)) (concat (f <$> l')).
Proof.
  induction 1 as [|x l l' _ IH|x y l|l l' l'' _ IH _ IH']; csimpl.
  - done.
  - by apply Permutation_app_head.
  - rewrite !app_assoc. apply Permutation_app_tail, Permutation_app_comm.
  - by etrans.
Qed.

End engine_facts.



(** The violations of the sample program: the cascade of four [elif]s, the
    handler of four exceptions and the shadowed attribute. *)
Example engine_sample_program :
  (λ v, (v_class v, v_text v))
    <$> concat (fst (sample_engine registry sample_program ∅))
  = [(TooManyElifsViolation, "4");
     (TooManyExceptExceptionsViolation, "4");
     (ShadowedClassAttributeViolation, "field")].
Proof. by vm_compute. Qed.

(** Independence rests on the instances being distinct objects: when the
    registry holds two references to one instance, the handlers of that
    instance fire twice at every node, and the one function of the sample
    module is counted twice. *)
Example two_references_to_one_instance :
  let σ : store := {[ 0%nat := ModuleMembersObject ModuleMembersVisitor.__init__ ]} in
  let count (ls : list loc) :=
    visit_tree (dispatch (λ _, false) 4 2 3 sample_options ls)
      sample_module σ !! 0%nat in
  count [0%nat]
  = Some (ModuleMembersObject (ModuleMembersVisitor.mkSelf 1 []))
  ∧ count [0%nat; 0%nat]
    = Some (ModuleMembersObject (ModuleMembersVisitor.mkSelf 2 [])).
Proof. by vm_compute. Qed.

(** ** [ElifVisitor]: the statements of a tree and its cascades *)

Lemma flat_map_flat_map {A B C} (f : A → list B) (g : B → list C) l :
  flat_map g (flat_map f l) = flat_map (λ x, flat_map g (f x)) l.
Proof.
  induction l as [|x l IH]; simpl; [done|]. by rewrite flat_map_app, IH.
Qed.

Lemma fmap_flat_map {A B C} (f : A → list B) (g : B → C) l :
  g <$> flat_map f l = flat_map (λ x, g <$> f x) l.
Proof.
  induction l as [|x l IH]; simpl; [done|]. by rewrite fmap_app, IH.
Qed.

Lemma flat_map_Forall_eq {A B} (f g : A → list B) l :
  Forall (λ x, f x = g x) l → flat_map f l = flat_map g l.
Proof. induction 1 as [|x l Hx _ IH]; simpl; [done|]. by rewrite Hx, IH. Qed.

Lemma subtree_children s : subtree s = s :: flat_map subtree (children s).
Proof.
  destruct s; simpl; rewrite ?flat_map_app, ?flat_map_flat_map; done.
Qed.

Lemma scoped_stmt_subtree s : ∀ c, snd <$> scoped_stmt c s = subtree s.
Proof.
  induction s using stmt_nested_ind with
    (Q := λ h, ∀ c, snd <$> flat_map (scoped_stmt c) (handler_body h)
                    = flat_map subtree (handler_body h));
    intros c; csimpl; rewrite ?fmap_app, ?fmap_flat_map;
    repeat match goal with
    | H : Forall _ ?ss |- context [flat_map _ ?ss] =>
        rewrite (flat_map_Forall_eq _ subtree ss)
          by (eapply Forall_impl; [exact H | simpl; auto]);
        clear H
    end; try done.
  match goal with
  | H : Forall _ ?hs |- context [flat_map ?f ?hs] =>
      rewrite (flat_map_Forall_eq f
                 (λ h, flat_map subtree (handler_body h)) hs); [done|];
      eapply Forall_impl; [exact H | simpl; auto]
  end.
Qed.

Lemma stmts_of_subtree tree : stmts_of tree = flat_map subtree tree.
Proof.
  unfold stmts_of, scoped_stmts. rewrite fmap_flat_map.
  apply flat_map_ext_eq. intros. apply scoped_stmt_subtree.
Qed.

Lemma chains_children rooted s :
  ast.isinstance_If s = false →
  chains rooted s = flat_map (chains false) (children s).
Proof.
  destruct s; simpl; rewrite ?flat_map_app, ?flat_map_flat_map; done.
Qed.

Lemma members_not_If s : ast.isinstance_If s = false → members s = [].
Proof. by destruct s. Qed.

(** ** [ElifVisitor]: the dictionary operations *)

Lemma is_nid a b : ast.is_ a b = true ↔ ast.nid_of a = ast.nid_of b.
Proof. apply Nat.eqb_eq. Qed.

Lemma is_refl a : ast.is_ a a = true.
Proof. by apply is_nid. Qed.

Lemma is_false a b : ast.is_ a b = false ↔ ast.nid_of a ≠ ast.nid_of b.
Proof. apply Nat.eqb_neq. Qed.

Lemma contains_ids l s :
  ElifVisitor.contains l s = true ↔ ast.nid_of s ∈ ids l.
Proof.
  unfold ElifVisitor.contains, ids.
  rewrite existsb_exists, list_elem_of_fmap. split.
  - intros (x & Hx & His). exists x. apply is_nid in His.
    by rewrite list_elem_of_In.
  - intros (x & Heq & Hx). exists x. by rewrite <- list_elem_of_In, is_nid.
Qed.

Lemma has_key_keys k d :
  existsb (λ kv, ast.is_ (fst kv) k) d = true ↔ ast.nid_of k ∈ keys d.
Proof.
  unfold keys, ids. rewrite existsb_exists, <- list_fmap_compose,
    list_elem_of_fmap. split.
  - intros (kv & Hkv & His). exists kv. apply is_nid in His.
    by rewrite list_elem_of_In.
  - intros (kv & Heq & Hkv). exists kv. by rewrite <- list_elem_of_In, is_nid.
Qed.

Lemma keys_app d d' : keys (d ++ d') = keys d ++ keys d'.
Proof. unfold keys, ids. by rewrite !fmap_app. Qed.

Lemma member_ids_app d d' :
  member_ids (d ++ d') = member_ids d ++ member_ids d'.
Proof. apply flat_map_app. Qed.

Lemma ids_app l l' : ids (l ++ l') = ids l ++ ids l'.
Proof. apply fmap_app. Qed.

Lemma map_other_keys k items d :
  ast.nid_of k ∉ keys d →
  map (λ kv, if ast.is_ (fst kv) k then (fst kv, snd kv ++ items) else kv) d
  = d.
Proof.
  induction d as [|[k' l] d IH]; intros Hk; simpl; [done|].
  unfold keys, ids in Hk. csimpl in Hk. apply not_elem_of_cons in Hk as [Hk Hd].
  rewrite (proj2 (is_false k' k)) by done. f_equal. by apply IH.
Qed.

Lemma dd_extend_new k items d :
  ast.nid_of k ∉ keys d →
  ElifVisitor.dd_extend k items d = d ++ [(k, items)].
Proof.
  intros Hk. unfold ElifVisitor.dd_extend, ElifVisitor.dd_touch.
  destruct (existsb _ d) eqn:Hhas; [by apply has_key_keys in Hhas|].
  rewrite map_app, map_other_keys by done. simpl. by rewrite is_refl.
Qed.

Lemma dd_extend_at r items d1 l d2 :
  ast.nid_of r ∉ keys d1 → ast.nid_of r ∉ keys d2 →
  ElifVisitor.dd_extend r items (d1 ++ (r, l) :: d2)
  = d1 ++ (r, l ++ items) :: d2.
Proof.
  intros H1 H2. unfold ElifVisitor.dd_extend, ElifVisitor.dd_touch.
  replace (existsb _ (d1 ++ (r, l) :: d2)) with true.
  - rewrite map_app. simpl. by rewrite is_refl, !map_other_keys.
  - symmetry. apply has_key_keys. rewrite keys_app.
    apply elem_of_app. right. left.
Qed.

Lemma get_root_unrooted s d :
  ast.nid_of s ∉ member_ids d → ElifVisitor._get_root_if_node s d = s.
Proof.
  intros Hs. unfold ElifVisitor._get_root_if_node.
  destruct (find _ d) as [[root l]|] eqn:Hfind; [|done].
  apply find_some in Hfind as [Hin Hcontains]. simpl in Hcontains.
  apply contains_ids in Hcontains. destruct Hs.
  apply list_elem_of_In, in_flat_map. exists (root, l).
  split; [done | by apply list_elem_of_In].
Qed.

Lemma get_root_rooted s d1 r l d2 :
  ast.nid_of s ∉ member_ids d1 → ast.nid_of s ∈ ids l →
  ElifVisitor._get_root_if_node s (d1 ++ (r, l) :: d2) = r.
Proof.
  intros Hs Hl. unfold ElifVisitor._get_root_if_node.
  induction d1 as [|[k' l'] d1 IH]; simpl.
  - by rewrite (proj2 (contains_ids l s)).
  - simpl in Hs. apply not_elem_of_app in Hs as [Hl' Hd1].
    destruct (ElifVisitor.contains l' s) eqn:Hc;
      [by apply contains_ids in Hc|].
    by apply IH.
Qed.

Lemma check_elifs_not_step s d :
  elif_step s = false → check_stmt d s = d.
Proof.
  unfold check_stmt, elif_step, ElifVisitor._check_elifs.
  destruct (ast.isinstance_If s); simpl; [|done]. by intros ->.
Qed.

Lemma check_elifs_unrooted s d :
  elif_step s = true →
  ast.nid_of s ∉ member_ids d → ast.nid_of s ∉ keys d →
  check_stmt d s = d ++ [(s, ElifVisitor.orelse_of s)].
Proof.
  unfold check_stmt, elif_step, ElifVisitor._check_elifs.
  intros [-> ->]%andb_true_iff Hmember Hkey.
  rewrite get_root_unrooted by done. unfold ElifVisitor._update_if_child.
  rewrite is_refl. simpl. by apply dd_extend_new.
Qed.

Lemma check_elifs_rooted s d1 r l d2 :
  elif_step s = true →
  ast.nid_of s ∉ member_ids d1 → ast.nid_of s ∈ ids l →
  ast.nid_of s ≠ ast.nid_of r →
  ast.nid_of r ∉ keys d1 → ast.nid_of r ∉ keys d2 →
  check_stmt (d1 ++ (r, l) :: d2) s
  = d1 ++ (r, l ++ s :: ElifVisitor.orelse_of s) :: d2.
Proof.
  unfold check_stmt, elif_step, ElifVisitor._check_elifs.
  intros [-> ->]%andb_true_iff Hmember Hin Hne Hk1 Hk2.
  rewrite get_root_rooted by done. unfold ElifVisitor._update_if_child.
  rewrite (proj2 (is_false s r)) by done. simpl.
  rewrite !dd_extend_at by done. by rewrite <- app_assoc.
Qed.

(** ** [ElifVisitor]: identities below a statement *)

Global Instance set_unfold_flat_map {A B} (f : A → list B) l P Q y :
  (∀ x, SetUnfoldElemOf x l (P x)) →
  (∀ x, SetUnfoldElemOf y (f x) (Q x)) →
  SetUnfoldElemOf y (flat_map f l) (∃ x, Q x ∧ P x).
Proof.
  constructor. rewrite list_elem_of_In, in_flat_map.
  setoid_rewrite <- list_elem_of_In.
  split; intros (x & H1 & H2); exists x;
    [split; [by apply (set_unfold_elem_of y (f x) _)
            | by apply (set_unfold_elem_of x l _)]
    | split; [by apply (set_unfold_elem_of x l _)
             | by apply (set_unfold_elem_of y (f x) _)]].
Qed.

Lemma subtree_top s : s ∈ subtree s.
Proof. rewrite subtree_children. left. Qed.

Lemma ids_forest ss x : x ∈ ids ss → x ∈ ids (flat_map subtree ss).
Proof.
  unfold ids. set_unfold. intros (s & -> & Hs).
  exists s. split; [done|]. exists s. split; [apply subtree_top | done].
Qed.

Lemma forest_incl {A} (f : ast.stmt → list A) (g : ast.stmt → list A) ss :
  Forall (λ s, ∀ x, x ∈ f s → x ∈ g s) ss →
  ∀ x, x ∈ flat_map f ss → x ∈ flat_map g ss.
Proof.
  rewrite Forall_forall. intros H x. set_unfold.
  intros (s & Hx & Hs). exists s. split; [|done]. by apply (H s).
Qed.

Lemma ids_flat_map {A} (f : A → list ast.stmt) l :
  ids (flat_map f l) = flat_map (λ x, ids (f x)) l.
Proof. apply fmap_flat_map. Qed.

Lemma keys_flat_map {A} (f : A → list (ast.stmt * list ast.stmt)) l :
  keys (flat_map f l) = flat_map (λ x, keys (f x)) l.
Proof. unfold keys. by rewrite fmap_flat_map, ids_flat_map. Qed.

Lemma member_ids_flat_map {A} (f : A → list (ast.stmt * list ast.stmt)) l :
  member_ids (flat_map f l) = flat_map (λ x, member_ids (f x)) l.
Proof. apply flat_map_flat_map. Qed.

Lemma ids_cons s l : ids (s :: l) = ast.nid_of s :: ids l.
Proof. done. Qed.

Lemma chains_If rooted n test body orelse :
  chains rooted (ast.If n test body orelse)
  = if forallb ast.isinstance_If orelse
    then (if rooted then []
          else [(ast.If n test body orelse,
                 orelse ++ flat_map members orelse)])
         ++ flat_map (chains false) body ++ flat_map (chains true) orelse
    else flat_map (chains false) body ++ flat_map (chains false) orelse.
Proof. done. Qed.

Lemma members_If n test body orelse :
  members (ast.If n test body orelse)
  = if forallb ast.isinstance_If orelse
    then ast.If n test body orelse :: orelse ++ flat_map members orelse
    else [].
Proof. done. Qed.

Lemma subtree_If n test body orelse :
  subtree (ast.If n test body orelse)
  = ast.If n test body orelse
    :: flat_map subtree body ++ flat_map subtree orelse.
Proof. done. Qed.

Lemma members_subtree s : ∀ x, x ∈ ids (members s) → x ∈ ids (subtree s).
Proof.
  induction s as [s IH] using stmt_children_ind.
  destruct s; try (by intros x Hx; apply elem_of_nil in Hx).
  cbn [children] in IH. apply Forall_app in IH as [_ IH].
  rewrite members_If, subtree_If.
  destruct (forallb ast.isinstance_If orelse);
    [|by intros x Hx; apply elem_of_nil in Hx].
  intros x. rewrite !ids_cons, !ids_app, !elem_of_cons, !elem_of_app.
  intros [->|[Hx|Hx]]; [by left | right; right..].
  - by apply ids_forest.
  - rewrite ids_flat_map in Hx |- *. revert x Hx. by apply forest_incl.
Qed.

Lemma members_forest ss x :
  x ∈ ids (flat_map members ss) → x ∈ ids (flat_map subtree ss).
Proof.
  rewrite !ids_flat_map. revert x. apply forest_incl, Forall_forall.
  intros s _. apply members_subtree.
Qed.

Lemma mentions_app d d' x : mentions (d ++ d') x ↔ mentions d x ∨ mentions d' x.
Proof.
  unfold mentions. rewrite keys_app, member_ids_app, !elem_of_app. tauto.
Qed.

Lemma mentions_cons k l d x :
  mentions ((k, l) :: d) x ↔ x = ast.nid_of k ∨ x ∈ ids l ∨ mentions d x.
Proof.
  unfold mentions, keys, ids. csimpl. rewrite elem_of_cons, elem_of_app. tauto.
Qed.

Lemma mentions_nil x : mentions [] x ↔ False.
Proof. unfold mentions, keys, ids. csimpl. rewrite !elem_of_nil. tauto. Qed.

Lemma mentions_forest (f : ast.stmt → list (ast.stmt * list ast.stmt)) ss :
  Forall (λ s, ∀ x, mentions (f s) x → x ∈ ids (subtree s)) ss →
  ∀ x, mentions (flat_map f ss) x → x ∈ ids (flat_map subtree ss).
Proof.
  induction 1 as [|s ss Hs _ IH]; intros x; simpl.
  - by rewrite mentions_nil.
  - rewrite mentions_app, ids_app, elem_of_app. intros [Hx|Hx]; auto.
Qed.

Lemma chains_subtree s :
  ∀ rooted x, mentions (chains rooted s) x → x ∈ ids (subtree s).
Proof.
  induction s as [s IH] using stmt_children_ind. intros rooted x.
  destruct (ast.isinstance_If s) eqn:Hif.
  - destruct s; try done. cbn [children] in IH.
    apply Forall_app in IH as [IHbody IHorelse].
    assert (Hbody : ∀ x, mentions (flat_map (chains false) body) x →
                         x ∈ ids (flat_map subtree body)).
    { apply mentions_forest.
      eapply Forall_impl; [exact IHbody | intros s Hs; apply Hs]. }
    assert (Horelse : ∀ rooted x,
              mentions (flat_map (chains rooted) orelse) x →
              x ∈ ids (flat_map subtree orelse)).
    { intros rooted'. apply mentions_forest.
      eapply Forall_impl; [exact IHorelse | intros s Hs; apply Hs]. }
    rewrite chains_If, subtree_If, ids_cons, ids_app, elem_of_cons,
      elem_of_app.
    destruct (forallb ast.isinstance_If orelse).
    + rewrite !mentions_app.
      intros [Hx|[Hx|Hx]];
        [|by right; left; apply Hbody|by right; right; apply (Horelse true)].
      destruct rooted; [by apply mentions_nil in Hx|].
      apply mentions_cons in Hx as [->|[Hx|Hx]];
        [by left | | by apply mentions_nil in Hx].
      right; right. rewrite ids_app, elem_of_app in Hx.
      destruct Hx; [by apply ids_forest | by apply members_forest].
    + rewrite !mentions_app.
      intros [Hx|Hx];
        [by right; left; apply Hbody|by right; right; apply (Horelse false)].
  - rewrite chains_children, subtree_children, ids_cons, elem_of_cons by done.
    intros Hx. right. revert x Hx. apply mentions_forest.
    eapply Forall_impl; [exact IH | intros s' Hs; apply Hs].
Qed.

Lemma chains_forest rooted ss x :
  mentions (flat_map (chains rooted) ss) x → x ∈ ids (flat_map subtree ss).
Proof.
  revert x. apply mentions_forest, Forall_forall.
  intros s _. apply chains_subtree.
Qed.

Lemma NoDup_ids_app l k :
  NoDup (ids (l ++ k))
  ↔ NoDup (ids l) ∧ (∀ x, x ∈ ids l → x ∉ ids k) ∧ NoDup (ids k).
Proof. rewrite ids_app. apply NoDup_app. Qed.

Lemma subtree_forest_perm ss : flat_map subtree ss ≡ₚ ss ++ below ss.
Proof.
  induction ss as [|s ss IH]; [done|]. unfold below in *. simpl.
  rewrite subtree_children at 1. simpl. f_equiv.
  rewrite IH. by rewrite !app_assoc, (Permutation_app_comm ss).
Qed.

Lemma ids_forest_perm ss :
  ids (flat_map subtree ss) ≡ₚ ids ss ++ ids (below ss).
Proof. unfold ids. by rewrite subtree_forest_perm, fmap_app. Qed.

Lemma below_forest ss x : x ∈ ids (below ss) → x ∈ ids (flat_map subtree ss).
Proof. rewrite ids_forest_perm, elem_of_app. tauto. Qed.

Lemma below_not_top ss x :
  NoDup (ids (flat_map subtree ss)) → x ∈ ids ss → x ∉ ids (below ss).
Proof.
  rewrite ids_forest_perm, NoDup_app. intros (_ & Hdisjoint & _).
  apply Hdisjoint.
Qed.

Lemma chains_not_step rooted s :
  elif_step s = false →
  chains rooted s = flat_map (chains false) (children s) ∧ members s = [].
Proof.
  destruct (ast.isinstance_If s) eqn:Hif.
  - destruct s; try done. unfold elif_step. simpl. intros Hstep.
    by rewrite Hstep, flat_map_app.
  - intros _. split; [by apply chains_children | by apply members_not_If].
Qed.

Lemma elif_step_If s :
  elif_step s = true →
  ∃ n test body orelse,
    s = ast.If n test body orelse ∧ forallb ast.isinstance_If orelse = true.
Proof.
  destruct s; try done. unfold elif_step. simpl. intros Hstep.
  by eexists _, _, _, _.
Qed.

(** ** [ElifVisitor]: the dictionary after the visit of a subtree *)

Lemma fresh_app l d d' : fresh l (d ++ d') ↔ fresh l d ∧ fresh l d'.
Proof.
  unfold fresh. setoid_rewrite mentions_app. naive_solver.
Qed.

Lemma fresh_incl l l' d :
  (∀ x, x ∈ ids l → x ∈ ids l') → fresh l' d → fresh l d.
Proof. unfold fresh. naive_solver. Qed.

Lemma sweeps_forest ss :
  Forall sweeps ss → NoDup (ids (flat_map subtree ss)) →
  ∀ d, fresh (flat_map subtree ss) d →
       fold_left check_stmt (flat_map subtree ss) d
       = d ++ flat_map (chains false) ss.
Proof.
  induction 1 as [|s ss Hs _ IH]; intros Hnodup d Hfresh; simpl.
  - by rewrite app_nil_r.
  - simpl in Hnodup, Hfresh.
    apply NoDup_ids_app in Hnodup as (Hs_nodup & Hdisjoint & Hss_nodup).
    rewrite fold_left_app.
    rewrite (proj1 (Hs Hs_nodup))
      by (eapply fresh_incl; [|exact Hfresh];
          intros x; rewrite ids_app, elem_of_app; tauto).
    rewrite IH, <- app_assoc; [done..|].
    apply fresh_app. split.
    + eapply fresh_incl; [|exact Hfresh].
      intros x; rewrite ids_app, elem_of_app; tauto.
    + intros x Hx Hmentions. apply chains_subtree in Hmentions.
      by apply (Hdisjoint x).
Qed.

Lemma below_cons s ss : below (s :: ss) = below [s] ++ below ss.
Proof. unfold below. simpl. by rewrite app_nil_r. Qed.

Lemma below_single s : below [s] = flat_map subtree (children s).
Proof. unfold below. simpl. by rewrite app_nil_r. Qed.

Lemma sweeps_forest_rooted ss :
  Forall sweeps ss → NoDup (ids (flat_map subtree ss)) →
  ∀ d1 r l d2,
    fresh (below ss) (d1 ++ (r, l) :: d2) →
    Forall (λ s, rooted_at s d1 r l) ss →
    ast.nid_of r ∉ keys d1 → ast.nid_of r ∉ keys d2 →
    fold_left check_stmt (flat_map subtree ss) (d1 ++ (r, l) :: d2)
    = d1 ++ (r, l ++ flat_map members ss)
         :: d2 ++ flat_map (chains true) ss.
Proof.
  induction 1 as [|s ss Hs _ IH];
    intros Hnodup d1 r l d2 Hfresh Hrooted Hr1 Hr2; simpl.
  - by rewrite !app_nil_r.
  - simpl in Hnodup.
    apply NoDup_ids_app in Hnodup as (Hs_nodup & Hdisjoint & Hss_nodup).
    apply Forall_cons in Hrooted as [Hs_rooted Hss_rooted].
    rewrite below_cons in Hfresh.
    assert (Hfresh_s : fresh (below [s]) (d1 ++ (r, l) :: d2)).
    { eapply fresh_incl; [|exact Hfresh].
      intros x. rewrite ids_app, elem_of_app. tauto. }
    assert (Hfresh_ss : fresh (below ss) (d1 ++ (r, l) :: d2)).
    { eapply fresh_incl; [|exact Hfresh].
      intros x. rewrite ids_app, elem_of_app. tauto. }
    assert (Hr_s : ast.nid_of r ∉ ids (subtree s)).
    { rewrite subtree_children, ids_cons, elem_of_cons, <- below_single.
      intros [Heq|Hbelow].
      - destruct Hs_rooted as (_ & _ & Hne). congruence.
      - apply (Hfresh_s _ Hbelow).
        rewrite mentions_app, mentions_cons. tauto. }
    rewrite fold_left_app.
    rewrite (proj2 (Hs Hs_nodup)) by done.
    rewrite IH; [by rewrite <- !app_assoc|done|..].
    + intros x Hx. specialize (Hfresh_ss x Hx).
      apply below_forest in Hx.
      rewrite mentions_app, mentions_cons in Hfresh_ss.
      rewrite mentions_app, mentions_cons, ids_app, elem_of_app,
        mentions_app.
      intros [?|[?|[[?|Hm]|[?|Hc]]]]; try tauto.
      * apply members_subtree in Hm. by apply (Hdisjoint x).
      * apply chains_subtree in Hc. by apply (Hdisjoint x).
    + eapply Forall_impl; [exact Hss_rooted|].
      intros s' (Hin & Hmember & Hne). split_and!; [|done..].
      rewrite ids_app, elem_of_app. tauto.
    + done.
    + rewrite keys_app, elem_of_app. intros [?|Hk]; [done|].
      apply Hr_s, (chains_subtree s true). by left.
Qed.

Lemma sweeps_not_step s :
  elif_step s = false → Forall sweeps (children s) → sweeps s.
Proof.
  intros Hstep IH Hnodup.
  destruct (chains_not_step false s Hstep) as [Hchains Hmembers].
  destruct (chains_not_step true s Hstep) as [Hchains' _].
  rewrite Hchains, Hchains', Hmembers. clear Hchains Hchains' Hmembers.
  rewrite subtree_children in *. rewrite ids_cons in Hnodup.
  apply NoDup_cons in Hnodup as [_ Hnodup].
  split.
  - intros d Hfresh. simpl. rewrite check_elifs_not_step by done.
    apply sweeps_forest; [done..|].
    eapply fresh_incl; [|exact Hfresh].
    intros x. rewrite ids_cons, elem_of_cons. tauto.
  - intros d1 r l d2 Hfresh Hrooted Hr1 Hr2. simpl.
    rewrite check_elifs_not_step by done. rewrite below_single in Hfresh.
    rewrite sweeps_forest by done. by rewrite app_nil_r, <- app_assoc.
Qed.

Lemma sweeps_step n test body orelse :
  forallb ast.isinstance_If orelse = true →
  Forall sweeps body → Forall sweeps orelse →
  sweeps (ast.If n test body orelse).
Proof.
  intros Hall IHbody IHorelse Hnodup.
  set (s := ast.If n test body orelse) in *.
  assert (Hstep : elif_step s = true)
    by (unfold elif_step, s; simpl; by rewrite Hall).
  unfold s in Hnodup. rewrite subtree_If in Hnodup. fold s in Hnodup.
  rewrite ids_cons in Hnodup. apply NoDup_cons in Hnodup as [Hs Hnodup].
  apply NoDup_ids_app in Hnodup as (Hbody & Hdisjoint & Horelse).
  rewrite ids_app, elem_of_app in Hs.
  assert (Hsub : ∀ x, x ∈ ids (subtree s)
                      ↔ x = n ∨ x ∈ ids (flat_map subtree body)
                        ∨ x ∈ ids (flat_map subtree orelse)).
  { intros x. unfold s. by rewrite subtree_If, ids_cons, ids_app,
      elem_of_cons, elem_of_app. }
  assert (Hbelow : ∀ x, x ∈ ids (below [s])
                        ↔ x ∈ ids (flat_map subtree body)
                          ∨ x ∈ ids (flat_map subtree orelse)).
  { intros x. rewrite below_single. unfold s. cbn [children].
    by rewrite flat_map_app, ids_app, elem_of_app. }
  assert (Hmembers : members s = s :: orelse ++ flat_map members orelse).
  { unfold s. by rewrite members_If, Hall. }
  assert (Hchains : ∀ rooted,
            chains rooted s
            = (if rooted then []
               else [(s, orelse ++ flat_map members orelse)])
              ++ flat_map (chains false) body
              ++ flat_map (chains true) orelse).
  { intros rooted. unfold s. by rewrite chains_If, Hall. }
  assert (Hstart : ∀ d, fold_left check_stmt (subtree s) d
                        = fold_left check_stmt (flat_map subtree orelse)
                            (fold_left check_stmt (flat_map subtree body)
                               (check_stmt d s))).
  { intros d. unfold s at 1. by rewrite subtree_If; simpl;
      rewrite fold_left_app. }
  split.
  - intros d Hfresh. rewrite Hstart, Hchains.
    rewrite check_elifs_unrooted; [|done|..].
    2:{ intros Hx. apply (Hfresh n); [apply Hsub; by left | by right]. }
    2:{ intros Hx. apply (Hfresh n); [apply Hsub; by left | by left]. }
    change (ElifVisitor.orelse_of s) with orelse.
    rewrite (sweeps_forest body); [|done..|].
    2:{ apply fresh_app. split.
        - eapply fresh_incl; [|exact Hfresh]. intros x Hx. apply Hsub. tauto.
        - intros x Hx. rewrite mentions_cons, mentions_nil.
          intros [->|[Hx'|[]]]; [tauto|].
          apply ids_forest in Hx'. by apply (Hdisjoint x). }
    rewrite <- app_assoc. simpl.
    rewrite sweeps_forest_rooted; [done..| | | |].
    + intros x Hx. apply below_forest in Hx as Hx'.
      rewrite mentions_app, mentions_cons.
      intros [Hd|[->|[Hl|Hc]]].
      * apply (Hfresh x); [apply Hsub; tauto | done].
      * tauto.
      * by apply (below_not_top orelse x Horelse Hl).
      * apply chains_forest in Hc. by apply (Hdisjoint x).
    + apply Forall_forall. intros o Ho.
      assert (Ho' : ast.nid_of o ∈ ids (flat_map subtree orelse))
        by (by apply ids_forest, list_elem_of_fmap_2).
      split_and!.
      * by apply list_elem_of_fmap_2.
      * intros Hx. apply (Hfresh (ast.nid_of o)); [apply Hsub; tauto|].
        by right.
      * intros Heq. rewrite Heq in Ho'. tauto.
    + intros Hx. apply (Hfresh n); [apply Hsub; by left | by left].
    + intros Hx. apply Hs. left. apply (chains_forest false). by left.
  - intros d1 r l d2 Hfresh (Hin & Hmember & Hne) Hr1 Hr2.
    rewrite Hstart, Hchains, Hmembers.
    rewrite check_elifs_rooted by done.
    change (ElifVisitor.orelse_of s) with orelse.
    assert (Hr : ∀ x, x ∈ ids (below [s]) → x ≠ ast.nid_of r).
    { intros x Hx ->. apply (Hfresh _ Hx).
      rewrite mentions_app, mentions_cons. tauto. }
    rewrite (sweeps_forest body); [|done..|].
    2:{ intros x Hx. specialize (Hfresh x (proj2 (Hbelow x) (or_introl Hx))).
        rewrite mentions_app, mentions_cons in Hfresh.
        rewrite mentions_app, mentions_cons, ids_app, ids_cons,
          elem_of_app, elem_of_cons.
        intros [?|[?|[[?|[->|Hx']]|?]]]; try tauto.
        apply ids_forest in Hx'. by apply (Hdisjoint x). }
    rewrite <- app_assoc. simpl.
    rewrite sweeps_forest_rooted; [by rewrite <- !app_assoc|done..| | | |].
    + intros x Hx. apply below_forest in Hx as Hx'.
      specialize (Hfresh x (proj2 (Hbelow x) (or_intror Hx'))).
      rewrite mentions_app, mentions_cons in Hfresh.
      rewrite mentions_app, mentions_cons, ids_app, ids_cons,
        elem_of_app, elem_of_cons, mentions_app.
      intros [?|[?|[[?|[->|Hl]]|[?|Hc]]]]; try tauto.
      * by apply (below_not_top orelse x Horelse Hl).
      * apply chains_forest in Hc. by apply (Hdisjoint x).
    + apply Forall_forall. intros o Ho.
      assert (Ho' : ast.nid_of o ∈ ids (flat_map subtree orelse))
        by (by apply ids_forest, list_elem_of_fmap_2).
      split_and!.
      * rewrite ids_app, ids_cons, elem_of_app, elem_of_cons.
        right; right. by apply list_elem_of_fmap_2.
      * intros Hx.
        apply (Hfresh (ast.nid_of o)); [apply Hbelow; tauto|].
        rewrite mentions_app. left. by right.
      * apply Hr, Hbelow. tauto.
    + done.
    + rewrite keys_app, elem_of_app. intros [?|Hk]; [done|].
      apply (Hr (ast.nid_of r)); [|done].
      apply Hbelow. left. apply (chains_forest false). by left.
Qed.

Lemma sweeps_all s : sweeps s.
Proof.
  induction s as [s IH] using stmt_children_ind.
  destruct (elif_step s) eqn:Hstep; [|by apply sweeps_not_step].
  destruct (elif_step_If s Hstep) as (n & test & body & orelse & -> & Hall).
  cbn [children] in IH. apply Forall_app in IH as [IHbody IHorelse].
  by apply sweeps_step.
Qed.

(** ** [ElifVisitor]: the run over a tree *)

Lemma elif_fold_stmts l st :
  ElifVisitor._if_children (fold_left (fire_stmt ElifVisitor.visit) l st)
  = fold_left check_stmt (snd <$> l) (ElifVisitor._if_children st)
  ∧ ElifVisitor.violations (fold_left (fire_stmt ElifVisitor.visit) l st)
    = ElifVisitor.violations st.
Proof.
  revert st. induction l as [|[c s] l IH]; intros st; [done|]. csimpl.
  destruct (IH (fire_stmt ElifVisitor.visit st (c, s))) as [-> ->].
  unfold fire_stmt, check_stmt. by destruct s.
Qed.

Lemma elif_walk tree :
  unique_ids tree →
  ElifVisitor._if_children (ElifVisitor.walk tree)
  = flat_map (chains false) tree
  ∧ ElifVisitor.violations (ElifVisitor.walk tree) = [].
Proof.
  intros Hunique. unfold ElifVisitor.walk.
  rewrite (visit_tree_stmts ElifVisitor.visit) by done.
  destruct (elif_fold_stmts (scoped_stmts tree) ElifVisitor.__init__)
    as [-> ->].
  split; [|done]. fold (stmts_of tree). unfold unique_ids in Hunique.
  rewrite stmts_of_subtree in *.
  apply (sweeps_forest tree); [|done|by intros x _ ?%mentions_nil].
  apply Forall_forall. intros s _. apply sweeps_all.
Qed.

Lemma elif_post_visit MAX_ELIFS st :
  ElifVisitor.violations (ElifVisitor._post_visit MAX_ELIFS st)
  = ElifVisitor.violations st
    ++ flat_map (entry_violations MAX_ELIFS) (ElifVisitor._if_children st).
Proof.
  unfold ElifVisitor._post_visit.
  generalize (ElifVisitor._if_children st) as d.
  intros d. revert st. induction d as [|kv d IH]; intros st; simpl.
  - by rewrite app_nil_r.
  - rewrite IH. unfold entry_violations, elifs_violation.
    case_match; simpl; [by rewrite <- app_assoc | done].
Qed.

Lemma elif_run MAX_ELIFS tree :
  unique_ids tree →
  ElifVisitor.run MAX_ELIFS tree
  = flat_map (entry_violations MAX_ELIFS) (flat_map (chains false) tree).
Proof.
  intros Hunique. unfold ElifVisitor.run. rewrite elif_post_visit.
  by destruct (elif_walk tree Hunique) as [-> ->].
Qed.

(** ** [ElifVisitor]: the keys of the dictionary *)

Lemma sublist_flat_map {A B} (f g : A → list B) l :
  Forall (λ x, f x `sublist_of` g x) l →
  flat_map f l `sublist_of` flat_map g l.
Proof.
  induction 1 as [|x l Hx _ IH]; simpl; [constructor | by apply sublist_app].
Qed.

Lemma keys_chains_sublist s :
  ∀ rooted, keys (chains rooted s) `sublist_of` ids (subtree s).
Proof.
  induction s as [s IH] using stmt_children_ind. intros rooted.
  assert (Hforest : ∀ rooted' ss,
            Forall (λ s, ∀ rooted, keys (chains rooted s)
                                   `sublist_of` ids (subtree s)) ss →
            keys (flat_map (chains rooted') ss)
            `sublist_of` ids (flat_map subtree ss)).
  { intros rooted' ss Hss. rewrite keys_flat_map, ids_flat_map.
    apply sublist_flat_map.
    eapply Forall_impl; [exact Hss | intros s' Hs'; apply Hs']. }
  destruct (elif_step s) eqn:Hstep.
  - destruct (elif_step_If s Hstep) as (n & test & body & orelse & -> & Hall).
    cbn [children] in IH. apply Forall_app in IH as [IHbody IHorelse].
    rewrite chains_If, Hall, subtree_If, ids_cons, ids_app.
    destruct rooted; simpl app.
    + rewrite keys_app. apply sublist_cons, sublist_app; by apply Hforest.
    + change (keys (?kv :: ?d)) with (ast.nid_of (fst kv) :: keys d).
      rewrite keys_app. apply sublist_skip, sublist_app; by apply Hforest.
  - destruct (chains_not_step rooted s Hstep) as [-> _].
    rewrite subtree_children, ids_cons. by apply sublist_cons, Hforest.
Qed.

Lemma keys_chains_NoDup tree :
  unique_ids tree → NoDup (keys (flat_map (chains false) tree)).
Proof.
  unfold unique_ids. rewrite stmts_of_subtree. intros Hunique.
  eapply sublist_NoDup; [exact Hunique|].
  rewrite keys_flat_map, ids_flat_map. apply sublist_flat_map, Forall_forall.
  intros s _. apply keys_chains_sublist.
Qed.

Lemma keys_chains_true_below s x :
  x ∈ keys (chains true s) → x ∈ ids (below [s]).
Proof.
  rewrite below_single. destruct (elif_step s) eqn:Hstep.
  - destruct (elif_step_If s Hstep) as (n & test & body & orelse & -> & Hall).
    rewrite chains_If, Hall. cbn [children]. simpl app.
    rewrite keys_app, flat_map_app, ids_app, !elem_of_app.
    intros [Hx|Hx]; [left | right];
      (eapply chains_forest; left; exact Hx).
  - destruct (chains_not_step true s Hstep) as [-> _].
    intros Hx. eapply chains_forest. left. exact Hx.
Qed.

Lemma keys_chains_true_below_forest ss x :
  x ∈ keys (flat_map (chains true) ss) → x ∈ ids (below ss).
Proof.
  induction ss as [|s ss IH]; [by intros ?%elem_of_nil|].
  rewrite below_cons. cbn [flat_map].
  rewrite keys_app, ids_app, !elem_of_app.
  intros [Hx|Hx]; [left; by apply keys_chains_true_below | right; by apply IH].
Qed.

Lemma forest_disjoint (f g : ast.stmt → list nat) ss :
  (∀ s x, x ∈ f s → x ∈ ids (subtree s)) →
  (∀ s x, x ∈ g s → x ∈ ids (subtree s)) →
  Forall (λ s, NoDup (ids (subtree s)) → ∀ x, x ∈ f s → x ∉ g s) ss →
  NoDup (ids (flat_map subtree ss)) →
  ∀ x, x ∈ flat_map f ss → x ∉ flat_map g ss.
Proof.
  intros Hf Hg. induction 1 as [|s ss Hs _ IH]; simpl; intros Hnodup x.
  - by intros ?%elem_of_nil.
  - apply NoDup_ids_app in Hnodup as (Hs_nodup & Hdisjoint & Hss_nodup).
    assert (Hf' : ∀ x, x ∈ flat_map f ss → x ∈ ids (flat_map subtree ss)).
    { rewrite ids_flat_map. apply forest_incl, Forall_forall.
      intros s' _. apply Hf. }
    assert (Hg' : ∀ x, x ∈ flat_map g ss → x ∈ ids (flat_map subtree ss)).
    { rewrite ids_flat_map. apply forest_incl, Forall_forall.
      intros s' _. apply Hg. }
    rewrite !elem_of_app. intros [Hx|Hx] [Hx'|Hx'].
    + by apply (Hs Hs_nodup x).
    + apply (Hdisjoint x); auto.
    + apply (Hdisjoint x); auto.
    + by apply (IH Hss_nodup x).
Qed.

Lemma keys_members_disjoint s :
  NoDup (ids (subtree s)) →
  (∀ rooted x, x ∈ keys (chains rooted s) →
               x ∉ member_ids (chains rooted s))
  ∧ (∀ x, x ∈ keys (chains true s) → x ∉ ids (members s)).
Proof.
  induction s as [s IH] using stmt_children_ind. intros Hnodup.
  assert (Hkeys : ∀ rooted s x,
            x ∈ keys (chains rooted s) → x ∈ ids (subtree s))
    by (intros rooted s' x Hx; eapply chains_subtree; left; exact Hx).
  assert (Hmember : ∀ rooted s x,
            x ∈ member_ids (chains rooted s) → x ∈ ids (subtree s))
    by (intros rooted s' x Hx; eapply chains_subtree; right; exact Hx).
  assert (Hforest : ∀ rooted ss,
    Forall (λ s, NoDup (ids (subtree s)) →
                 (∀ rooted x, x ∈ keys (chains rooted s) →
                              x ∉ member_ids (chains rooted s))
                 ∧ (∀ x, x ∈ keys (chains true s) → x ∉ ids (members s)))
      ss →
    NoDup (ids (flat_map subtree ss)) →
    ∀ x, x ∈ keys (flat_map (chains rooted) ss) →
         x ∉ member_ids (flat_map (chains rooted) ss)).
  { intros rooted ss Hss Hss_nodup x.
    rewrite keys_flat_map, member_ids_flat_map.
    apply forest_disjoint; [by apply Hkeys | by apply Hmember | | done].
    eapply Forall_impl; [exact Hss|]. intros s' Hs' Hs'_nodup.
    by apply Hs'. }
  destruct (elif_step s) eqn:Hstep.
  - destruct (elif_step_If s Hstep) as (n & test & body & orelse & -> & Hall).
    cbn [children] in IH. apply Forall_app in IH as [IHbody IHorelse].
    rewrite subtree_If, ids_cons in Hnodup.
    apply NoDup_cons in Hnodup as [Hn Hnodup].
    apply NoDup_ids_app in Hnodup as (Hbody & Hdisjoint & Horelse).
    rewrite ids_app, elem_of_app in Hn.
    pose proof (Hforest false body IHbody Hbody) as Dbody.
    pose proof (Hforest true orelse IHorelse Horelse) as Dorelse.
    assert (Dmembers : ∀ x, x ∈ keys (flat_map (chains true) orelse) →
                            x ∉ ids (flat_map members orelse)).
    { intros x. rewrite keys_flat_map, ids_flat_map.
      apply forest_disjoint;
        [by apply Hkeys | apply members_subtree | | done].
      eapply Forall_impl; [exact IHorelse|]. intros s' Hs' Hs'_nodup.
      by apply Hs'. }
    assert (Dtops : ∀ x, x ∈ keys (flat_map (chains true) orelse) →
                         x ∉ ids orelse).
    { intros x Hx%keys_chains_true_below_forest Htop.
      by apply (below_not_top orelse x). }
    assert (Fbody : ∀ x, mentions (flat_map (chains false) body) x →
                         x ∈ ids (flat_map subtree body))
      by (intros x; apply chains_forest).
    assert (Forelse : ∀ x, mentions (flat_map (chains true) orelse) x →
                           x ∈ ids (flat_map subtree orelse))
      by (intros x; apply chains_forest).
    pose proof (members_forest orelse) as Fmembers.
    pose proof (ids_forest orelse) as Ftops.
    unfold mentions in Fbody, Forelse.
    assert (Hrooted : ∀ x,
              x ∈ keys (flat_map (chains false) body
                        ++ flat_map (chains true) orelse) →
              (x ∉ ids orelse) ∧ (x ∉ ids (flat_map members orelse))
              ∧ (x ∉ member_ids (flat_map (chains false) body
                                 ++ flat_map (chains true) orelse))
              ∧ x ≠ n).
    { intros x. rewrite keys_app, member_ids_app, !elem_of_app.
      intros [Hx|Hx].
      - specialize (Dbody x Hx). specialize (Hdisjoint x).
        assert (x ∈ ids (flat_map subtree body)) by auto.
        split_and!; [naive_solver..|]. intros ->. tauto.
      - specialize (Dorelse x Hx). specialize (Hdisjoint x).
        assert (x ∈ ids (flat_map subtree orelse)) by auto.
        split_and!; [naive_solver..|]. intros ->. tauto. }
    rewrite members_If, Hall. split.
    + intros rooted x. rewrite chains_If, Hall.
      destruct rooted; simpl app.
      * intros Hx. by apply Hrooted.
      * change (keys (?kv :: ?d)) with (ast.nid_of (fst kv) :: keys d).
        change (member_ids (?kv :: ?d))
          with (ids (snd kv) ++ member_ids d).
        simpl fst. simpl snd.
        rewrite elem_of_cons, ids_app, !elem_of_app.
        intros [->|Hx].
        -- rewrite member_ids_app, elem_of_app. naive_solver.
        -- specialize (Hrooted x Hx). tauto.
    + intros x. rewrite chains_If, Hall. simpl app. intros Hx.
      specialize (Hrooted x Hx).
      rewrite ids_cons, ids_app, elem_of_cons, elem_of_app. tauto.
  - destruct (chains_not_step true s Hstep) as [Htrue ->].
    destruct (chains_not_step false s Hstep) as [Hfalse _].
    rewrite subtree_children, ids_cons in Hnodup.
    apply NoDup_cons in Hnodup as [_ Hnodup].
    split; [|by intros x _ ?%elem_of_nil].
    intros rooted x. destruct rooted; rewrite ?Htrue, ?Hfalse;
      by apply Hforest.
Qed.

(** ** [ElifVisitor]: the entries of the dictionary *)

Lemma chains_entry s :
  ∀ rooted r l, (r, l) ∈ chains rooted s →
    elif_step r = true
    ∧ l = ElifVisitor.orelse_of r ++ flat_map members (ElifVisitor.orelse_of r)
    ∧ r ∈ subtree s.
Proof.
  induction s as [s IH] using stmt_children_ind. intros rooted r l.
  assert (Hforest : ∀ rooted' ss,
    Forall (λ s, ∀ rooted r l, (r, l) ∈ chains rooted s →
                   elif_step r = true
                   ∧ l = ElifVisitor.orelse_of r
                         ++ flat_map members (ElifVisitor.orelse_of r)
                   ∧ r ∈ subtree s) ss →
    (r, l) ∈ flat_map (chains rooted') ss →
    elif_step r = true
    ∧ l = ElifVisitor.orelse_of r ++ flat_map members (ElifVisitor.orelse_of r)
    ∧ r ∈ flat_map subtree ss).
  { intros rooted' ss Hss. rewrite Forall_forall in Hss.
    rewrite !list_elem_of_In, !in_flat_map.
    intros (s' & Hs' & Hin). apply list_elem_of_In in Hs', Hin.
    destruct (Hss s' Hs' rooted' r l Hin) as (? & ? & ?).
    split_and!; [done..|]. exists s'. by rewrite <- !list_elem_of_In. }
  destruct (elif_step s) eqn:Hstep.
  - destruct (elif_step_If s Hstep) as (n & test & body & orelse & -> & Hall).
    cbn [children] in IH. apply Forall_app in IH as [IHbody IHorelse].
    rewrite chains_If, Hall, subtree_If, !elem_of_app, elem_of_cons,
      elem_of_app.
    intros [Hin|[Hin|Hin]].
    + destruct rooted; [by apply elem_of_nil in Hin|].
      apply list_elem_of_singleton in Hin. simplify_eq. split_and!; auto.
    + destruct (Hforest false body IHbody Hin) as (? & ? & ?). auto.
    + destruct (Hforest true orelse IHorelse Hin) as (? & ? & ?). auto.
  - destruct (chains_not_step rooted s Hstep) as [-> _].
    rewrite subtree_children, elem_of_cons. intros Hin.
    destruct (Hforest false (children s) IH Hin) as (? & ? & ?). auto.
Qed.

Lemma elif_nodes_not_step s : elif_step s = false → elif_nodes s = [].
Proof.
  destruct s; try done. unfold elif_step. simpl. by intros ->.
Qed.

Lemma elif_nodes_members s :
  ∀ x, x ∈ ids (s :: elif_nodes s) ↔ x ∈ ids (s :: members s).
Proof.
  induction s as [s IH] using stmt_children_ind. intros x.
  destruct (elif_step s) eqn:Hstep.
  - destruct (elif_step_If s Hstep) as (n & test & body & orelse & -> & Hall).
    cbn [children] in IH. apply Forall_app in IH as [_ IH].
    rewrite members_If. cbn [elif_nodes]. rewrite Hall.
    rewrite !ids_cons, ids_app, !elem_of_cons, elem_of_app.
    enough (x ∈ ids (flat_map (λ o, o :: elif_nodes o) orelse)
            ↔ x ∈ ids orelse ∨ x ∈ ids (flat_map members orelse)) by tauto.
    clear Hstep Hall. induction IH as [|o orelse Ho _ IH]; simpl.
    + unfold ids. csimpl. rewrite elem_of_nil. tauto.
    + specialize (Ho x).
      rewrite !ids_cons, !elem_of_cons in Ho.
      rewrite !ids_app, !elem_of_cons, !elem_of_app. tauto.
  - destruct (chains_not_step false s Hstep) as [_ ->].
    by rewrite elif_nodes_not_step.
Qed.

Lemma elif_nodes_root s x :
  elif_step s = true →
  x ∈ ids (elif_nodes s)
  ↔ x ∈ ids (ElifVisitor.orelse_of s
             ++ flat_map members (ElifVisitor.orelse_of s)).
Proof.
  intros Hstep.
  destruct (elif_step_If s Hstep) as (n & test & body & orelse & -> & Hall).
  cbn [elif_nodes ElifVisitor.orelse_of]. rewrite Hall, ids_app, elem_of_app.
  clear Hstep Hall. induction orelse as [|o orelse IH]; simpl.
  - unfold ids. csimpl. rewrite elem_of_nil. tauto.
  - pose proof (elif_nodes_members o x) as Ho.
    rewrite !ids_cons, !elem_of_cons in Ho.
    rewrite !ids_app, !elem_of_cons, !elem_of_app. tauto.
Qed.

Lemma elif_nodes_sublist s : ids (elif_nodes s) `sublist_of` ids (below [s]).
Proof.
  induction s as [s IH] using stmt_children_ind.
  destruct (elif_step s) eqn:Hstep.
  - destruct (elif_step_If s Hstep) as (n & test & body & orelse & -> & Hall).
    cbn [children] in IH. apply Forall_app in IH as [_ IH].
    rewrite below_single. cbn [elif_nodes children].
    rewrite Hall, flat_map_app, ids_app. apply sublist_inserts_l.
    rewrite !ids_flat_map. apply sublist_flat_map.
    eapply Forall_impl; [exact IH|]. intros o Ho. simpl in Ho.
    rewrite subtree_children, <- below_single, !ids_cons.
    by apply sublist_skip.
  - rewrite elif_nodes_not_step by done. apply sublist_nil_l.
Qed.

Lemma elif_nodes_NoDup s :
  NoDup (ids (subtree s)) → NoDup (ids (elif_nodes s)).
Proof.
  rewrite subtree_children, <- below_single, ids_cons.
  intros [_ Hnodup]%NoDup_cons.
  eapply sublist_NoDup; [exact Hnodup | apply elif_nodes_sublist].
Qed.

Lemma elif_chain_If N s : elif_chain N s → ast.isinstance_If s = true.
Proof. by destruct 1. Qed.

Lemma elif_chain_nodes N s : elif_chain N s → length (elif_nodes s) = N.
Proof.
  induction 1 as [n test body orelse Hall|N n test body next Hnext IH];
    cbn [elif_nodes].
  - by rewrite Hall.
  - simpl forallb. rewrite (elif_chain_If N next Hnext). simpl.
    by rewrite app_nil_r, IH.
Qed.

(** ** [ElifVisitor]: one violation for a whole cascade *)

Lemma children_of_entry d root l :
  NoDup (keys d) → (root, l) ∈ d → children_of root d = Some l.
Proof.
  unfold children_of. induction d as [|[k l'] d IH]; intros Hnodup Hin.
  - by apply elem_of_nil in Hin.
  - change (keys ((k, l') :: d)) with (ast.nid_of k :: keys d) in Hnodup.
    apply NoDup_cons in Hnodup as [Hk Hnodup]. simpl.
    apply elem_of_cons in Hin as [Heq|Hin].
    + simplify_eq. by rewrite is_refl.
    + destruct (ast.is_ k root) eqn:His; [|by apply IH].
      apply is_nid in His. destruct Hk. rewrite His.
      unfold keys, ids. rewrite <- list_fmap_compose.
      by apply (list_elem_of_fmap_2' _ _ (root, l)).
Qed.

Lemma anchored_at_entry MAX_ELIFS m kv :
  ast.nid_of (fst kv) ≠ ast.nid_of m →
  List.filter (anchored_at m) (entry_violations MAX_ELIFS kv) = [].
Proof.
  intros Hne. unfold entry_violations. case_match; [|done]. simpl.
  unfold anchored_at. simpl. by rewrite (proj2 (is_false (fst kv) m)).
Qed.

Lemma filter_anchored_none MAX_ELIFS d m :
  ast.nid_of m ∉ keys d →
  List.filter (anchored_at m) (flat_map (entry_violations MAX_ELIFS) d) = [].
Proof.
  induction d as [|[k l] d IH]; intros Hm; [done|].
  change (keys ((k, l) :: d)) with (ast.nid_of k :: keys d) in Hm.
  apply not_elem_of_cons in Hm as [Hne Hm]. simpl.
  rewrite List.filter_app, anchored_at_entry by (simpl; congruence).
  by apply IH.
Qed.

Lemma filter_anchored_entry MAX_ELIFS d root l :
  NoDup (keys d) → (root, l) ∈ d →
  List.filter (anchored_at root) (flat_map (entry_violations MAX_ELIFS) d)
  = entry_violations MAX_ELIFS (root, l).
Proof.
  induction d as [|[k l'] d IH]; intros Hnodup Hin.
  - by apply elem_of_nil in Hin.
  - change (keys ((k, l') :: d)) with (ast.nid_of k :: keys d) in Hnodup.
    apply NoDup_cons in Hnodup as [Hk Hnodup]. simpl.
    rewrite List.filter_app. apply elem_of_cons in Hin as [Heq|Hin].
    + simplify_eq. rewrite filter_anchored_none by done.
      rewrite app_nil_r. unfold entry_violations. case_match; [|done].
      simpl. unfold anchored_at. simpl. by rewrite is_refl.
    + rewrite anchored_at_entry; [by apply IH|]. simpl.
      intros Heq. destruct Hk. rewrite Heq.
      unfold keys, ids. rewrite <- list_fmap_compose.
      by apply (list_elem_of_fmap_2' _ _ (root, l)).
Qed.

Lemma sublist_flat_map_elem {A B} (f : A → list B) l x :
  x ∈ l → f x `sublist_of` flat_map f l.
Proof.
  induction 1 as [x l|x y l _ IH]; simpl.
  - by apply sublist_inserts_r.
  - by apply sublist_inserts_l.
Qed.

Lemma subtree_sublist s :
  ∀ r, r ∈ subtree s → subtree r `sublist_of` subtree s.
Proof.
  induction s as [s IH] using stmt_children_ind. intros r.
  rewrite (subtree_children s), elem_of_cons. intros [->|Hr].
  - by rewrite <- subtree_children.
  - apply sublist_cons.
    apply list_elem_of_In, in_flat_map in Hr as (c & Hc & Hr).
    apply list_elem_of_In in Hc, Hr. rewrite Forall_forall in IH.
    etrans; [by apply (IH c) | by apply sublist_flat_map_elem].
Qed.

Lemma subtree_NoDup tree s r :
  unique_ids tree → s ∈ tree → r ∈ subtree s → NoDup (ids (subtree r)).
Proof.
  unfold unique_ids. rewrite stmts_of_subtree. intros Hunique Hs Hr.
  eapply sublist_NoDup; [exact Hunique|]. apply fmap_sublist.
  etrans; [by apply subtree_sublist | by apply sublist_flat_map_elem].
Qed.

Lemma keys_members_disjoint_tree tree x :
  unique_ids tree →
  x ∈ keys (flat_map (chains false) tree) →
  x ∉ member_ids (flat_map (chains false) tree).
Proof.
  unfold unique_ids. rewrite stmts_of_subtree. intros Hunique.
  rewrite keys_flat_map, member_ids_flat_map.
  apply forest_disjoint; [| | |done].
  - intros s y Hy. eapply chains_subtree. left. exact Hy.
  - intros s y Hy. eapply chains_subtree. right. exact Hy.
  - apply Forall_forall. intros s _ Hnodup.
    by apply (keys_members_disjoint s).
Qed.

(** The cascade below any outermost conditional, whatever its shape: the
    number of distinct members is the number of the conditionals of the
    cascade, and the cascade yields at most one violation, at its root. *)
Lemma elif_cascade MAX_ELIFS tree root :
  unique_ids tree → root ∈ cascades tree →
  let count := len (elif_nodes root) in
  (∃ children,
     children_of root (ElifVisitor._if_children (ElifVisitor.walk tree))
     = Some children
     ∧ ElifVisitor.real_children_length children = count)
  ∧ List.filter (anchored_at root) (ElifVisitor.run MAX_ELIFS tree)
    = (if count >? MAX_ELIFS
       then [elifs_violation MAX_ELIFS root count] else [])
  ∧ (∀ m, m ∈ elif_nodes root →
          List.filter (anchored_at m) (ElifVisitor.run MAX_ELIFS tree) = []).
Proof.
  intros Hunique Hroot. simpl.
  destruct (elif_walk tree Hunique) as [Hdict _]. rewrite Hdict.
  rewrite (elif_run MAX_ELIFS tree Hunique).
  pose proof (keys_chains_NoDup tree Hunique) as Hkeys.
  apply list_elem_of_fmap in Hroot as ([root' l] & -> & Hentry). simpl.
  assert (Hentry' := Hentry).
  apply list_elem_of_In, in_flat_map in Hentry' as (s & Hs & Hin).
  apply list_elem_of_In in Hs, Hin.
  destruct (chains_entry s false root' l Hin) as (Hstep & Hl & Hsub).
  pose proof (subtree_NoDup tree s root' Hunique Hs Hsub) as Hnodup.
  assert (Hcount : ElifVisitor.real_children_length l
                   = len (elif_nodes root')).
  { unfold ElifVisitor.real_children_length, len. f_equal.
    rewrite <- (length_fmap ast.nid_of (elif_nodes root')).
    apply Permutation_length, NoDup_Permutation.
    - apply NoDup_remove_dups.
    - by apply elif_nodes_NoDup.
    - intros x. rewrite elem_of_remove_dups. fold (ids l).
      fold (ids (elif_nodes root')). by rewrite Hl, elif_nodes_root. }
  split_and!.
  - exists l. split; [by apply children_of_entry | done].
  - rewrite (filter_anchored_entry _ _ root' l) by done.
    unfold entry_violations. simpl. by rewrite Hcount.
  - intros m Hm. apply filter_anchored_none. intros Hkey.
    apply (keys_members_disjoint_tree tree _ Hunique Hkey).
    apply list_elem_of_In, in_flat_map. exists (root', l).
    split; [by apply list_elem_of_In|]. apply list_elem_of_In. simpl.
    rewrite Hl. apply elif_nodes_root; [done|].
    by apply list_elem_of_fmap_2.
Qed.

(** A conditional of the module body with an all-conditional alternative
    branch is the root of a cascade. *)
Lemma cascades_top_level tree root :
  root ∈ tree → elif_step root = true → root ∈ cascades tree.
Proof.
  intros Hroot Hstep.
  destruct (elif_step_If root Hstep)
    as (n & test & body & orelse & -> & Hall).
  unfold cascades. rewrite fmap_flat_map.
  apply list_elem_of_In, in_flat_map. eexists. split.
  - apply list_elem_of_In, Hroot.
  - rewrite chains_If, Hall. by left.
Qed.

(** C4.  For a cascade of [N] nested [elif]s whose last [else] block is no
    conditional, rooted at an outermost conditional of the tree: the list
    recorded for the root holds exactly [N] distinct members; the run emits
    one violation anchored at the root, carrying [N], exactly when [N]
    exceeds [MAX_ELIFS], and none anchored at the root otherwise; and no
    violation is anchored at any [elif] of the cascade. *)
Theorem elif_cascade_counted_once
    (MAX_ELIFS : Z) (tree : list ast.stmt) (root : ast.stmt) (N : nat) :
  unique_ids tree →
  root ∈ cascades tree →
  elif_chain N root →
  (∃ children,
     children_of root (ElifVisitor._if_children (ElifVisitor.walk tree))
     = Some children
     ∧ ElifVisitor.real_children_length children = Z.of_nat N)
  ∧ List.filter (anchored_at root) (ElifVisitor.run MAX_ELIFS tree)
    = (if Z.of_nat N >? MAX_ELIFS
       then [elifs_violation MAX_ELIFS root (Z.of_nat N)] else [])
  ∧ (∀ m, m ∈ elif_nodes root →
          List.filter (anchored_at m) (ElifVisitor.run MAX_ELIFS tree) = []).
Proof.
  intros Hunique Hroot Hchain.
  pose proof (elif_cascade MAX_ELIFS tree root Hunique Hroot) as Hcascade.
  simpl in Hcascade. unfold len in Hcascade.
  by rewrite (elif_chain_nodes N root Hchain) in Hcascade.
Qed.

(** Four [elif]s against a limit of three. *)
Lemma elif_cascade_counted_once_witness :
  List.filter (anchored_at sample_cascade) (ElifVisitor.run 3 sample_module)
  = [elifs_violation 3 sample_cascade 4].
Proof.
  assert (Hunique : unique_ids sample_module).
  { apply (bool_decide_unpack _). by vm_compute. }
  assert (Hroot : sample_cascade ∈ cascades sample_module) by left.
  assert (Hchain : elif_chain 4 sample_cascade).
  { repeat apply elif_chain_elif. by apply elif_chain_else. }
  destruct (elif_cascade_counted_once 3 sample_module sample_cascade 4
              Hunique Hroot Hchain) as (_ & Hrun & _).
  exact Hrun.
Defined.

(** ** The cases of [test_shadow_attributes.py] *)

Example test_incorrect_fields :
  Forall
    (λ code, v_text <$> ClassAttributeVisitor.run [code "__field1" "__field1"]
             = ["__field1"])
    [class_attribute; class_annotated_attribute; class_attribute_runtime;
     class_attribute_logic; class_with_unrelated_decorator1;
     class_with_unrelated_decorator2].
Proof. repeat constructor. Qed.

Example test_correct_fields :
  Forall
    (λ code, ClassAttributeVisitor.run [code "_field1" "_field2"] = [])
    [class_attribute; class_annotated_attribute; class_attribute_runtime;
     class_annotation; class_complex_attribute;
     class_complex_attribute_annotated; class_attribute_usage;
     class_attribute_logic; class_attribute_regular_assign;
     class_attribute_with_other; class_with_unrelated_decorator1;
     class_with_unrelated_decorator2; class_with_dataclass_decorator1;
     class_with_dataclass_decorator2]
  ∧ ClassAttributeVisitor.run (regular_assigns "_field1" "_field2") = [].
Proof. split; [repeat constructor | done]. Qed.

Example test_safe_fields :
  Forall
    (λ code, ClassAttributeVisitor.run [code "field1" "field1"] = [])
    [class_annotation; class_attribute_usage; class_attribute_regular_assign;
     class_complex_attribute; class_complex_attribute_annotated;
     class_with_dataclass_decorator1; class_with_dataclass_decorator2]
  ∧ ClassAttributeVisitor.run (regular_assigns "field1" "field1") = [].
Proof. split; [repeat constructor | done]. Qed.

(** ** [ElifVisitor]: the whole run, the dictionary and its operations *)

Lemma chains_entry_count tree kv :
  unique_ids tree → kv ∈ flat_map (chains false) tree →
  ElifVisitor.real_children_length (snd kv) = len (elif_nodes (fst kv)).
Proof.
  intros Hunique Hentry. destruct kv as [root l]. simpl.
  apply list_elem_of_In, in_flat_map in Hentry as (s & Hs & Hin).
  apply list_elem_of_In in Hs, Hin.
  destruct (chains_entry s false root l Hin) as (Hstep & Hl & Hsub).
  pose proof (subtree_NoDup tree s root Hunique Hs Hsub) as Hnodup.
  unfold ElifVisitor.real_children_length, len. f_equal.
  rewrite <- (length_fmap ast.nid_of (elif_nodes root)).
  apply Permutation_length, NoDup_Permutation.
  - apply NoDup_remove_dups.
  - by apply elif_nodes_NoDup.
  - intros x. rewrite elem_of_remove_dups. fold (ids l).
    fold (ids (elif_nodes root)). by rewrite Hl, elif_nodes_root.
Qed.

(** X1.  The whole run of [ElifVisitor], on a tree of distinct statement
    objects.  The members of a cascade are the conditionals below its
    outermost conditional, which is not counted itself.  The run reports
    the cascades of more than [MAX_ELIFS] members, each once, at its
    outermost conditional and with the number of its members, in the order
    the outermost conditionals are met, and nothing else. *)
Theorem elif_run_reports_long_cascades
    (MAX_ELIFS : Z) (tree : list ast.stmt) :
  unique_ids tree →
  ElifVisitor.run MAX_ELIFS tree
  = cascade_violation MAX_ELIFS
      <$> List.filter (too_many_elifs MAX_ELIFS) (cascades tree).
Proof.
  intros Hunique. rewrite (elif_run MAX_ELIFS tree Hunique).
  rewrite <- flat_map_singleton_if. unfold cascades. rewrite flat_map_fmap.
  apply flat_map_Forall_eq, Forall_forall. intros kv Hkv.
  unfold entry_violations, too_many_elifs, cascade_violation.
  by rewrite (chains_entry_count tree kv Hunique Hkv).
Qed.

Lemma elif_run_reports_long_cascades_witness :
  ElifVisitor.run 3 sample_module = [elifs_violation 3 sample_cascade 4]
  ∧ ElifVisitor.run 4 sample_module = [].
Proof.
  assert (Hunique : unique_ids sample_module).
  { apply (bool_decide_unpack _). by vm_compute. }
  split.
  - by rewrite (elif_run_reports_long_cascades 3 sample_module Hunique).
  - by rewrite (elif_run_reports_long_cascades 4 sample_module Hunique).
Defined.

(** X2.  The dictionary [_if_children] once a tree of distinct statement
    objects is visited: its keys are pairwise distinct objects, no key is a
    member of any list, every key is a conditional whose alternative branch
    consists entirely of conditionals, the list of a key starts with that
    branch, and no violation is emitted before [_post_visit]. *)
Theorem elif_dictionary_invariant (tree : list ast.stmt) :
  unique_ids tree →
  let d := ElifVisitor._if_children (ElifVisitor.walk tree) in
  NoDup (keys d)
  ∧ (∀ x, x ∈ keys d → x ∉ member_ids d)
  ∧ Forall (λ kv, elif_step (fst kv) = true
                  ∧ ElifVisitor.orelse_of (fst kv) `prefix_of` snd kv) d
  ∧ ElifVisitor.violations (ElifVisitor.walk tree) = [].
Proof.
  intros Hunique. simpl.
  destruct (elif_walk tree Hunique) as [-> ->]. split_and!; [| | |done].
  - by apply keys_chains_NoDup.
  - intros x. by apply keys_members_disjoint_tree.
  - apply Forall_forall. intros [root l] Hentry. simpl.
    apply list_elem_of_In, in_flat_map in Hentry as (s & _ & Hin).
    apply list_elem_of_In in Hin.
    destruct (chains_entry s false root l Hin) as (Hstep & -> & _).
    split; [done|]. by eexists.
Qed.

Lemma elif_dictionary_invariant_witness :
  NoDup (keys (ElifVisitor._if_children (ElifVisitor.walk sample_module)))
  ∧ ElifVisitor.violations (ElifVisitor.walk sample_module) = [].
Proof.
  assert (Hunique : unique_ids sample_module).
  { apply (bool_decide_unpack _). by vm_compute. }
  destruct (elif_dictionary_invariant sample_module Hunique)
    as (Hkeys & _ & _ & Hviolations).
  by split.
Defined.

Lemma children_of_map root items k d :
  children_of k
    (map (λ kv, if ast.is_ (fst kv) root then (fst kv, snd kv ++ items)
                else kv) d)
  = (λ l, if ast.is_ k root then l ++ items else l) <$> children_of k d.
Proof.
  unfold children_of. induction d as [|[k' l] d IH]; [done|]. simpl.
  destruct (ast.is_ k' root) eqn:Hroot; simpl;
    destruct (ast.is_ k' k) eqn:Hk; simpl; try done.
  - apply is_nid in Hroot, Hk.
    by rewrite (proj2 (is_nid k root)) by congruence.
  - apply is_false in Hroot. apply is_nid in Hk.
    by rewrite (proj2 (is_false k root)) by congruence.
Qed.

Lemma children_of_app k d d' :
  children_of k (d ++ d')
  = match children_of k d with
    | Some l => Some l
    | None => children_of k d'
    end.
Proof.
  unfold children_of. induction d as [|[k' l] d IH]; [done|]. simpl.
  by destruct (ast.is_ k' k).
Qed.

Lemma children_of_None k d :
  existsb (λ kv, ast.is_ (fst kv) k) d = false → children_of k d = None.
Proof.
  unfold children_of. induction d as [|[k' l] d IH]; [done|]. simpl.
  by destruct (ast.is_ k' k).
Qed.

Lemma children_of_Some k d :
  existsb (λ kv, ast.is_ (fst kv) k) d = true → is_Some (children_of k d).
Proof.
  unfold children_of. induction d as [|[k' l] d IH]; [done|]. simpl.
  destruct (ast.is_ k' k); simpl; [by eexists | done].
Qed.

Lemma has_key_same k k' (d : list (ast.stmt * list ast.stmt)) :
  ast.nid_of k = ast.nid_of k' →
  existsb (λ kv, ast.is_ (fst kv) k) d
  = existsb (λ kv, ast.is_ (fst kv) k') d.
Proof.
  intros Hsame. induction d as [|kv d IH]; [done|]. simpl.
  unfold ast.is_ in *. by rewrite Hsame.
Qed.

Lemma children_of_dd_extend root items k d :
  children_of k (ElifVisitor.dd_extend root items d)
  = if ast.is_ k root
    then Some (default [] (children_of k d) ++ items)
    else children_of k d.
Proof.
  unfold ElifVisitor.dd_extend. rewrite children_of_map.
  unfold ElifVisitor.dd_touch.
  destruct (existsb (λ kv, ast.is_ (fst kv) root) d) eqn:Hroot.
  - destruct (ast.is_ k root) eqn:Hk.
    + apply is_nid in Hk.
      assert (Hsome : is_Some (children_of k d)).
      { apply children_of_Some. by rewrite (has_key_same k root). }
      by destruct Hsome as [l ->].
    + by destruct (children_of k d).
  - rewrite children_of_app. destruct (ast.is_ k root) eqn:Hk.
    + apply is_nid in Hk.
      rewrite children_of_None.
      * unfold children_of. simpl.
        by rewrite (proj2 (is_nid root k)) by done.
      * by rewrite (has_key_same k root).
    + destruct (children_of k d); [done|]. unfold children_of. simpl.
      apply is_false in Hk.
      by rewrite (proj2 (is_false root k)) by done.
Qed.

(** X3.  [_update_if_child] followed by a lookup, on any dictionary: the
    list of the root is its former list (empty when the root was no key)
    extended by the node, unless the node is the root itself, and then by
    the node's alternative branch; the list of every other key is
    untouched. *)
Theorem update_if_child_lookup
    (root node k : ast.stmt) (d : list (ast.stmt * list ast.stmt)) :
  children_of k (ElifVisitor._update_if_child root node d)
  = if ast.is_ k root
    then Some (default [] (children_of k d)
               ++ (if ast.is_ node root then [] else [node])
               ++ ElifVisitor.orelse_of node)
    else children_of k d.
Proof.
  unfold ElifVisitor._update_if_child.
  destruct (ast.is_ node root); simpl;
    rewrite !children_of_dd_extend; destruct (ast.is_ k root); try done.
  simpl. by rewrite <- (assoc_L (++)).
Qed.

Lemma remove_dups_length (l : list nat) :
  (length (remove_dups l) ≤ length l)%nat.
Proof.
  induction l as [|x l IH]; simpl; [done|]. case_decide; simpl; lia.
Qed.

Lemma remove_dups_NoDup (l : list nat) : NoDup l → remove_dups l = l.
Proof.
  induction 1 as [|x l Hx _ IH]; simpl; [done|].
  case_decide; [done | by f_equal].
Qed.

(** X4.  [real_children_length] counts objects, not occurrences: it depends
    only on which objects the list holds, it never exceeds the length of
    the list, and it is that length when the members are pairwise
    distinct. *)
Theorem real_children_length_counts_objects (l l' : list ast.stmt) :
  ((∀ x, x ∈ ids l ↔ x ∈ ids l') →
   ElifVisitor.real_children_length l = ElifVisitor.real_children_length l')
  ∧ (0 ≤ ElifVisitor.real_children_length l ≤ len l)%Z
  ∧ (NoDup (ids l) → ElifVisitor.real_children_length l = len l)
  ∧ ElifVisitor.real_children_length (l ++ l)
    = ElifVisitor.real_children_length l.
Proof.
  unfold ElifVisitor.real_children_length, len. fold (ids l) (ids l').
  split; [|split; [|split]].
  - intros Hsame. f_equal.
    apply Permutation_length, NoDup_Permutation;
      [apply NoDup_remove_dups..|].
    intros x. by rewrite !elem_of_remove_dups.
  - pose proof (remove_dups_length (ids l)) as Hle.
    unfold ids in Hle at 2. rewrite length_fmap in Hle. lia.
  - intros Hnodup. rewrite (remove_dups_NoDup _ Hnodup).
    unfold ids. by rewrite length_fmap.
  - f_equal. fold (ids (l ++ l)).
    apply Permutation_length, NoDup_Permutation;
      [apply NoDup_remove_dups..|].
    intros x. rewrite !elem_of_remove_dups, ids_app. set_solver.
Qed.

(** X5.  [_get_root_if_node]: a node that no list of the dictionary holds
    is its own root; otherwise the root is the key of the first entry, in
    insertion order, whose list holds the node. *)
Theorem get_root_if_node_first_entry
    (node : ast.stmt) (d : list (ast.stmt * list ast.stmt)) :
  (ast.nid_of node ∉ member_ids d →
   ElifVisitor._get_root_if_node node d = node)
  ∧ (ast.nid_of node ∈ member_ids d →
     ∃ d1 l d2,
       d = d1 ++ (ElifVisitor._get_root_if_node node d, l) :: d2
       ∧ ast.nid_of node ∈ ids l
       ∧ ast.nid_of node ∉ member_ids d1).
Proof.
  split; [by apply get_root_unrooted|].
  induction d as [|[k l] d IH]; intros Hin.
  - by apply elem_of_nil in Hin.
  - change (member_ids ((k, l) :: d)) with (ids l ++ member_ids d) in Hin.
    destruct (decide (ast.nid_of node ∈ ids l)) as [Hl|Hl].
    + exists [], l, d. split_and!; [|done|by apply not_elem_of_nil].
      assert (Hroot : ElifVisitor._get_root_if_node node ((k, l) :: d) = k).
      { apply (get_root_rooted node [] k l d); [apply not_elem_of_nil|done]. }
      by rewrite Hroot.
    + apply elem_of_app in Hin as [Hin|Hin]; [done|].
      destruct (IH Hin) as (d1 & l' & d2 & Hd & Hl' & Hd1).
      assert (Hroot : ElifVisitor._get_root_if_node node ((k, l) :: d)
                      = ElifVisitor._get_root_if_node node d).
      { unfold ElifVisitor._get_root_if_node. simpl.
        destruct (ElifVisitor.contains l node) eqn:Hc; [|done].
        by apply contains_ids in Hc. }
      exists ((k, l) :: d1), l', d2. rewrite Hroot. split_and!; [|done|].
      * simpl. by rewrite <- Hd.
      * change (member_ids ((k, l) :: d1)) with (ids l ++ member_ids d1).
        rewrite elem_of_app. by intros [?|?].
Qed.

(** ** [ModuleMembersVisitor]: how the count composes *)

Lemma scoped_stmt_children c s :
  scoped_stmt c s
  = (c, s) :: flat_map (scoped_stmt (child_context c s)) (children s).
Proof.
  destruct s; simpl; rewrite ?flat_map_app, ?flat_map_flat_map; done.
Qed.

Lemma scoped_stmt_nested s :
  ∀ c, c ≠ ctx_Module →
       Forall (λ cs, fst cs ≠ ctx_Module) (scoped_stmt c s).
Proof.
  induction s as [s IH] using stmt_children_ind. intros c Hc.
  rewrite scoped_stmt_children. constructor; [done|].
  apply Forall_forall. intros cs Hcs.
  apply list_elem_of_In, in_flat_map in Hcs as (child & Hchild & Hcs).
  apply list_elem_of_In in Hchild, Hcs. rewrite Forall_forall in IH.
  assert (Hc' : child_context c s ≠ ctx_Module) by (by destruct s).
  pose proof (IH child Hchild (child_context c s) Hc') as Hall.
  rewrite Forall_forall in Hall. by apply Hall.
Qed.

Lemma module_members_nested has_overload_decorator c ss :
  c ≠ ctx_Module →
  List.filter (is_module_member has_overload_decorator)
    (flat_map (scoped_stmt c) ss) = [].
Proof.
  intros Hc. apply filter_none. intros cs Hcs.
  apply list_elem_of_In, in_flat_map in Hcs as (s & _ & Hcs).
  apply list_elem_of_In in Hcs.
  pose proof (scoped_stmt_nested s c Hc) as Hall.
  rewrite Forall_forall in Hall. specialize (Hall cs Hcs).
  unfold is_module_member. by destruct (fst cs).
Qed.

(** X6.  The member count of a module is the sum of the counts of its
    parts, and the decorator violations of a module are those of its parts,
    in order. *)
Theorem module_members_concatenation
    (has_overload_decorator : ast.stmt → bool) (options : Options)
    (tree1 tree2 : list ast.stmt) :
  let walk := ModuleMembersVisitor.walk has_overload_decorator options in
  ModuleMembersVisitor._public_items_count (walk (tree1 ++ tree2))
  = ModuleMembersVisitor._public_items_count (walk tree1)
    + ModuleMembersVisitor._public_items_count (walk tree2)
  ∧ ModuleMembersVisitor.violations (walk (tree1 ++ tree2))
    = ModuleMembersVisitor.violations (walk tree1)
      ++ ModuleMembersVisitor.violations (walk tree2).
Proof.
  simpl. rewrite !module_members_walk_count, !module_members_walk_violations.
  unfold module_members, declarations, stmts_of, scoped_stmts, len.
  rewrite flat_map_app, !fmap_app, !List.filter_app, !fmap_app, length_app.
  split; [lia | done].
Qed.

(** X7.  The member count of a single module-level statement.  A class or
    function declaration counts for one, whatever its body declares, unless
    it is a function with the overload decorator, which counts for nothing;
    a class counts even when the overload predicate holds of it.  Any other
    statement is transparent: it counts for what the statements directly
    below it count. *)
Theorem module_members_of_statement
    (has_overload_decorator : ast.stmt → bool) (options : Options)
    (s : ast.stmt) :
  let walk := ModuleMembersVisitor.walk has_overload_decorator options in
  ModuleMembersVisitor._public_items_count (walk [s])
  = if is_declaration s
    then (if ModuleMembersVisitor.isinstance_FunctionNodes s
             && has_overload_decorator s
          then 0 else 1)
    else ModuleMembersVisitor._public_items_count (walk (children s)).
Proof.
  simpl. rewrite !module_members_walk_count.
  unfold module_members, scoped_stmts. simpl.
  rewrite app_nil_r, scoped_stmt_children. simpl.
  unfold is_module_member at 1. simpl.
  destruct (is_declaration s) eqn:Hdecl; simpl.
  - rewrite module_members_nested by (by destruct s).
    by destruct (ModuleMembersVisitor.isinstance_FunctionNodes s
                 && has_overload_decorator s).
  - by replace (child_context ctx_Module s) with ctx_Module
      by (by destruct s).
Qed.

(** ** [ConditionsVisitor]: the whole run *)

Lemma app_singleton_ne {A} (st : list A) (v : A) : st ++ [v] ≠ st.
Proof.
  intros Heq. apply (f_equal length) in Heq.
  rewrite length_app in Heq. simpl in Heq. lia.
Qed.

(** What [ConditionsVisitor] emits at one expression. *)
Lemma conditions_visit_expr MAX_CONDITIONS MAX_COMPARES c e st :
  ConditionsVisitor.visit MAX_CONDITIONS MAX_COMPARES c (ast.NExpr e) st
  = st ++ conditions_violations MAX_CONDITIONS MAX_COMPARES e.
Proof.
  unfold conditions_violations.
  destruct e; simpl; rewrite ?app_nil_r; try done.
  - unfold ConditionsVisitor._check_conditions, too_many_conditions,
      conditions_violation, ConditionsVisitor.add_violation.
    rewrite count_conditions_flatten by done. simpl.
    case_match; by rewrite ?app_nil_r.
  - rewrite check_compares_threshold.
    unfold too_long_compare, compare_violation. simpl.
    case_match; by rewrite ?app_nil_r.
Qed.

Lemma conditions_step MAX_CONDITIONS MAX_COMPARES st cn :
  fire (ConditionsVisitor.visit MAX_CONDITIONS MAX_COMPARES) st cn
  = st ++ flat_map (conditions_violations MAX_CONDITIONS MAX_COMPARES)
            (expr_of (snd cn)).
Proof.
  destruct cn as [c [s|e|h]]; unfold fire; simpl; rewrite ?app_nil_r;
    try done.
  apply (conditions_visit_expr MAX_CONDITIONS MAX_COMPARES c).
Qed.

Lemma conditions_run MAX_CONDITIONS MAX_COMPARES tree :
  ConditionsVisitor.run MAX_CONDITIONS MAX_COMPARES tree
  = flat_map (conditions_violations MAX_CONDITIONS MAX_COMPARES)
      (exprs_of tree).
Proof.
  unfold ConditionsVisitor.run. rewrite visit_tree_nodes.
  rewrite (fold_left_append _ _ _
             (conditions_step MAX_CONDITIONS MAX_COMPARES)). simpl.
  unfold exprs_of. by rewrite flat_map_flat_map, flat_map_fmap.
Qed.

Lemma filter_singleton_if {A} (p : A → bool) (b : bool) (x : A) :
  List.filter p (if b then [x] else []) = if b && p x then [x] else [].
Proof. destruct b; simpl; [|done]. by destruct (p x). Qed.

(** X8.  The whole run of [ConditionsVisitor]: every boolean combination of
    the tree, nested ones included, whose flattened operands outnumber
    [MAX_CONDITIONS] is reported once, and every comparison whose operators
    outnumber its threshold is reported once, both in the order the walker
    meets them; nothing else is reported. *)
Theorem conditions_run_per_expression
    (MAX_CONDITIONS MAX_COMPARES : Z) (tree : list ast.stmt) :
  let emitted := ConditionsVisitor.run MAX_CONDITIONS MAX_COMPARES tree in
  List.filter (has_class TooManyConditionsViolation) emitted
  = conditions_violation MAX_CONDITIONS
      <$> List.filter (too_many_conditions MAX_CONDITIONS) (exprs_of tree)
  ∧ List.filter (has_class TooLongCompareViolation) emitted
    = compare_violation MAX_COMPARES
        <$> List.filter (too_long_compare MAX_COMPARES) (exprs_of tree)
  ∧ Forall (λ v, v_class v = TooManyConditionsViolation
                 ∨ v_class v = TooLongCompareViolation) emitted.
Proof.
  simpl. rewrite conditions_run. split_and!.
  - rewrite filter_flat_map, <- flat_map_singleton_if.
    apply flat_map_ext_eq. intros e. unfold conditions_violations.
    rewrite List.filter_app, !filter_singleton_if. simpl.
    by rewrite andb_true_r, andb_false_r, app_nil_r.
  - rewrite filter_flat_map, <- flat_map_singleton_if.
    apply flat_map_ext_eq. intros e. unfold conditions_violations.
    rewrite List.filter_app, !filter_singleton_if. simpl.
    by rewrite andb_true_r, andb_false_r.
  - apply Forall_forall. intros v Hv.
    apply list_elem_of_In, in_flat_map in Hv as (e & _ & Hv).
    unfold conditions_violations in Hv.
    apply list_elem_of_In, elem_of_app in Hv as [Hv|Hv];
      case_match; try (by apply elem_of_nil in Hv);
      apply list_elem_of_singleton in Hv as ->; (by left) || (by right).
Qed.

(** X9.  The conditions of a boolean combination nested directly in another
    are counted again in the enclosing one: the enclosing count is at least
    the nested count, so that whenever the nested combination is reported,
    the enclosing one is reported as well. *)
Theorem nested_conditions_counted_in_enclosing
    (MAX_CONDITIONS : Z) (op : ast.boolop) (values : list ast.expr)
    (nested : ast.expr) (st : list Violation) :
  nested ∈ values →
  ast.isinstance_BoolOp nested = true →
  (ConditionsVisitor._count_conditions nested
   ≤ ConditionsVisitor._count_conditions (ast.BoolOp op values))%Z
  ∧ (ConditionsVisitor._check_conditions MAX_CONDITIONS nested st ≠ st →
     ConditionsVisitor._check_conditions MAX_CONDITIONS
       (ast.BoolOp op values) st ≠ st).
Proof.
  intros Hnested Hbool.
  assert (Hle : (ConditionsVisitor._count_conditions nested
                 ≤ ConditionsVisitor._count_conditions
                     (ast.BoolOp op values))%Z).
  { rewrite !count_conditions_flatten by done. unfold len.
    apply inj_le, sublist_length. simpl.
    by apply sublist_flat_map_elem. }
  split; [done|]. unfold ConditionsVisitor._check_conditions.
  destruct (ConditionsVisitor._count_conditions nested >? MAX_CONDITIONS)
    eqn:Hinner; [|done]. intros _.
  destruct (ConditionsVisitor._count_conditions (ast.BoolOp op values)
            >? MAX_CONDITIONS) eqn:Houter; [apply app_singleton_ne|].
  lia.
Qed.

Lemma nested_conditions_counted_in_enclosing_witness :
  let inner :=
    ast.BoolOp ast.Or [ast.Name "b"; ast.Name "c"; ast.Name "d"] in
  (ConditionsVisitor._count_conditions inner
   ≤ ConditionsVisitor._count_conditions
       (ast.BoolOp ast.And [ast.Name "a"; inner]))%Z.
Proof.
  intros inner.
  refine (proj1 (nested_conditions_counted_in_enclosing 2 ast.And
                   [ast.Name "a"; inner] inner [] _ _)).
  - right. left.
  - reflexivity.
Defined.

Lemma not_uniform_threshold MAX_COMPARES lhs ops comparators :
  ¬ (Forall (λ op, op = ast.Eq) ops ∨ Forall (λ op, op = ast.NotEq) ops) →
  compare_threshold MAX_COMPARES (ast.Compare lhs ops comparators)
  = MAX_COMPARES.
Proof.
  intros Hnot. unfold compare_threshold. simpl.
  destruct (forallb ast.isinstance_NotEq ops) eqn:Hne.
  { destruct Hnot. right. by apply forallb_isinstance_NotEq. }
  destruct (forallb ast.isinstance_Eq ops) eqn:Heq; [|done].
  destruct Hnot. left. by apply forallb_isinstance_Eq.
Qed.

(** X10.  When a comparison is reported.  A chain of more than
    [MAX_COMPARES + 1] operators always is; a chain of exactly
    [MAX_COMPARES + 1] operators is, unless all its operators are [==] or
    all are [!=]; a shorter one never is.  In particular a chain with an
    operator that is neither [==] nor [!=] has the threshold
    [MAX_COMPARES], also when all its operators are the same. *)
Theorem compare_reported_iff
    (MAX_COMPARES : Z) (lhs : ast.expr) (ops : list ast.cmpop)
    (comparators : list ast.expr) (st : list Violation) :
  let node := ast.Compare lhs ops comparators in
  let uniform :=
    Forall (λ op, op = ast.Eq) ops ∨ Forall (λ op, op = ast.NotEq) ops in
  (ConditionsVisitor._check_compares MAX_COMPARES node st ≠ st
   ↔ (len ops > MAX_COMPARES + 1)%Z
     ∨ (len ops = MAX_COMPARES + 1 ∧ ¬ uniform))
  ∧ (∀ op, op ∈ ops → is_equality op = false →
           compare_threshold MAX_COMPARES node = MAX_COMPARES).
Proof.
  simpl. split.
  - rewrite check_compares_threshold. simpl.
    assert (Hdec : (Forall (λ op, op = ast.Eq) ops
                    ∨ Forall (λ op, op = ast.NotEq) ops)
                   ∨ ¬ (Forall (λ op, op = ast.Eq) ops
                        ∨ Forall (λ op, op = ast.NotEq) ops)).
    { destruct (forallb ast.isinstance_Eq ops) eqn:Heq.
      { left. left. by apply forallb_isinstance_Eq. }
      destruct (forallb ast.isinstance_NotEq ops) eqn:Hne.
      { left. right. by apply forallb_isinstance_NotEq. }
      right. intros [Hall|Hall].
      - apply forallb_isinstance_Eq in Hall. congruence.
      - apply forallb_isinstance_NotEq in Hall. congruence. }
    destruct Hdec as [Hu|Hu].
    + rewrite compare_threshold_uniform by done.
      destruct (len ops >? MAX_COMPARES + 1) eqn:Hlen.
      * split; [intros _; left; lia | intros _; apply app_singleton_ne].
      * split; [done | intros [?|[_ ?]]; [lia | done]].
    + rewrite not_uniform_threshold by done.
      destruct (len ops >? MAX_COMPARES) eqn:Hlen.
      * split; [intros _ | intros _; apply app_singleton_ne].
        destruct (decide (len ops = MAX_COMPARES + 1));
          [by right | left; lia].
      * split; [done | intros [?|[? _]]; lia].
  - intros op Hop Hneither. apply not_uniform_threshold.
    intros [Hall|Hall]; rewrite Forall_forall in Hall;
      rewrite (Hall op Hop) in Hneither; done.
Qed.

(** ** [TryExceptVisitor]: the shape of a [try] statement *)

Lemma filter_exceptions_violations options k hs :
  k ≠ TooManyExceptExceptionsViolation →
  List.filter (has_class k) (exceptions_violation options <$> hs) = [].
Proof.
  intros Hk. apply filter_none. intros v Hv.
  apply list_elem_of_fmap in Hv as (h & -> & _).
  unfold has_class. simpl. by apply bool_decide_eq_false.
Qed.

Lemma try_shape_violations_unfold MAX_EXCEPT_CASES options s :
  try_shape_violations MAX_EXCEPT_CASES options s
  = (if len (TryExceptVisitor.handlers_of s) >? MAX_EXCEPT_CASES
     then [except_cases_violation MAX_EXCEPT_CASES s] else [])
    ++ (if len (TryExceptVisitor.body_of s) >? max_try_body_length options
        then [try_body_violation options s] else [])
    ++ (if len (TryExceptVisitor.finalbody_of s)
           >? max_lines_in_finally options
        then [finally_body_violation options s] else []).
Proof.
  unfold try_shape_violations, TryExceptVisitor._check_finally_body_length,
    TryExceptVisitor._check_try_body_length,
    TryExceptVisitor._check_except_count, TryExceptVisitor.add_violation.
  by repeat case_match.
Qed.

(** X11.  The three checks of the shape of a [try] statement, over a whole
    tree: every [try] statement, nested ones included, with more handlers
    than [MAX_EXCEPT_CASES] is reported once, and so is every one whose
    body, or whose [finally] block, holds more statements than its option
    allows; each in pre-order, and no other node is reported for these
    violations. *)
Theorem try_shape_checked_at_every_try
    (MAX_EXCEPT_CASES : Z) (options : Options) (tree : list ast.stmt) :
  let emitted := TryExceptVisitor.run MAX_EXCEPT_CASES options tree in
  List.filter (has_class TooManyExceptCasesViolation) emitted
  = except_cases_violation MAX_EXCEPT_CASES
      <$> List.filter
            (λ s, len (TryExceptVisitor.handlers_of s) >? MAX_EXCEPT_CASES)
            (tries tree)
  ∧ List.filter (has_class TooLongTryBodyViolation) emitted
    = try_body_violation options
        <$> List.filter
              (λ s, len (TryExceptVisitor.body_of s)
                    >? max_try_body_length options)
              (tries tree)
  ∧ List.filter (has_class TooLongFinallyBodyViolation) emitted
    = finally_body_violation options
        <$> List.filter
              (λ s, len (TryExceptVisitor.finalbody_of s)
                    >? max_lines_in_finally options)
              (tries tree).
Proof.
  simpl. rewrite try_except_run. unfold tries.
  split_and!; rewrite <- filter_andb, filter_flat_map,
    <- flat_map_singleton_if; apply flat_map_ext_eq; intros s;
    unfold try_violations; destruct (isinstance_Try s); simpl; try done;
    rewrite List.filter_app, filter_exceptions_violations by done;
    rewrite try_shape_violations_unfold, !List.filter_app,
      !filter_singleton_if; simpl;
    by rewrite ?andb_true_r, ?andb_false_r, ?app_nil_r.
Qed.

(** X12.  When [visit_any_try] is silent at a [try] statement: exactly when
    it has at most [MAX_EXCEPT_CASES] handlers, its body and its [finally]
    block are within their options, and no handler names more exceptions
    than allowed.  The [else] block is never measured. *)
Theorem try_silent_iff_within_limits
    (MAX_EXCEPT_CASES : Z) (options : Options) (n : nat) (star : bool)
    (body : list ast.stmt) (handlers : list ast.excepthandler)
    (orelse finalbody : list ast.stmt) (st : list Violation) :
  TryExceptVisitor.visit_any_try MAX_EXCEPT_CASES options
    (ast.Try n star body handlers orelse finalbody) st = st
  ↔ (len handlers ≤ MAX_EXCEPT_CASES)%Z
    ∧ (len body ≤ max_try_body_length options)%Z
    ∧ (len finalbody ≤ max_lines_in_finally options)%Z
    ∧ Forall (λ h, too_many_exceptions options h = false) handlers.
Proof.
  rewrite visit_any_try_append, try_shape_violations_unfold. simpl.
  assert (Hnil : ∀ l : list Violation, st ++ l = st ↔ l = []).
  { intros l. split; [|intros ->; by rewrite app_nil_r].
    intros Heq. apply (app_inv_head st). by rewrite app_nil_r. }
  rewrite Hnil.
  assert (Hfilter :
    exceptions_violation options
      <$> List.filter (too_many_exceptions options) handlers = []
    ↔ Forall (λ h, too_many_exceptions options h = false) handlers).
  { clear. induction handlers as [|h hs IH].
    - split; [constructor | done].
    - simpl. rewrite Forall_cons.
      destruct (too_many_exceptions options h); csimpl.
      + split; [done | by intros [? _]].
      + rewrite IH. naive_solver. }
  rewrite <- Hfilter.
  destruct (len handlers >? MAX_EXCEPT_CASES) eqn:H1;
    destruct (len body >? max_try_body_length options) eqn:H2;
    destruct (len finalbody >? max_lines_in_finally options) eqn:H3;
    simpl; (split; [try done; intros Heq; split_and!; try lia; done
                   | intros (? & ? & ? & Heq); try lia; done]).
Qed.

(** ** [ReturnLikeStatementTupleVisitor] *)

Lemma return_like_step MAX_LEN_TUPLE_OUTPUT st cn :
  fire (ReturnLikeStatementTupleVisitor.visit MAX_LEN_TUPLE_OUTPUT) st cn
  = st ++ (if too_long_output MAX_LEN_TUPLE_OUTPUT (snd cn)
           then [output_violation MAX_LEN_TUPLE_OUTPUT (snd cn)] else []).
Proof.
  destruct cn as [c n]. unfold fire, too_long_output, output_violation,
    output_elts. simpl.
  destruct n as [s|e|h]; [destruct s|destruct e|]; simpl;
    rewrite ?app_nil_r; try done;
    unfold ReturnLikeStatementTupleVisitor._check_return_like_values; simpl;
    repeat case_match; simplify_eq; by rewrite ?app_nil_r.
Qed.

(** X13.  The whole run of [ReturnLikeStatementTupleVisitor]: it reports
    the [return] statements and [yield] expressions of the tree, wherever
    they are nested, whose value is literally a tuple of more than
    [MAX_LEN_TUPLE_OUTPUT] elements, each once, in the order the walker
    meets them, with the number of elements of the tuple; a [return] or
    [yield] without a value, or of any other expression, is never
    reported. *)
Theorem return_like_run_reports_long_tuples
    (MAX_LEN_TUPLE_OUTPUT : Z) (tree : list ast.stmt) :
  ReturnLikeStatementTupleVisitor.run MAX_LEN_TUPLE_OUTPUT tree
  = output_violation MAX_LEN_TUPLE_OUTPUT
      <$> List.filter (too_long_output MAX_LEN_TUPLE_OUTPUT)
            (snd <$> nodes tree)
  ∧ (∀ n, too_long_output MAX_LEN_TUPLE_OUTPUT n = true
          ↔ ∃ elts,
              ReturnLikeStatementTupleVisitor.value_of n
              = Some (ast.Tuple elts)
              ∧ (MAX_LEN_TUPLE_OUTPUT < len elts)%Z).
Proof.
  split.
  - unfold ReturnLikeStatementTupleVisitor.run. rewrite visit_tree_nodes.
    rewrite (fold_left_append _ _ _
               (return_like_step MAX_LEN_TUPLE_OUTPUT)). simpl.
    by rewrite <- flat_map_singleton_if, flat_map_fmap.
  - intros n. unfold too_long_output, output_elts.
    destruct (ReturnLikeStatementTupleVisitor.value_of n) as [[]|];
      try (split; [done | by intros (? & ? & ?)]).
    split.
    + intros Hlen. eexists. split; [done | lia].
    + intros (elts' & Heq & Hlen). simplify_eq. lia.
Qed.

(** ** [TupleUnpackVisitor] *)

Lemma tuple_unpack_step max_tuple_unpack_length st cs :
  fire_stmt (TupleUnpackVisitor.visit max_tuple_unpack_length) st cs
  = violations ← st;
    if no_target (snd cs) then None
    else Some (violations
               ++ (if too_long_unpack max_tuple_unpack_length (snd cs)
                   then [unpack_violation max_tuple_unpack_length (snd cs)]
                   else [])).
Proof.
  destruct cs as [c s], st as [violations|]; [|done].
  unfold fire_stmt, too_long_unpack, unpack_violation, first_target_elts.
  simpl. destruct s; simpl; rewrite ?app_nil_r; try done.
  unfold TupleUnpackVisitor._check_tuple_unpack. simpl.
  repeat case_match; simplify_eq; rewrite ?app_nil_r; try done; lia.
Qed.

Lemma tuple_unpack_fold max_tuple_unpack_length l st :
  fold_left (fire_stmt (TupleUnpackVisitor.visit max_tuple_unpack_length))
    l st
  = violations ← st;
    if existsb no_target (snd <$> l) then None
    else Some (violations
               ++ (unpack_violation max_tuple_unpack_length
                     <$> List.filter (too_long_unpack max_tuple_unpack_length)
                           (snd <$> l))).
Proof.
  revert st. induction l as [|cs l IH]; intros st.
  - destruct st; simpl; by rewrite ?app_nil_r.
  - csimpl. rewrite IH, tuple_unpack_step. destruct st as [violations|];
      [|done]. csimpl. destruct (no_target (snd cs)); [done|]. csimpl.
    destruct (existsb no_target (snd <$> l)); [done|].
    destruct (too_long_unpack max_tuple_unpack_length (snd cs)); csimpl;
      by rewrite <- ?(assoc_L (++)), ?app_nil_r.
Qed.

Lemma tuple_unpack_run max_tuple_unpack_length tree :
  TupleUnpackVisitor.run max_tuple_unpack_length tree
  = if existsb no_target (stmts_of tree) then None
    else Some (unpack_violation max_tuple_unpack_length
                 <$> List.filter (too_long_unpack max_tuple_unpack_length)
                       (stmts_of tree)).
Proof.
  unfold TupleUnpackVisitor.run.
  rewrite (visit_tree_stmts (TupleUnpackVisitor.visit _))
    by (by intros ? ? []).
  by rewrite tuple_unpack_fold.
Qed.

(** X14.  When [TupleUnpackVisitor] raises.  [node.targets[0]] raises
    [IndexError] on an assignment without targets, and nothing else raises:
    the run ends in the raised state exactly when the tree holds such an
    assignment, at any depth. *)
Theorem tuple_unpack_raises_iff_no_target
    (max_tuple_unpack_length : Z) (tree : list ast.stmt) :
  TupleUnpackVisitor.run max_tuple_unpack_length tree = None
  ↔ ∃ n value, ast.Assign n [] value ∈ stmts_of tree.
Proof.
  rewrite tuple_unpack_run.
  destruct (existsb no_target (stmts_of tree)) eqn:Hraise.
  - split; [intros _ | done].
    apply existsb_exists in Hraise as (s & Hs & Hno).
    apply list_elem_of_In in Hs.
    destruct s as [| | |n [|] value| | | | | | | |]; try done.
    by exists n, value.
  - split; [done|]. intros (n & value & Hs).
    assert (Htrue : existsb no_target (stmts_of tree) = true).
    { apply existsb_exists. eexists. split; [by apply list_elem_of_In|done]. }
    congruence.
Qed.

(** X15.  The whole run of [TupleUnpackVisitor] on a tree whose assignments
    all have a target: it reports the assignments whose first target is
    literally a tuple of more than [max_tuple_unpack_length] elements, each
    once and in pre-order, with the number of elements of that tuple.  A
    tuple of exactly [max_tuple_unpack_length] elements is not reported,
    and the targets after the first are never looked at. *)
Theorem tuple_unpack_run_reports_first_target
    (max_tuple_unpack_length : Z) (tree : list ast.stmt) :
  (∀ s, s ∈ stmts_of tree → no_target s = false) →
  TupleUnpackVisitor.run max_tuple_unpack_length tree
  = Some (unpack_violation max_tuple_unpack_length
            <$> List.filter (too_long_unpack max_tuple_unpack_length)
                  (stmts_of tree))
  ∧ (∀ n target targets value,
       too_long_unpack max_tuple_unpack_length
         (ast.Assign n (target :: targets) value) = true
       ↔ ∃ elts, target = ast.Tuple elts
                 ∧ (max_tuple_unpack_length < len elts)%Z).
Proof.
  intros Htargets. split.
  - rewrite tuple_unpack_run.
    destruct (existsb no_target (stmts_of tree)) eqn:Hraise; [|done].
    apply existsb_exists in Hraise as (s & Hs & Hno).
    apply list_elem_of_In in Hs. by rewrite (Htargets s Hs) in Hno.
  - intros n target targets value.
    unfold too_long_unpack, first_target_elts. simpl.
    destruct target; try (split; [done | by intros (? & ? & ?)]).
    split.
    + intros Hlen. eexists. split; [done | lia].
    + intros (elts' & Heq & Hlen). simplify_eq. lia.
Qed.

Lemma tuple_unpack_run_reports_first_target_witness :
  TupleUnpackVisitor.run 2 sample_unpack
  = Some [TupleUnpackVisitor.TooLongTupleUnpackViolation
            (ast.NStmt sample_long_unpack) "3" 2].
Proof.
  assert (Htargets : ∀ s, s ∈ stmts_of sample_unpack → no_target s = false).
  { intros s Hs. repeat (apply elem_of_cons in Hs as [->|Hs]; [done|]).
    by apply elem_of_nil in Hs. }
  by rewrite (proj1 (tuple_unpack_run_reports_first_target 2 sample_unpack
                       Htargets)).
Defined.

(** ** The codes of [violations/oop.py] *)

(** X16.  The codes of the violation classes of [violations/oop.py] are
    pairwise distinct and fill the range from 600 to 617. *)
Theorem oop_codes_distinct (k k' : oop.violation_class) :
  (oop.code k = oop.code k' → k = k')
  ∧ (600 ≤ oop.code k ≤ 617)%Z
  ∧ (∀ z, (600 ≤ z ≤ 617)%Z → ∃ k'', oop.code k'' = z).
Proof.
  split; [|split].
  - destruct k, k'; simpl; intros Heq; try done; lia.
  - destruct k; simpl; lia.
  - intros z Hz.
    assert (Hcase : z = 600 ∨ z = 601 ∨ z = 602 ∨ z = 603 ∨ z = 604
                    ∨ z = 605 ∨ z = 606 ∨ z = 607 ∨ z = 608 ∨ z = 609
                    ∨ z = 610 ∨ z = 611 ∨ z = 612 ∨ z = 613 ∨ z = 614
                    ∨ z = 615 ∨ z = 616 ∨ z = 617) by lia.
    destruct_or!; subst z;
      [ by exists oop.BuiltinSubclassViolation
      | by exists oop.ShadowedClassAttributeViolation
      | by exists oop.StaticMethodViolation
      | by exists oop.BadMagicMethodViolation
      | by exists oop.WrongClassBodyContentViolation
      | by exists oop.MethodWithoutArgumentsViolation
      | by exists oop.WrongBaseClassViolation
      | by exists oop.WrongSlotsViolation
      | by exists oop.WrongSuperCallViolation
      | by exists oop.DirectMagicAttributeAccessViolation
      | by exists oop.AsyncMagicMethodViolation
      | by exists oop.YieldMagicMethodViolation
      | by exists oop.UselessOverwrittenMethodViolation
      | by exists oop.WrongSuperCallAccessViolation
      | by exists oop.WrongDescriptorDecoratorViolation
      | by exists oop.UnpythonicGetterSetterViolation
      | by exists oop.BuggySuperContextViolation
      | by exists oop.LambdaAttributeAssignedViolation ].
Qed.
